(** * Verification of the single-waypoint motion planner core (package motionplan)

    A shallow embedding of [motionPlanInternal], [checkInputs], [checkPath],
    [smoothPath] and [getSolutions] together with the properties the
    specification states about them, and further properties of the code:
    of these functions, of the entry points of the planner, and of the
    example network service (packages networkapi and network).

    Conventions of the embedding:
    - Go [int] is [Z]; no arithmetic of the modelled code approaches the
      64-bit range (only [len], [++] on counters and index arithmetic).
    - Go [float64] is [spec_float], the IEEE-754 model of the standard
      library; [<] and [==] are [SFltb] and [SFeqb], so NaN and signed zeros
      behave as they do in Go.
    - a [map[float64]V] is an association list whose keys are compared with
      [==]; a [map[string]V] is a [gmap string V].
    - a call that panics in Go has the outcome [Panic].
    - declarations of the repository that are outside src/ are parameters:
      [Variable]s of a section, or the class [Collaborators]. *)

From Stdlib Require Import ZArith List Bool Lia Sorting.Sorted Sorting.Permutation.
From Stdlib Require Import Floats.SpecFloat.
From stdpp Require Import base option list gmap strings.

Local Open Scope Z_scope.

(** ** IEEE-754 binary64 values and their comparisons *)

Module Float64.

Definition float64 : Type := spec_float.

(** Go's [x < y], [x > y] and [x == y]. *)
Definition lt (x y : float64) : bool := SFltb x y.
Definition gt (x y : float64) : bool := SFltb y x.
Definition eq (x y : float64) : bool := SFeqb x y.

(** [math.IsNaN]. *)
Definition isNaN (x : float64) : bool :=
  match x with S754_nan => true | _ => false end.

Definition zero : float64 := S754_zero false.
Definition neg_zero : float64 := S754_zero true.
Definition NaN : float64 := S754_nan.

(** The literals [0.25], [0.5], [0.75], [1.0] and [2.0]: a mantissa of 53
    bits and a binary exponent. *)
Definition f0_25 : float64 := S754_finite false 4503599627370496 (-54).
Definition f0_5 : float64 := S754_finite false 4503599627370496 (-53).
Definition f0_75 : float64 := S754_finite false 6755399441055744 (-53).
Definition f1 : float64 := S754_finite false 4503599627370496 (-52).
Definition f2 : float64 := S754_finite false 4503599627370496 (-51).

(** The order [sort.Float64s] sorts by: [x < y || (isNaN(x) && !isNaN(y))]. *)
Definition less (x y : float64) : bool :=
  lt x y || (isNaN x && negb (isNaN y)).

End Float64.

Import Float64.

(** ** Go maps keyed by [float64]

    [map[float64]V]: keys are compared with [==], so a NaN key never matches
    (every assignment under NaN adds an entry and no lookup finds it) and
    [+0] and [-0] are one key.  An assignment to a key that is present
    overwrites the value and stores the new key.  Entries are kept in
    insertion order; Go's iteration order is unspecified, and the only
    iteration in the modelled code is followed by a sort. *)

Module FloatMap.
Section FloatMap.
Context {V : Type}.

Definition t : Type := list (float64 * V).

Definition empty : t := [].

(** [m[k] = v] *)
Fixpoint assign (m : t) (k : float64) (v : V) : t :=
  match m with
  | [] => [(k, v)]
  | (k', v') :: m' =>
      if Float64.eq k' k then (k, v) :: m' else (k', v') :: assign m' k v
  end.

(** [v, ok := m[k]] *)
Fixpoint get (m : t) (k : float64) : option V :=
  match m with
  | [] => None
  | (k', v') :: m' => if Float64.eq k' k then Some v' else get m' k
  end.

(** [len(m)] *)
Definition len (m : t) : Z := Z.of_nat (length m).

(** the keys visited by [for k := range m] *)
Definition keys (m : t) : list float64 := map fst m.
End FloatMap.
Arguments t : clear implicits.
End FloatMap.

(** ** [sort.Float64s]

    The library sorts increasingly by [Float64.less], NaN first.  Its result
    on a slice is the sorted rearrangement of the slice; insertion sort
    computes it. *)

Fixpoint insert_sorted (x : float64) (l : list float64) : list float64 :=
  match l with
  | [] => [x]
  | y :: l' => if Float64.less y x then y :: insert_sorted x l' else x :: l
  end.

Definition sort_Float64s (l : list float64) : list float64 :=
  fold_right insert_sorted [] l.

(** Predicates on key lists. *)

(** No two keys are [==]. *)
Definition distinct_keys (ks : list float64) : Prop :=
  StronglySorted (fun x y => Float64.eq x y = false) ks.

Definition no_NaN (ks : list float64) : Prop :=
  Forall (fun k => Float64.isNaN k = false) ks.

Definition ascending (ks : list float64) : Prop :=
  StronglySorted (fun x y => Float64.lt x y = true) ks.

(** ** Errors, outcomes, slices *)

(** A Go [error] is identified with its message. *)
Record error : Type := errors_New { Error : string }.

(** What a call does: return a value, return an error, or panic. *)
Inductive outcome (A : Type) : Type :=
| Ok (a : A)
| Err (e : error)
| Panic.
Arguments Ok {A} a.
Arguments Err {A} e.
Arguments Panic {A}.

#[global] Instance outcome_ret : MRet outcome := fun A a => Ok a.
#[global] Instance outcome_bind : MBind outcome := fun A B k m =>
  match m with
  | Ok a => k a
  | Err e => Err e
  | Panic => Panic
  end.

(** [len(l)] *)
Definition len {A : Type} (l : list A) : Z := Z.of_nat (length l).

(** [l[i]], which panics out of range. *)
Definition index {A : Type} (l : list A) (i : Z) : outcome A :=
  if 0 <=? i then
    match l !! Z.to_nat i with
    | Some x => Ok x
    | None => Panic
    end
  else Panic.

(** [l[:k]] and [l[k:]] of a slice used at its full length. *)
Definition slice_to {A : Type} (l : list A) (k : Z) : outcome (list A) :=
  if (0 <=? k) && (k <=? len l) then Ok (take (Z.to_nat k) l) else Panic.

Definition slice_from {A : Type} (l : list A) (k : Z) : outcome (list A) :=
  if (0 <=? k) && (k <=? len l) then Ok (drop (Z.to_nat k) l) else Panic.

(** ** Random source

    [*rand.Rand] is a generator with internal state.  The state is a
    position in a stream of raw draws; [Intn n] reduces the next draw into
    [[0,n)] and panics when [n <= 0].  Every sequence of in-range results is
    the behaviour of some stream. *)

Record Rand : Type := { raw : nat -> Z; pos : nat }.

Definition Intn (r : Rand) (n : Z) : outcome (Z * Rand) :=
  if n <=? 0 then Panic
  else Ok (raw r (pos r) mod n, {| raw := raw r; pos := S (pos r) |}).

(** ** Data model *)

(** [frame.Input] and a configuration [[]frame.Input]; the nil slice is []. *)
Record Input : Type := { Value : float64 }.
Definition Inputs : Type := list Input.

Record Limit : Type := { Min : float64; Max : float64 }.

(** Modelled from the spec: the node types are declared outside src/.  A
    CostNode is the pair (configuration, numeric cost); the canonical path
    node holds exactly one configuration. *)
Record costNode : Type := newCostNode { cn_q : Inputs; cost : float64 }.

Inductive node : Type :=
| basicNode (q : Inputs)
| cost_node (c : costNode).

Definition Q (n : node) : Inputs :=
  match n with
  | basicNode q => q
  | cost_node c => cn_q c
  end.

(** A result of the search in strictly ascending order of cost. *)
Definition cost_ascending (sols : list costNode) : Prop :=
  StronglySorted (fun a b => Float64.lt (cost a) (cost b) = true) sols.

(** ** The planner (type [planner] and its methods) *)

Section Planner.

(** [spatialmath.Pose] is an interface of another package. *)
Variable Pose : Type.

(** Declarations of the package that are outside src/. *)
Variable fixOvIncrement : Pose -> Pose -> Pose.
Variable InterpolateInputs : Inputs -> Inputs -> float64 -> Inputs.
Variable defaultSolutionsToSeed : Z.
Variable errIKSolve : error.
Variable genIKConstraintErr : gmap string Z -> Z -> error.

(** [frame.Frame]: the capability "given a configuration, produce a pose;
    report degrees of freedom". *)
Record Frame : Type := {
  Name : string;
  Transform : Inputs -> outcome Pose;
  DoF : list Limit
}.

(** A pose field left out of the struct literal is the nil interface. *)
Record ConstraintInput : Type := {
  StartPos : option Pose;
  EndPos : option Pose;
  StartInput : Inputs;
  EndInput : Inputs;
  CIFrame : Frame
}.

(** [plannerOptions] with the constraint capability it embeds.  The metric
    and the thread hint are only handed to the IK solver. *)
Record plannerOptions : Type := {
  CheckConstraints : ConstraintInput -> bool * float64 * string;
  CheckConstraintPath : ConstraintInput -> float64 -> bool * string;
  MaxSolutions : Z;
  MinScore : float64;
  SmoothIter : Z;
  Resolution : float64
}.

(** [planner]; [planOpts] is a pointer and may be nil.  The solver is
    represented by what the search loop observes of it, the logger has no
    effect on results. *)
Record planner : Type := {
  frame : Frame;
  randseed : Rand;
  planOpts : option plannerOptions
}.

(** *** checkInputs and checkPath *)

Definition checkInputs (mp : planner) (inputs : Inputs) : outcome bool :=
  match Transform (frame mp) inputs with
  | Panic => Panic
  | Err _ => Ok false
  | Ok position =>
      match planOpts mp with
      | None => Panic
      | Some opts =>
          let '(ok, _, _) :=
            CheckConstraints opts
              {| StartPos := Some position; EndPos := Some position;
                 StartInput := inputs; EndInput := inputs;
                 CIFrame := frame mp |} in
          Ok ok
      end
  end.

Definition checkPath (mp : planner) (seedInputs target : Inputs) : outcome bool :=
  match planOpts mp with
  | None => Panic
  | Some opts =>
      let '(ok, _) :=
        CheckConstraintPath opts
          {| StartPos := None; EndPos := None;
             StartInput := seedInputs; EndInput := target;
             CIFrame := frame mp |}
          (Resolution opts) in
      Ok ok
  end.

(** The degenerate constraint input of a configuration and its pose, and
    the pass/fail part of what the constraint capability returns. *)
Definition self_pair (fr : Frame) (position : Pose) (inputs : Inputs) : ConstraintInput :=
  {| StartPos := Some position; EndPos := Some position;
     StartInput := inputs; EndInput := inputs; CIFrame := fr |}.

Definition verdict (r : bool * float64 * string) : bool := fst (fst r).

(** *** smoothPath *)

Definition waypoints : list float64 := [f0_25; f0_5; f0_75].

(** The two edge indices an iteration draws. *)
Definition drawEdges (rs : Rand) (path : list node) : outcome (Z * Z * Rand) :=
  '(firstEdge, rs) ← Intn rs (len path - 2);
  '(r, rs) ← Intn rs ((len path - 2) - firstEdge);
  Ok (firstEdge, firstEdge + 1 + r, rs).

(** The waypoint interpolated on the edge that starts at node [edge]. *)
Definition drawWaypoint (rs : Rand) (path : list node) (edge : Z)
  : outcome (Inputs * Rand) :=
  a ← index path edge;
  b ← index path (edge + 1);
  '(k, rs) ← Intn rs 3;
  w ← index waypoints k;
  Ok (InterpolateInputs (Q a) (Q b) w, rs).

(** The new path of an accepted shortcut. *)
Definition splice (path : list node) (firstEdge secondEdge : Z)
    (wayPoint1 wayPoint2 : Inputs) : outcome (list node) :=
  p1 ← slice_to path (firstEdge + 1);
  p2 ← slice_from path (secondEdge + 1);
  Ok ((p1 ++ [basicNode wayPoint1; basicNode wayPoint2]) ++ p2).

(** One iteration of the loop, after the cancellation poll. *)
Definition smoothIteration (mp : planner) (rs : Rand) (path : list node)
  : outcome (list node * Rand) :=
  '(firstEdge, secondEdge, rs) ← drawEdges rs path;
  '(wayPoint1, rs) ← drawWaypoint rs path firstEdge;
  '(wayPoint2, rs) ← drawWaypoint rs path secondEdge;
  ok ← checkPath mp wayPoint1 wayPoint2;
  if ok : bool then
    newpath ← splice path firstEdge secondEdge wayPoint1 wayPoint2;
    Ok (newpath, rs)
  else Ok (path, rs).

(** The loop [for i := 0; i < SmoothIter; i++]: [n] iterations remain,
    [i] is the loop counter, [ctxDone i] tells whether the poll of
    [ctx.Done()] in iteration [i] finds the context cancelled. *)
Fixpoint smoothLoop (mp : planner) (ctxDone : nat -> bool) (n i : nat)
    (rs : Rand) (path : list node) : outcome (list node * Rand) :=
  match n with
  | O => Ok (path, rs)
  | S n' =>
      if ctxDone i then Ok (path, rs)
      else
        '(path, rs) ← smoothIteration mp rs path;
        smoothLoop mp ctxDone n' (S i) rs path
  end.

(** [smoothPath] returns the path; the generator of the planner has
    advanced to the returned state. *)
Definition smoothPath (mp : planner) (ctxDone : nat -> bool) (path : list node)
  : outcome (list node * Rand) :=
  match planOpts mp with
  | None => Ok (path, randseed mp)
  | Some opts =>
      if len path <=? 2 then Ok (path, randseed mp)
      else smoothLoop mp ctxDone (Z.to_nat (SmoothIter opts)) 0 (randseed mp) path
  end.

(** The splice in the words of the specification: the prefix up to and
    including node [i], the two waypoints, and the suffix from node [j+2]
    onward. *)
Definition splice_as_claimed (path : list node) (i j : Z)
    (wayPoint1 wayPoint2 : Inputs) : list node :=
  take (Z.to_nat (i + 1)) path
    ++ [basicNode wayPoint1; basicNode wayPoint2]
    ++ drop (Z.to_nat (j + 2)) path.

(** *** getSolutions

    The IK solver runs as a concurrent task; the search loop polls, in
    every iteration, the caller's context, the candidate stream and the
    solver's completion signal, each without blocking.  A [Poll] is what
    one iteration finds: the first of the three that is ready, or nothing.
    The loop is a function of the sequence of polls. *)

Inductive Poll : Type :=
| CtxDone (err : error)      (* [<-ctx.Done()] is ready; [ctx.Err()] is [err] *)
| Candidate (step : Inputs)  (* [step := <-solutionGen] *)
| SolverDone                 (* [<-ikErr] is ready *)
| Idle.                      (* all three [select]s take [default] *)

(** The variables of the loop. *)
Record IKstate : Type := {
  solutions : FloatMap.t Inputs;
  failures : gmap string Z;
  constraintFailCnt : Z
}.

Definition IKinit : IKstate :=
  {| solutions := FloatMap.empty; failures := ∅; constraintFailCnt := 0 |}.

(** [constraintFailCnt++; failures[failName]++] *)
Definition countFailure (st : IKstate) (failName : string) : IKstate :=
  {| solutions := solutions st;
     failures := <[failName := default 0 (failures st !! failName) + 1]> (failures st);
     constraintFailCnt := constraintFailCnt st + 1 |}.

Definition setSolutions (st : IKstate) (m : FloatMap.t Inputs) : IKstate :=
  {| solutions := m;
     failures := failures st;
     constraintFailCnt := constraintFailCnt st |}.

Section Search.
Variable opts : plannerOptions.
Variable fr : Frame.
Variables seedPos goalPos : Pose.
Variable seed : Inputs.
Variable nSolutions : Z.

(** The check of a candidate against the seed, and the check of the
    candidate as its own start and end. *)
Definition checkFromSeed (step : Inputs) : bool * float64 * string :=
  CheckConstraints opts
    {| StartPos := Some seedPos; EndPos := Some goalPos;
       StartInput := seed; EndInput := step; CIFrame := fr |}.

Definition checkAtGoal (step : Inputs) : bool * float64 * string :=
  CheckConstraints opts
    {| StartPos := Some goalPos; EndPos := Some goalPos;
       StartInput := step; EndInput := step; CIFrame := fr |}.

(** The body of [case step := <-solutionGen]; the flag is [true] when
    the body ends in [break IK] and [false] when it ends in
    [continue IK]. *)
Definition onCandidate (st : IKstate) (step : Inputs) : IKstate * bool :=
  let '(cPass, cScore, failName) := checkFromSeed step in
  if cPass then
    let '(endPass, _, failName) := checkAtGoal step in
    if endPass then
      if Float64.lt cScore (MinScore opts) && Float64.gt (MinScore opts) Float64.zero then
        (setSolutions st (FloatMap.assign FloatMap.empty cScore step), true)
      else
        let st := setSolutions st (FloatMap.assign (solutions st) cScore step) in
        (st, nSolutions <=? FloatMap.len (solutions st))
    else (countFailure st failName, false)
  else (countFailure st failName, false).

Inductive IKexit : Type :=
| StillPolling (st : IKstate)   (* the polls ran out, the loop goes on *)
| BreakIK (st : IKstate)        (* [break IK] *)
| ReturnErr (e : error).        (* [return nil, ctx.Err()] *)

Fixpoint IKloop (st : IKstate) (polls : list Poll) : IKexit :=
  match polls with
  | [] => StillPolling st
  | CtxDone e :: _ => ReturnErr e
  | Candidate step :: polls' =>
      let '(st, stop) := onCandidate st step in
      if stop then BreakIK st else IKloop st polls'
  | SolverDone :: _ => BreakIK st
  | Idle :: polls' => IKloop st polls'
  end.

(** The code after the loop. *)
Definition orderedSolutions (m : FloatMap.t Inputs) : list costNode :=
  map (fun key => newCostNode (default [] (FloatMap.get m key)) key)
      (sort_Float64s (FloatMap.keys m)).

Definition afterLoop (st : IKstate) : outcome (list costNode) :=
  if FloatMap.len (solutions st) =? 0 then
    if constraintFailCnt st =? 0 then Err errIKSolve
    else Err (genIKConstraintErr (failures st) (constraintFailCnt st))
  else Ok (orderedSolutions (solutions st)).
End Search.

(** [nSolutions] *)
Definition searchLimit (opts : plannerOptions) : Z :=
  if MaxSolutions opts =? 0 then defaultSolutionsToSeed else MaxSolutions opts.

(** The loop of a call whose seed transforms to [seedPos]. *)
Definition searchLoop (mp : planner) (opts : plannerOptions) (goal seedPos : Pose)
    (seed : Inputs) (polls : list Poll) : IKexit :=
  IKloop opts (frame mp) seedPos (fixOvIncrement goal seedPos) seed
    (searchLimit opts) IKinit polls.

(** [getSolutions] under a sequence of polls; [None] when the sequence
    ends while the loop is still polling.  The deferred [cancel()] and
    [<-ikErr] run after the result is fixed and do not change it. *)
Definition getSolutions (mp : planner) (goal : Pose) (seed : Inputs)
    (polls : list Poll) : option (outcome (list costNode)) :=
  match planOpts mp with
  | None => Some Panic
  | Some opts =>
      match Transform (frame mp) seed with
      | Panic => Some Panic
      | Err err => Some (Err err)
      | Ok seedPos =>
          match searchLoop mp opts goal seedPos seed polls with
          | StillPolling _ => None
          | ReturnErr e => Some (Err e)
          | BreakIK st => Some (afterLoop st)
          end
      end
  end.

(** *** Vocabulary of the properties of the search *)

Section SearchVocabulary.
Variable mp : planner.
Variable opts : plannerOptions.
Variables goal seedPos : Pose.
Variable seed : Inputs.

(** The loop executes its iteration number [i]: it is still polling
    after the first [i] polls. *)
Definition reached (polls : list Poll) (i : nat) : Prop :=
  exists st, searchLoop mp opts goal seedPos seed (take i polls) = StillPolling st.

(** The candidate passes both constraint checks, the first with score [c]. *)
Definition accepted (step : Inputs) (c : float64) : Prop :=
  exists n1 s2 n2,
    checkFromSeed opts (frame mp) seedPos (fixOvIncrement goal seedPos) seed step
      = (true, c, n1) /\
    checkAtGoal opts (frame mp) (fixOvIncrement goal seedPos) step = (true, s2, n2).

(** The name under which a candidate is rejected, if it is. *)
Definition rejection (step : Inputs) : option string :=
  let '(cPass, _, failName) :=
    checkFromSeed opts (frame mp) seedPos (fixOvIncrement goal seedPos) seed step in
  if cPass then
    let '(endPass, _, failName) :=
      checkAtGoal opts (frame mp) (fixOvIncrement goal seedPos) step in
    if endPass then None else Some failName
  else Some failName.

(** Iteration [i] receives candidate [step], which is accepted at cost [c]. *)
Definition found_at (polls : list Poll) (i : nat) (step : Inputs) (c : float64) : Prop :=
  polls !! i = Some (Candidate step) /\ reached polls i /\ accepted step c.

(** [step] is the last candidate the loop accepted at a cost [== c]. *)
Definition last_found (polls : list Poll) (step : Inputs) (c : float64) : Prop :=
  exists i, found_at polls i step c /\
    forall j step' c', (i < j)%nat -> found_at polls j step' c' ->
      Float64.eq c' c = false.

(** Every entry of the map is the last candidate, among the first [n]
    polls, that the loop accepted at a cost [==] to its key. *)
Definition entries_ok (polls : list Poll) (n : nat) (m : FloatMap.t Inputs) : Prop :=
  forall k v, In (k, v) m ->
    exists i, (i < n)%nat /\ found_at polls i v k /\
      forall j step' c', (i < j < n)%nat -> found_at polls j step' c' ->
        Float64.eq c' k = false.

(** The invariant of the loop before iteration [n]. *)
Definition search_inv (polls : list Poll) (n : nat) (st : IKstate) : Prop :=
  distinct_keys (FloatMap.keys (solutions st)) /\
  no_NaN (FloatMap.keys (solutions st)) /\
  entries_ok polls n (solutions st).

(** The early exit test of the loop body. *)
Definition good_enough (c : float64) : bool :=
  Float64.lt c (MinScore opts) && Float64.gt (MinScore opts) Float64.zero.
End SearchVocabulary.

(** The candidates among a sequence of polls. *)
Definition candidates (polls : list Poll) : list Inputs :=
  omap (fun p => match p with Candidate step => Some step | _ => None end) polls.

(** How many of the candidates a constraint name rejects. *)
Definition rejected_by (mp : planner) (opts : plannerOptions) (goal seedPos : Pose)
    (seed : Inputs) (name : string) (steps : list Inputs) : Z :=
  len (filter (fun step => rejection mp opts goal seedPos seed step = Some name) steps).

(** While the map is empty, every candidate received was rejected and the
    counters are the tally of the rejections. *)
Definition tally_ok (mp : planner) (opts : plannerOptions) (goal seedPos : Pose)
    (seed : Inputs) (polls : list Poll) (n : nat) (st : IKstate) : Prop :=
  solutions st = [] ->
  constraintFailCnt st = len (candidates (take n polls)) /\
  (forall step, In step (candidates (take n polls)) ->
     rejection mp opts goal seedPos seed step <> None) /\
  (forall name,
      failures st !! name =
        if rejected_by mp opts goal seedPos seed name (candidates (take n polls)) =? 0
        then None
        else Some (rejected_by mp opts goal seedPos seed name (candidates (take n polls)))).

End Planner.

Arguments Name {Pose} _.
Arguments Transform {Pose} _ _.
Arguments DoF {Pose} _.
Arguments StartPos {Pose} _.
Arguments EndPos {Pose} _.
Arguments StartInput {Pose} _.
Arguments EndInput {Pose} _.
Arguments CIFrame {Pose} _.
Arguments CheckConstraints {Pose} _ _.
Arguments CheckConstraintPath {Pose} _ _ _.
Arguments MaxSolutions {Pose} _.
Arguments MinScore {Pose} _.
Arguments SmoothIter {Pose} _.
Arguments Resolution {Pose} _.
Arguments frame {Pose} _.
Arguments randseed {Pose} _.
Arguments planOpts {Pose} _.
Arguments checkInputs {Pose} mp inputs.
Arguments checkPath {Pose} mp seedInputs target.
Arguments self_pair {Pose} fr position inputs.
Arguments smoothIteration {Pose} InterpolateInputs mp rs path.
Arguments smoothLoop {Pose} InterpolateInputs mp ctxDone n i rs path.
Arguments smoothPath {Pose} InterpolateInputs mp ctxDone path.
Arguments checkFromSeed {Pose} opts fr seedPos goalPos seed step.
Arguments checkAtGoal {Pose} opts fr goalPos step.
Arguments onCandidate {Pose} opts fr seedPos goalPos seed nSolutions st step.
Arguments IKloop {Pose} opts fr seedPos goalPos seed nSolutions st polls.
Arguments searchLimit {Pose} defaultSolutionsToSeed opts.
Arguments searchLoop {Pose} fixOvIncrement defaultSolutionsToSeed mp opts goal seedPos seed polls.
Arguments getSolutions {Pose} fixOvIncrement defaultSolutionsToSeed errIKSolve
  genIKConstraintErr mp goal seed polls.
Arguments reached {Pose} fixOvIncrement defaultSolutionsToSeed mp opts goal seedPos seed polls i.
Arguments accepted {Pose} fixOvIncrement mp opts goal seedPos seed step c.
Arguments rejection {Pose} fixOvIncrement mp opts goal seedPos seed step.
Arguments found_at {Pose} fixOvIncrement defaultSolutionsToSeed mp opts goal seedPos seed
  polls i step c.
Arguments good_enough {Pose} opts c.
Arguments tally_ok {Pose} fixOvIncrement mp opts goal seedPos seed polls n st.
Arguments rejected_by {Pose} fixOvIncrement mp opts goal seedPos seed name steps.
Arguments entries_ok {Pose} fixOvIncrement defaultSolutionsToSeed mp opts goal seedPos seed
  polls n m.
Arguments search_inv {Pose} fixOvIncrement defaultSolutionsToSeed mp opts goal seedPos seed
  polls n st.
Arguments last_found {Pose} fixOvIncrement defaultSolutionsToSeed mp opts goal seedPos seed
  polls step c.

(** ** The waypoint orchestrator ([motionPlanInternal] and its entry points) *)

(** The collaborators of the orchestrator, all outside src/: the frame
    system, the solver frame adapter, the plan manager and the wire encoding
    of the world state.  A method that mutates its receiver returns the new
    receiver. *)
Class Collaborators (Pose : Type) : Type := {
  FrameSystem : Type;
  WorldState : Type;
  WorldStatePb : Type;
  solverFrame : Type;
  planManager : Type;
  iface : Type;   (* the values of a [map[string]interface{}] *)
  NewEmptySimpleFrameSystem : string -> FrameSystem;
  fs_World : FrameSystem -> Frame Pose;
  fs_AddFrame : FrameSystem -> Frame Pose -> Frame Pose -> outcome FrameSystem;
  fs_Frame : FrameSystem -> string -> option (Frame Pose);
  fs_TracebackFrame : FrameSystem -> Frame Pose -> outcome (list (Frame Pose));
  NewFrameMissingError : string -> error;
  newSolverFrame :
    FrameSystem -> list (Frame Pose) -> string -> gmap string Inputs -> outcome solverFrame;
  sf_DoF : solverFrame -> list Limit;
  sf_mapToSlice : solverFrame -> gmap string Inputs -> outcome Inputs;
  sf_Transform : solverFrame -> Inputs -> outcome Pose;
  sf_sliceToMap : solverFrame -> Inputs -> gmap string Inputs;
  WorldStateToProtobuf : WorldState -> outcome WorldStatePb;
  newPlanManager : solverFrame -> FrameSystem -> Z -> outcome planManager;
  PlanSingleWaypoint :
    planManager -> gmap string Inputs -> Pose -> option WorldState ->
    gmap string iface -> outcome (list Inputs);
  FrameStepsFromRobotPath : string -> list (gmap string Inputs) -> outcome (list Inputs)
}.

Section Orchestrator.
Context {Pose : Type} `{C : Collaborators Pose}.

(** [frame.PoseInFrame]: a pose tagged with the name of its frame. *)
Record PoseInFrame : Type := NewPoseInFrame { Parent : string; PIFPose : Pose }.

(** [frame.World] *)
Definition World : string := "world".

(** The calls that construct and invoke the planner of a goal, in the
    order in which they are made. *)
Inductive Event : Type :=
| EvNewPlanManager (sf : solverFrame) (i : Z)
| EvPlanSingleWaypoint (i : Z) (seedMap : gmap string Inputs) (goal : Pose)
    (cfg : gmap string iface).

(** A computation that returns, fails or panics, and extends the record of
    planner calls. *)
Definition M (A : Type) : Type := list Event -> outcome A * list Event.

Definition ret {A : Type} (a : A) : M A := fun log => (Ok a, log).

Definition bind {A B : Type} (m : M A) (k : A -> M B) : M B := fun log =>
  match m log with
  | (Ok a, log') => k a log'
  | (Err e, log') => (Err e, log')
  | (Panic, log') => (Panic, log')
  end.

Definition lift {A : Type} (o : outcome A) : M A := fun log => (o, log).

Definition emit (e : Event) : M unit := fun log => (Ok tt, log ++ [e]).

Notation "x <~ m ;; k" := (bind m (fun x => k))
  (at level 100, m at next level, right associativity).

Definition errNoDestinations : error :=
  errors_New "no destinations passed to PlanWaypoints".
Definition errDifferentLengths : error :=
  errors_New "goals and motion configs had different lengths".
Definition errNoDoF : error :=
  errors_New "solver frame has no degrees of freedom, cannot perform inverse kinematics".

(** The choice of one option map per goal (the [if]/[switch] on
    [len(motionConfigs)]). *)
Definition selectOpts (goals : list PoseInFrame)
    (motionConfigs : list (gmap string iface)) : outcome (list (gmap string iface)) :=
  if negb (len motionConfigs =? len goals) then
    match len motionConfigs with
    | 0 => Ok (map (fun _ => ∅) goals)
    | 1 => cfg ← index motionConfigs 0; Ok (map (fun _ => cfg) goals)
    | _ => Err errDifferentLengths
    end
  else Ok motionConfigs.

Section Loop.
Variable fs : FrameSystem.
Variable solveFrameList : list (Frame Pose).
Variable worldState : option WorldState.
Variable opts : list (gmap string iface).

(** The body of [for i, goal := range goals] on the loop variables
    [steps] and [seedMap].  The encoded world state and the start pose are
    only logged; [opts[i]] is first read by the log call before the plan
    manager is made. *)
Definition planGoal (i : Z) (goal : PoseInFrame)
    (st : list (gmap string Inputs) * gmap string Inputs)
  : M (list (gmap string Inputs) * gmap string Inputs) :=
  let '(steps, seedMap) := st in
  sf <~ lift (newSolverFrame fs solveFrameList (Parent goal) seedMap) ;;
  if len (sf_DoF sf) =? 0 then lift (Err errNoDoF)
  else
    seed <~ lift (sf_mapToSlice sf seedMap) ;;
    startPose <~ lift (sf_Transform sf seed) ;;
    wsPb <~ lift (match worldState with
                  | Some ws => pb ← WorldStateToProtobuf ws; Ok (Some pb)
                  | None => Ok None
                  end) ;;
    cfg <~ lift (index opts i) ;;
    _ <~ emit (EvNewPlanManager sf i) ;;
    sfPlanner <~ lift (newPlanManager sf fs i) ;;
    _ <~ emit (EvPlanSingleWaypoint i seedMap (PIFPose goal) cfg) ;;
    resultSlices <~ lift (PlanSingleWaypoint sfPlanner seedMap (PIFPose goal) worldState cfg) ;;
    let stepMaps := map (sf_sliceToMap sf) resultSlices in
    ret (steps ++ stepMaps, default seedMap (last stepMaps)).

Fixpoint planGoals (i : Z) (goals : list PoseInFrame)
    (st : list (gmap string Inputs) * gmap string Inputs)
  : M (list (gmap string Inputs) * gmap string Inputs) :=
  match goals with
  | [] => ret st
  | goal :: goals' =>
      st <~ planGoal i goal st ;;
      planGoals (i + 1) goals' st
  end.
End Loop.

Definition motionPlanInternal (goals : list PoseInFrame) (f : Frame Pose)
    (seedMap : gmap string Inputs) (fs : FrameSystem)
    (worldState : option WorldState) (motionConfigs : list (gmap string iface))
  : M (list (gmap string Inputs)) :=
  if len goals =? 0 then lift (Err errNoDestinations)
  else
    match fs_Frame fs (Name f) with
    | None => lift (Err (NewFrameMissingError (Name f)))
    | Some solveFrame =>
        solveFrameList <~ lift (fs_TracebackFrame fs solveFrame) ;;
        opts <~ lift (selectOpts goals motionConfigs) ;;
        st <~ planGoals fs solveFrameList worldState opts 0 goals ([], seedMap) ;;
        ret (fst st)
    end.

Definition PlanMotion (dst : PoseInFrame) (f : Frame Pose)
    (seedMap : gmap string Inputs) (fs : FrameSystem)
    (worldState : option WorldState) (planningOpts : gmap string iface)
  : M (list (gmap string Inputs)) :=
  motionPlanInternal [dst] f seedMap fs worldState [planningOpts].


Definition PlanFrameMotion (dst : Pose) (f : Frame Pose) (seed : Inputs)
    (planningOpts : gmap string iface) : M (list Inputs) :=
  let fs := NewEmptySimpleFrameSystem "" in
  fs <~ lift (fs_AddFrame fs f (fs_World fs)) ;;
  let destination := NewPoseInFrame World dst in
  let seedMap : gmap string Inputs := {[ Name f := seed ]} in
  solutionMap <~ motionPlanInternal [destination] f seedMap fs None [planningOpts] ;;
  lift (FrameStepsFromRobotPath (Name f) solutionMap).

(** The goal index of a planner call, and the option map of an invocation. *)
Definition event_index (ev : Event) : Z :=
  match ev with
  | EvNewPlanManager _ i => i
  | EvPlanSingleWaypoint i _ _ _ => i
  end.

Definition event_uses (cfg : gmap string iface) (ev : Event) : Prop :=
  match ev with
  | EvNewPlanManager _ _ => True
  | EvPlanSingleWaypoint _ _ _ c => c = cfg
  end.

(** A planner call of goal [i] under the option maps [opts]: it carries the
    index [i] and, if it is an invocation, the option map [opts[i]]. *)
Definition call_of (opts : list (gmap string iface)) (i : Z) (ev : Event) : Prop :=
  event_index ev = i /\ forall cfg, index opts i = Ok cfg -> event_uses cfg ev.

End Orchestrator.

Arguments NewPoseInFrame {Pose} _ _.
Arguments Parent {Pose} _.
Arguments PIFPose {Pose} _.

(** ** Proof automation for float comparisons *)

Ltac cmp_cases :=
  repeat match goal with
    | |- context [Z.compare ?a ?b] => destruct (Z.compare_spec a b)
    | H : context [Z.compare ?a ?b] |- _ => destruct (Z.compare_spec a b)
    | |- context [Pos.compare_cont Eq ?a ?b] =>
        change (Pos.compare_cont Eq a b) with (Pos.compare a b);
        destruct (Pos.compare_spec a b)
    | H : context [Pos.compare_cont Eq ?a ?b] |- _ =>
        change (Pos.compare_cont Eq a b) with (Pos.compare a b) in H;
        destruct (Pos.compare_spec a b)
    end.

Ltac float_cases :=
  intros;
  unfold lt, gt, eq, SFltb, SFeqb, SFcompare, isNaN in *;
  repeat match goal with
    | x : float64 |- _ => destruct x as [[]|[]| |[] ? ?]
    end;
  simpl in *; try discriminate; try reflexivity; try tauto;
  cmp_cases; simpl in *; subst;
  try discriminate; try reflexivity; try tauto; try lia.

(** ** A concrete planner

    One instance of the declarations that are outside src/, on which the
    properties below are exercised: poses are configurations, the frame
    [arm] transforms a configuration to itself, and the constraint
    capabilities read the first joint value. *)

Module Scenario.

(** binary64 arithmetic *)
Definition fadd (x y : float64) : float64 := SFadd 53 1024 x y.
Definition fsub (x y : float64) : float64 := SFsub 53 1024 x y.
Definition fmul (x y : float64) : float64 := SFmul 53 1024 x y.

Definition Pose : Type := Inputs.

Definition fixOvIncrement (goal seedPos : Pose) : Pose := goal.

(** [from[i] + (to[i] - from[i]) * by] for every joint [i] of [from]. *)
Fixpoint InterpolateInputs (from to : Inputs) (by_ : float64) : Inputs :=
  match from, to with
  | j1 :: from', j2 :: to' =>
      {| Value := fadd (Value j1) (fmul (fsub (Value j2) (Value j1)) by_) |}
        :: InterpolateInputs from' to' by_
  | _, _ => []
  end.

Definition defaultSolutionsToSeed : Z := 50.

Definition errIKSolve : error :=
  errors_New "zero IK solutions produced, goal positions appears to be physically unreachable".

Definition genIKConstraintErr (failures : gmap string Z) (constraintFailCnt : Z) : error :=
  errors_New
    (String.concat ", " (map fst (map_to_list failures))
       ++ ": all IK solutions failed constraints").

Definition joint (v : float64) : Input := {| Value := v |}.

Definition value_of (q : Inputs) : float64 :=
  match q with
  | i :: _ => Value i
  | [] => Float64.zero
  end.

Definition arm : Frame Pose :=
  {| Name := "arm";
     Transform := fun q => Ok q;
     DoF := [ {| Min := Float64.zero; Max := Float64.f2 |} ] |}.

(** Accepts every configuration; the score is the end configuration's
    first joint value. *)
Definition check_any (ci : ConstraintInput Pose) : bool * float64 * string :=
  (true, value_of (EndInput ci), "").

(** As [check_any], but a score that is not a number fails. *)
Definition check_number (ci : ConstraintInput Pose) : bool * float64 * string :=
  (negb (Float64.isNaN (value_of (EndInput ci))), value_of (EndInput ci), "number").

(** The start configuration must lie below [1.0]; the score is the end
    configuration's first joint value. *)
Definition check_start (ci : ConstraintInput Pose) : bool * float64 * string :=
  (Float64.lt (value_of (StartInput ci)) Float64.f1, value_of (EndInput ci), "start").

Definition path_any (ci : ConstraintInput Pose) (resolution : float64) : bool * string :=
  (true, "").

Definition options (check : ConstraintInput Pose -> bool * float64 * string)
    (maxSolutions : Z) (minScore : float64) (smoothIter : Z) : plannerOptions Pose :=
  {| CheckConstraints := check;
     CheckConstraintPath := path_any;
     MaxSolutions := maxSolutions;
     MinScore := minScore;
     SmoothIter := smoothIter;
     Resolution := Float64.f1 |}.

Definition rand_of (draws : list Z) : Rand :=
  {| raw := fun i => nth i draws 0; pos := 0 |}.

Definition planner_of (opts : plannerOptions Pose) (draws : list Z) : planner Pose :=
  {| frame := arm; randseed := rand_of draws; planOpts := Some opts |}.

Definition seed0 : Inputs := [joint Float64.zero].
Definition goal0 : Pose := [joint Float64.f1].

(** Two candidates of cost [2.0] around one of cost [1.0]. *)
Definition polls_dup : list Poll :=
  [Candidate [joint Float64.f2; joint Float64.f0_25]; Idle;
   Candidate [joint Float64.f1];
   Candidate [joint Float64.f2; joint Float64.f0_75]; SolverDone].

Definition sols_dup : list costNode :=
  [newCostNode [joint Float64.f1] Float64.f1;
   newCostNode [joint Float64.f2; joint Float64.f0_75] Float64.f2].

(** Two candidates whose score is not a number. *)
Definition polls_NaN : list Poll :=
  [Candidate [joint Float64.NaN]; Candidate [joint Float64.NaN; joint Float64.f1];
   SolverDone].

Definition sols_NaN : list costNode :=
  [newCostNode [] Float64.NaN; newCostNode [] Float64.NaN].

(** The planners of the examples: no bound and no threshold; a threshold
    of [1.0]; at most two solutions; a start constraint under threshold
    [2.0] and under no threshold. *)
Definition mp_number : planner Pose := planner_of (options check_number 0 Float64.zero 0) [].
Definition mp_any : planner Pose := planner_of (options check_any 0 Float64.zero 0) [].
Definition opts_min1 : plannerOptions Pose := options check_any 0 Float64.f1 0.
Definition opts_max2 : plannerOptions Pose := options check_any 2 Float64.zero 0.
Definition opts_start_min2 : plannerOptions Pose := options check_start 0 Float64.f2 0.
Definition opts_start : plannerOptions Pose := options check_start 0 Float64.zero 0.

(** A candidate of cost [0.5] between one of cost [2.0] and one of cost [0.25]. *)
Definition polls_good : list Poll :=
  [Candidate [joint Float64.f2];
   Candidate [joint Float64.f0_5; joint Float64.f0_25];
   Candidate [joint Float64.f0_25]; SolverDone].

(** Three candidates of different cost. *)
Definition polls_three : list Poll :=
  [Candidate [joint Float64.f2]; Candidate [joint Float64.f1];
   Candidate [joint Float64.f0_5]; SolverDone].

Definition sols_two : list costNode :=
  [newCostNode [joint Float64.f1] Float64.f1; newCostNode [joint Float64.f2] Float64.f2].

(** One candidate at [1.0], the bound of [check_start]. *)
Definition polls_one : list Poll := [Candidate [joint Float64.f1]; SolverDone].

(** Two candidates that [check_start] rejects as start configurations. *)
Definition polls_rejected : list Poll :=
  [Candidate [joint Float64.f1]; Idle; Candidate [joint Float64.f2]; SolverDone;
   Candidate [joint Float64.f0_5]].

Definition st_rejected : IKstate :=
  {| solutions := []; failures := {[ "start" := 2 ]}; constraintFailCnt := 2 |}.

(** A path of four nodes and a generator whose draws select the edges 0
    and 1 and the fraction 0.5 on both. *)
Definition path4 : list node :=
  [basicNode [joint Float64.zero]; basicNode [joint Float64.f1];
   basicNode [joint Float64.f2]; basicNode [joint Float64.f1]].

Definition mp_smooth : planner Pose :=
  planner_of (options check_any 0 Float64.zero 1) [0; 0; 1; 1].

Definition never (i : nat) : bool := false.

Definition f1_5 : float64 := S754_finite false 6755399441055744 (-52).

Definition path4_smoothed : list node :=
  [basicNode [joint Float64.zero]; basicNode [joint Float64.f0_5];
   basicNode [joint f1_5]; basicNode [joint Float64.f2]; basicNode [joint Float64.f1]].

(** Collaborators of the orchestrator: a frame system is the list of its
    frames, the solver frame of a goal is the frame solved for, and the plan
    of a waypoint is the single step to the goal. *)
Definition world_frame : Frame Pose :=
  {| Name := "world"; Transform := fun _ => Ok []; DoF := [] |}.

(** A frame without joints. *)
Definition fixed : Frame Pose :=
  {| Name := "fixed"; Transform := fun _ => Ok []; DoF := [] |}.

Definition find_frame (fs : list (Frame Pose)) (name : string) : option (Frame Pose) :=
  List.find (fun f => String.eqb (Name f) name) fs.

#[local] Instance collaborators : Collaborators Pose := {|
  FrameSystem := list (Frame Pose);
  WorldState := unit;
  WorldStatePb := unit;
  solverFrame := Frame Pose;
  planManager := Z;
  iface := Z;
  NewEmptySimpleFrameSystem := fun _ => [];
  fs_World := fun _ => world_frame;
  fs_AddFrame := fun fs f parent => Ok (f :: fs);
  fs_Frame := find_frame;
  fs_TracebackFrame := fun fs f => Ok [f];
  NewFrameMissingError := fun name => errors_New ("frame missing: " ++ name);
  newSolverFrame := fun fs sfl parent seedMap =>
    match find_frame fs parent, sfl with
    | Some g, _ => Ok g
    | None, f :: _ => Ok f
    | None, [] => Err (errors_New "no frame to solve for")
    end;
  sf_DoF := fun sf => DoF sf;
  sf_mapToSlice := fun sf seedMap => Ok (default [] (seedMap !! Name sf));
  sf_Transform := fun sf q => Transform sf q;
  sf_sliceToMap := fun sf q => {[ Name sf := q ]};
  WorldStateToProtobuf := fun _ => Ok tt;
  newPlanManager := fun sf fs i => Ok i;
  PlanSingleWaypoint := fun pm seedMap goal ws cfg => Ok [goal];
  FrameStepsFromRobotPath := fun name steps => Ok (omap (fun m => m !! name) steps)
|}.

Definition arm_system : list (Frame Pose) := [arm; fixed].

(** Goals in the world frame are solved with the arm; a goal in the frame
    [fixed] is solved with the jointless frame. *)
Definition goal_arm : @PoseInFrame Pose := NewPoseInFrame "world" [joint Float64.f1].

Definition seedMap0 : gmap string Inputs := {[ "arm" := seed0 ]}.

Definition cfg1 : gmap string Z := {[ "max_ik_solutions" := 10 ]}.
Definition cfg2 : gmap string Z := {[ "max_ik_solutions" := 20 ]}.

(** The planner calls of a first and of a second goal in the world frame
    under [cfg1]. *)
Definition seedMap1 : gmap string Inputs := {[ "arm" := [joint Float64.f1] ]}.

Definition calls_first : list (@Event Pose collaborators) :=
  [EvNewPlanManager arm 0; EvPlanSingleWaypoint 0 seedMap0 [joint Float64.f1] cfg1].

Definition calls_second : list (@Event Pose collaborators) :=
  [EvNewPlanManager arm 1; EvPlanSingleWaypoint 1 seedMap1 [joint Float64.f1] cfg1].

End Scenario.

(** ** Vocabulary of the further properties *)

(** The planner with another smoothing budget. *)
Definition set_SmoothIter {Pose : Type} (mp : planner Pose) (k : Z) : planner Pose :=
  {| frame := frame mp;
     randseed := randseed mp;
     planOpts :=
       match planOpts mp with
       | None => None
       | Some opts =>
           Some {| CheckConstraints := CheckConstraints opts;
                   CheckConstraintPath := CheckConstraintPath opts;
                   MaxSolutions := MaxSolutions opts;
                   MinScore := MinScore opts;
                   SmoothIter := k;
                   Resolution := Resolution opts |}
       end |}.

(** A context that is never cancelled. *)
Definition never_done (i : nat) : bool := false.

(** A node of the input path, or a node made of an interpolated waypoint. *)
Definition kept_or_new (path : list node) (n : node) : Prop :=
  In n path \/ exists q, n = basicNode q.

Section OrchestratorVocabulary.
Context {Pose : Type} `{C : Collaborators Pose}.

(** No collaborator of the orchestrator panics. *)
Definition collaborators_never_panic : Prop :=
  (forall fs solveFrame, fs_TracebackFrame fs solveFrame <> Panic) /\
  (forall fs sfl parent seedMap, newSolverFrame fs sfl parent seedMap <> Panic) /\
  (forall sf seedMap, sf_mapToSlice sf seedMap <> Panic) /\
  (forall sf seed, sf_Transform sf seed <> Panic) /\
  (forall ws, WorldStateToProtobuf ws <> Panic) /\
  (forall sf fs i, newPlanManager sf fs i <> Panic) /\
  (forall pm seedMap goal ws cfg, PlanSingleWaypoint pm seedMap goal ws cfg <> Panic).

(** An invocation of the planner of goal [i] is made with [motionConfigs[i]]. *)
Definition event_uses_own (motionConfigs : list (gmap string iface)) (ev : Event) : Prop :=
  match ev with
  | EvNewPlanManager _ _ => True
  | EvPlanSingleWaypoint i _ _ c => index motionConfigs i = Ok c
  end.

(** The record of the planner calls of the goals [goals], the first of
    which has index [i]: for each goal in turn the construction of its
    planner, then its invocation on the pose of the goal. *)
Fixpoint goal_calls (i : Z) (goals : list PoseInFrame) (log : list Event) : Prop :=
  match goals with
  | [] => log = []
  | goal :: goals' =>
      exists sf seedMap cfg rest,
        log = EvNewPlanManager sf i
                :: EvPlanSingleWaypoint i seedMap (PIFPose goal) cfg :: rest /\
        goal_calls (i + 1) goals' rest
  end.

(** The record of at most one planner call, of index 0: nothing, the
    construction of the planner, or the construction and the invocation on
    the seed map, the pose and the option map given. *)
Definition single_call (seedMap : gmap string Inputs) (goal : Pose)
    (cfg : gmap string iface) (log : list Event) : Prop :=
  log = [] \/
  (exists sf, log = [EvNewPlanManager sf 0]) \/
  (exists sf, log = [EvNewPlanManager sf 0; EvPlanSingleWaypoint 0 seedMap goal cfg]).

End OrchestratorVocabulary.

(** [PlanRobotMotion]: the seed map is read from the robot
    ([framesystem.RobotFsCurrentInputs], outside src/). *)
Section RobotEntry.
Context {Pose : Type} `{C : Collaborators Pose}.
Variable Robot : Type.
Variable RobotFsCurrentInputs : Robot -> FrameSystem -> outcome (gmap string Inputs).

Definition PlanRobotMotion (dst : PoseInFrame) (f : Frame Pose) (r : Robot)
    (fs : FrameSystem) (worldState : option WorldState)
    (planningOpts : gmap string iface) : M (list (gmap string Inputs)) :=
  bind (lift (RobotFsCurrentInputs r fs)) (fun seedMap =>
  motionPlanInternal [dst] f seedMap fs worldState [planningOpts]).

End RobotEntry.

(** Further planners and contexts for the examples: a path check that
    rejects every segment, a budget of three smoothing iterations, and a
    context that is cancelled when iteration 1 polls it. *)
Module ScenarioX.
Import Scenario.

Definition path_none (ci : ConstraintInput Pose) (resolution : float64) : bool * string :=
  (false, "blocked").

Definition mp_blocked : planner Pose :=
  {| frame := arm;
     randseed := rand_of [0; 0; 1; 1];
     planOpts :=
       Some {| CheckConstraints := check_any;
               CheckConstraintPath := path_none;
               MaxSolutions := 0;
               MinScore := Float64.zero;
               SmoothIter := 3;
               Resolution := Float64.f1 |} |}.

Definition opts_smooth3 : plannerOptions Pose := options check_any 0 Float64.zero 3.

Definition mp_smooth3 : planner Pose := planner_of opts_smooth3 [0; 0; 1; 1].

Definition done_at_1 (i : nat) : bool := Nat.eqb i 1.

#[local] Existing Instance collaborators.

(** The planner calls of two goals in the world frame with one option map
    per goal, and with no option map. *)
Definition calls_second_own : list (@Event Pose collaborators) :=
  [EvNewPlanManager arm 1; EvPlanSingleWaypoint 1 seedMap1 [joint Float64.f1] cfg2].

Definition calls_default : list (@Event Pose collaborators) :=
  [EvNewPlanManager arm 0; EvPlanSingleWaypoint 0 seedMap0 [joint Float64.f1] ∅;
   EvNewPlanManager arm 1; EvPlanSingleWaypoint 1 seedMap1 [joint Float64.f1] ∅].

(** The inputs of a robot that holds them, and of one that cannot be read. *)
Definition current_inputs (r : option (gmap string Inputs)) (fs : list (Frame Pose))
  : outcome (gmap string Inputs) :=
  match r with
  | Some seedMap => Ok seedMap
  | None => Err (errors_New "robot has no inputs")
  end.

(** Collaborators none of which panics: a solver frame is the name of the
    frame solved for, with the joint of the arm. *)
#[local] Instance collaborators_safe : Collaborators Pose := {|
  FrameSystem := list (Frame Pose);
  WorldState := unit;
  WorldStatePb := unit;
  solverFrame := string;
  planManager := Z;
  iface := Z;
  NewEmptySimpleFrameSystem := fun _ => [];
  fs_World := fun _ => world_frame;
  fs_AddFrame := fun fs f parent => Ok (f :: fs);
  fs_Frame := find_frame;
  fs_TracebackFrame := fun fs f => Ok [f];
  NewFrameMissingError := fun name => errors_New ("frame missing: " ++ name);
  newSolverFrame := fun fs sfl parent seedMap =>
    match sfl with
    | f :: _ => Ok (Name f)
    | [] => Err (errors_New "no frame to solve for")
    end;
  sf_DoF := fun sf => DoF arm;
  sf_mapToSlice := fun sf seedMap => Ok (default [] (seedMap !! sf));
  sf_Transform := fun sf q => Ok q;
  sf_sliceToMap := fun sf q => {[ sf := q ]};
  WorldStateToProtobuf := fun _ => Ok tt;
  newPlanManager := fun sf fs i => Ok i;
  PlanSingleWaypoint := fun pm seedMap goal ws cfg => Ok [goal];
  FrameStepsFromRobotPath := fun name steps => Ok (omap (fun m => m !! name) steps)
|}.

End ScenarioX.

(** ** The example network service: its API (package networkapi) and its
    implementation (package network)

    The context argument of the methods is left out: no modelled method
    reads it.  A method that returns a value and an error has an [outcome]. *)

Module NetworkAPI.

Section API.

(** The generated protobuf messages that the package only passes on, and
    [time.Duration] with its protobuf form, are outside src/. *)
Variables pb_Interface pb_WifiNetwork pb_WifiConnectResponse : Type.
Variables Duration PbDuration : Type.

(** [durationpb.New], and [AsDuration], which accepts a nil receiver. *)
Variable durationpb_New : Duration -> PbDuration.
Variable AsDuration : option PbDuration -> Duration.

Record WifiConnectOptions : Type := {
  Interface : string;
  ConnectDuration : Duration;
  SSID : string;
  PSK : option string
}.

(** [type Network interface] *)
Record Network : Type := {
  GetInterface : string -> outcome pb_Interface;
  ListInterfaces : outcome (list pb_Interface);
  WifiScan : string -> Duration -> outcome (list pb_WifiNetwork);
  WifiConnect : WifiConnectOptions -> outcome pb_WifiConnectResponse;
  WifiConnectConfirm : string -> outcome unit
}.

(** The request and response messages; the fields of a message carry the
    initials of the message. *)
Record GetInterfaceRequest : Type :=
  { gi_Name : string; gi_InterfaceName : string }.
Record ListInterfacesRequest : Type := { li_Name : string }.
Record ListInterfacesResponse : Type := { Interfaces : list pb_Interface }.
Record WifiScanRequest : Type :=
  { ws_Name : string; ws_InterfaceName : string; ws_Duration : option PbDuration }.
Record WifiScanResponse : Type := { Networks : list pb_WifiNetwork }.
Record WifiConnectRequest : Type := {
  wc_Name : string;
  wc_InterfaceName : string;
  wc_ConnectTimeout : option PbDuration;
  wc_Ssid : string;
  wc_Psk : option string
}.
Record WifiConnectConfirmRequest : Type :=
  { wcc_Name : string; wcc_ConfirmationToken : string }.
Inductive WifiConnectConfirmResponse : Type := mkWifiConnectConfirmResponse.

(** [pb.NetworkServiceClient] and [pb.NetworkServiceServer]: the five
    calls of the service, on messages. *)
Record NetworkServiceClient : Type := {
  rpc_GetInterface : GetInterfaceRequest -> outcome pb_Interface;
  rpc_ListInterfaces : ListInterfacesRequest -> outcome ListInterfacesResponse;
  rpc_WifiScan : WifiScanRequest -> outcome WifiScanResponse;
  rpc_WifiConnect : WifiConnectRequest -> outcome pb_WifiConnectResponse;
  rpc_WifiConnectConfirm : WifiConnectConfirmRequest -> outcome WifiConnectConfirmResponse
}.

(** A resource of the subtype service: a value that is a [Network], or a
    value of another type. *)
Inductive resource : Type :=
| IsNetwork (g : Network)
| NotNetwork.

(** [subtypeServer]; [s.Resource(name)] is nil for [None]. *)
Record subtypeServer : Type := NewServer { s : string -> option resource }.

Definition errNoService (name : string) : error :=
  errors_New ("no network service with name (" ++ name ++ ")").
Definition errNotNetwork (name : string) : error :=
  errors_New ("resource with name (" ++ name ++ ") is not a Network").

Definition getMyService (srv : subtypeServer) (name : string) : outcome Network :=
  match s srv name with
  | None => Err (errNoService name)
  | Some (IsNetwork g) => Ok g
  | Some NotNetwork => Err (errNotNetwork name)
  end.

Definition server_GetInterface (srv : subtypeServer) (req : GetInterfaceRequest)
  : outcome pb_Interface :=
  g ← getMyService srv (gi_Name req);
  resp ← GetInterface g (gi_InterfaceName req);
  Ok resp.

Definition server_ListInterfaces (srv : subtypeServer) (req : ListInterfacesRequest)
  : outcome ListInterfacesResponse :=
  g ← getMyService srv (li_Name req);
  resp ← ListInterfaces g;
  Ok {| Interfaces := resp |}.

Definition server_WifiConnect (srv : subtypeServer) (req : WifiConnectRequest)
  : outcome pb_WifiConnectResponse :=
  g ← getMyService srv (wc_Name req);
  let opts := {| Interface := wc_InterfaceName req;
                 SSID := wc_Ssid req;
                 PSK := wc_Psk req;
                 ConnectDuration := AsDuration (wc_ConnectTimeout req) |} in
  WifiConnect g opts.

Definition server_WifiConnectConfirm (srv : subtypeServer)
    (req : WifiConnectConfirmRequest) : outcome WifiConnectConfirmResponse :=
  g ← getMyService srv (wcc_Name req);
  _ ← WifiConnectConfirm g (wcc_ConfirmationToken req);
  Ok mkWifiConnectConfirmResponse.

Definition server_WifiScan (srv : subtypeServer) (req : WifiScanRequest)
  : outcome WifiScanResponse :=
  g ← getMyService srv (ws_Name req);
  networks ← WifiScan g (ws_InterfaceName req) (AsDuration (ws_Duration req));
  Ok {| Networks := networks |}.

(** [client]: the generated client of the connection, and the name of the
    service it speaks to. *)
Record client : Type := { svc_client : NetworkServiceClient; name : string }.

Definition client_GetInterface (c : client) (interfaceName : string)
  : outcome pb_Interface :=
  resp ← rpc_GetInterface (svc_client c)
           {| gi_Name := name c; gi_InterfaceName := interfaceName |};
  Ok resp.

Definition client_ListInterfaces (c : client) : outcome (list pb_Interface) :=
  resp ← rpc_ListInterfaces (svc_client c) {| li_Name := name c |};
  Ok (Interfaces resp).

Definition client_WifiScan (c : client) (interfaceName : string) (duration : Duration)
  : outcome (list pb_WifiNetwork) :=
  resp ← rpc_WifiScan (svc_client c)
           {| ws_Name := name c;
              ws_InterfaceName := interfaceName;
              ws_Duration := Some (durationpb_New duration) |};
  Ok (Networks resp).

Definition client_WifiConnect (c : client) (opts : WifiConnectOptions)
  : outcome pb_WifiConnectResponse :=
  resp ← rpc_WifiConnect (svc_client c)
           {| wc_Name := name c;
              wc_InterfaceName := Interface opts;
              wc_ConnectTimeout := Some (durationpb_New (ConnectDuration opts));
              wc_Ssid := SSID opts;
              wc_Psk := PSK opts |};
  Ok resp.

Definition client_WifiConnectConfirm (c : client) (token : string) : outcome unit :=
  _ ← rpc_WifiConnectConfirm (svc_client c)
        {| wcc_Name := name c; wcc_ConfirmationToken := token |};
  Ok tt.

(** The client as a [Network]. *)
Definition clientFromSvcClient (sc : NetworkServiceClient) (name : string) : Network :=
  let c := {| svc_client := sc; name := name |} in
  {| GetInterface := client_GetInterface c;
     ListInterfaces := client_ListInterfaces c;
     WifiScan := client_WifiScan c;
     WifiConnect := client_WifiConnect c;
     WifiConnectConfirm := client_WifiConnectConfirm c |}.

(** A connection that hands every request to the handlers of a server
    and every response back. *)
Definition connected_to (srv : subtypeServer) : NetworkServiceClient :=
  {| rpc_GetInterface := server_GetInterface srv;
     rpc_ListInterfaces := server_ListInterfaces srv;
     rpc_WifiScan := server_WifiScan srv;
     rpc_WifiConnect := server_WifiConnect srv;
     rpc_WifiConnectConfirm := server_WifiConnectConfirm srv |}.

End API.

Arguments Interface {Duration} _.
Arguments ConnectDuration {Duration} _.
Arguments SSID {Duration} _.
Arguments PSK {Duration} _.
Arguments GetInterface {pb_Interface pb_WifiNetwork pb_WifiConnectResponse Duration} _ _.
Arguments ListInterfaces {pb_Interface pb_WifiNetwork pb_WifiConnectResponse Duration} _.
Arguments WifiScan {pb_Interface pb_WifiNetwork pb_WifiConnectResponse Duration} _ _ _.
Arguments WifiConnect {pb_Interface pb_WifiNetwork pb_WifiConnectResponse Duration} _ _.
Arguments WifiConnectConfirm {pb_Interface pb_WifiNetwork pb_WifiConnectResponse Duration}
  _ _.
Arguments IsNetwork {pb_Interface pb_WifiNetwork pb_WifiConnectResponse Duration} g.
Arguments NotNetwork {pb_Interface pb_WifiNetwork pb_WifiConnectResponse Duration}.
Arguments NewServer {pb_Interface pb_WifiNetwork pb_WifiConnectResponse Duration} s.
Arguments getMyService {pb_Interface pb_WifiNetwork pb_WifiConnectResponse Duration}
  srv name.
Arguments clientFromSvcClient
  {pb_Interface pb_WifiNetwork pb_WifiConnectResponse Duration PbDuration}
  durationpb_New sc name.
Arguments connected_to
  {pb_Interface pb_WifiNetwork pb_WifiConnectResponse Duration PbDuration}
  AsDuration srv.

End NetworkAPI.

Module NetworkService.

(** [v1.Interface] and [v1.Interface_Address] *)
Record Interface_Address : Type := { Network : string; Address : string }.
Record Interface : Type := {
  Name : string;
  Mtu : Z;
  HardwareAddress : string;
  Addresses : list Interface_Address
}.

(** [net.Addr] by its two methods, and [net.Interface] by the fields read
    ([HardwareAddr] by its [String()]). *)
Record net_Addr : Type := { addr_Network : string; addr_String : string }.
Record net_Interface : Type := {
  net_Name : string;
  net_MTU : Z;
  net_HardwareAddr : string
}.

Section OS.

(** What the operating system answers: [net.InterfaceByName],
    [net.Interfaces] and the method [Addrs] of a [net.Interface]. *)
Variable net_InterfaceByName : string -> outcome net_Interface.
Variable net_Interfaces : outcome (list net_Interface).
Variable Addrs : net_Interface -> outcome (list net_Addr).

(** The loop [for _, addr := range addrs] on [out.Addresses]. *)
Fixpoint appendAddresses (out : list Interface_Address) (addrs : list net_Addr)
  : list Interface_Address :=
  match addrs with
  | [] => out
  | addr :: addrs' =>
      appendAddresses
        (out ++ [{| Network := addr_Network addr; Address := addr_String addr |}]) addrs'
  end.

Definition interfaceToProto (iface : net_Interface) : outcome Interface :=
  addrs ← Addrs iface;
  Ok {| Name := net_Name iface;
        Mtu := net_MTU iface;
        HardwareAddress := net_HardwareAddr iface;
        Addresses := appendAddresses [] addrs |}.

Definition errNoInterfaceName : error := errors_New "must provide interface name".

Definition GetInterface (name : string) : outcome Interface :=
  if String.eqb name "" then Err errNoInterfaceName
  else
    iface ← net_InterfaceByName name;
    out ← interfaceToProto iface;
    Ok out.

(** The loop [for _, iface := range all] on [out]. *)
Fixpoint listLoop (out : list Interface) (all : list net_Interface)
  : outcome (list Interface) :=
  match all with
  | [] => Ok out
  | iface :: all' =>
      ifaceProto ← interfaceToProto iface;
      listLoop (out ++ [ifaceProto]) all'
  end.

Definition ListInterfaces : outcome (list Interface) :=
  all ← net_Interfaces;
  listLoop [] all.

End OS.

End NetworkService.

(** A named echo service behind a server, and two interfaces of which the
    second has no readable addresses. *)
Module ScenarioNet.

(** Durations in nanoseconds; the protobuf form holds seconds and the
    remaining nanoseconds. *)
Definition durationpb_New (d : Z) : Z * Z :=
  let secs := Z.quot d 1000000000 in (secs, d - secs * 1000000000).
Definition AsDuration (x : option (Z * Z)) : Z :=
  match x with
  | Some (secs, nanos) => secs * 1000000000 + nanos
  | None => 0
  end.

Definition echo : NetworkAPI.Network string string string Z :=
  {| NetworkAPI.GetInterface := fun i => Ok i;
     NetworkAPI.ListInterfaces := Ok ["eth0"; "wlan0"];
     NetworkAPI.WifiScan := fun i d => if d <? 0 then Err (errors_New "bad duration") else Ok [i];
     NetworkAPI.WifiConnect := fun o => Ok (NetworkAPI.SSID o);
     NetworkAPI.WifiConnectConfirm := fun t => Ok tt |}.

Definition resources (name : string) : option (NetworkAPI.resource string string string Z) :=
  if String.eqb name "net0" then Some (NetworkAPI.IsNetwork echo)
  else if String.eqb name "arm0" then Some NetworkAPI.NotNetwork
  else None.

Definition eth0 : NetworkService.net_Interface :=
  {| NetworkService.net_Name := "eth0";
     NetworkService.net_MTU := 1500;
     NetworkService.net_HardwareAddr := "00:00:5e:00:53:01" |}.
Definition wlan0 : NetworkService.net_Interface :=
  {| NetworkService.net_Name := "wlan0";
     NetworkService.net_MTU := 1500;
     NetworkService.net_HardwareAddr := "00:00:5e:00:53:02" |}.

Definition addrs_of (iface : NetworkService.net_Interface)
  : outcome (list NetworkService.net_Addr) :=
  Ok [{| NetworkService.addr_Network := "ip+net";
         NetworkService.addr_String := NetworkService.net_Name iface |}].

Definition by_name (name : string) : outcome NetworkService.net_Interface :=
  if String.eqb name "eth0" then Ok eth0
  else if String.eqb name "wlan0" then Ok wlan0
  else Err (errors_New "no such network interface").

Definition addrs_eth0_only (iface : NetworkService.net_Interface)
  : outcome (list NetworkService.net_Addr) :=
  if String.eqb (NetworkService.net_Name iface) "eth0" then addrs_of iface
  else Err (errors_New "route ip+net: no such network interface").

Definition eth0_proto : NetworkService.Interface :=
  {| NetworkService.Name := "eth0";
     NetworkService.Mtu := 1500;
     NetworkService.HardwareAddress := "00:00:5e:00:53:01";
     NetworkService.Addresses :=
       [{| NetworkService.Network := "ip+net"; NetworkService.Address := "eth0" |}] |}.
Definition wlan0_proto : NetworkService.Interface :=
  {| NetworkService.Name := "wlan0";
     NetworkService.Mtu := 1500;
     NetworkService.HardwareAddress := "00:00:5e:00:53:02";
     NetworkService.Addresses :=
       [{| NetworkService.Network := "ip+net"; NetworkService.Address := "wlan0" |}] |}.

End ScenarioNet.


(** * Properties *)

(** ** Indexing and slicing *)

Module SliceFacts.

Lemma index_total {A : Type} (l : list A) (i : Z) :
  0 <= i < len l -> exists x, index l i = Ok x.
Proof.
  unfold index, len. intros Hi. destruct (Z.leb_spec 0 i); [|lia].
  destruct (lookup_lt_is_Some_2 l (Z.to_nat i)) as [x ->]; [lia|]. eauto.
Qed.

Lemma slice_to_Ok {A : Type} (l : list A) (k : Z) :
  0 <= k <= len l -> slice_to l k = Ok (take (Z.to_nat k) l).
Proof.
  intros Hk. unfold slice_to.
  destruct (Z.leb_spec 0 k); [|lia]. destruct (Z.leb_spec k (len l)); [|lia]. reflexivity.
Qed.

Lemma slice_from_Ok {A : Type} (l : list A) (k : Z) :
  0 <= k <= len l -> slice_from l k = Ok (drop (Z.to_nat k) l).
Proof.
  intros Hk. unfold slice_from.
  destruct (Z.leb_spec 0 k); [|lia]. destruct (Z.leb_spec k (len l)); [|lia]. reflexivity.
Qed.

End SliceFacts.

Module Float64Facts.

Lemma lt_irrefl (x : float64) : lt x x = false.
Proof. float_cases. Qed.

Lemma lt_trans (x y z : float64) :
  lt x y = true -> lt y z = true -> lt x z = true.
Proof. float_cases. Qed.

Lemma lt_asym (x y : float64) : lt x y = true -> lt y x = false.
Proof. float_cases. Qed.

Lemma eq_refl_iff (x : float64) : eq x x = negb (isNaN x).
Proof. float_cases. Qed.

Lemma eq_sym (x y : float64) : eq x y = eq y x.
Proof. float_cases. Qed.

Lemma eq_trans (x y z : float64) :
  eq x y = true -> eq y z = true -> eq x z = true.
Proof. float_cases. Qed.

Lemma eq_not_lt (x y : float64) : eq x y = true -> lt x y = false.
Proof. float_cases. Qed.

Lemma lt_not_eq (x y : float64) : lt x y = true -> eq x y = false.
Proof. float_cases. Qed.

Lemma lt_eq_r (x y z : float64) :
  eq y z = true -> lt x y = lt x z.
Proof. float_cases. Qed.

Lemma lt_eq_l (x y z : float64) :
  eq x y = true -> lt x z = lt y z.
Proof. float_cases. Qed.

Lemma eq_not_NaN (x y : float64) :
  eq x y = true -> isNaN x = false /\ isNaN y = false.
Proof. float_cases. Qed.

Lemma lt_not_NaN (x y : float64) :
  lt x y = true -> isNaN x = false /\ isNaN y = false.
Proof. float_cases. Qed.

(** Away from NaN the comparisons are a total order up to [==]. *)
Lemma trichotomy (x y : float64) :
  isNaN x = false -> isNaN y = false ->
  lt x y = true \/ eq x y = true \/ lt y x = true.
Proof. float_cases. Qed.

End Float64Facts.

(** ** Facts about maps keyed by [float64] *)

Module FloatMapFacts.
Import Float64Facts.

Lemma eq_false_trans (k k' y : float64) :
  Float64.eq k' k = true -> Float64.eq k' y = false -> Float64.eq k y = false.
Proof.
  intros Hk Hy. destruct (Float64.eq k y) eqn:E; [|reflexivity].
  rewrite (eq_trans k' k y Hk E) in Hy. discriminate.
Qed.

Section Facts.
Context {V : Type}.
Implicit Types (m : FloatMap.t V) (k : float64) (v : V).

Lemma assign_length_le m k v :
  (length (FloatMap.assign m k v) <= S (length m))%nat.
Proof.
  induction m as [|[k' v'] m IH]; simpl; [lia|].
  destruct (Float64.eq k' k); simpl; lia.
Qed.

Lemma assign_length_pos m k v :
  (1 <= length (FloatMap.assign m k v))%nat.
Proof.
  destruct m as [|[k' v'] m]; simpl; [lia|].
  destruct (Float64.eq k' k); simpl; lia.
Qed.

Lemma assign_keys_In m k v k0 :
  In k0 (FloatMap.keys (FloatMap.assign m k v)) ->
  k0 = k \/ In k0 (FloatMap.keys m).
Proof.
  induction m as [|[k' v'] m IH]; simpl.
  - intros [<-|[]]. now left.
  - destruct (Float64.eq k' k); simpl.
    + intros [<-|H]; auto.
    + intros [<-|H]; auto. destruct (IH H); auto.
Qed.

Lemma In_keys m k v : In (k, v) m -> In k (FloatMap.keys m).
Proof. intros H. apply (in_map fst) in H. exact H. Qed.

(** Under distinct keys an assignment keeps exactly the entries whose key
    is not [==] to the assigned one. *)
Lemma assign_In m k v k0 v0 :
  distinct_keys (FloatMap.keys m) ->
  In (k0, v0) (FloatMap.assign m k v) ->
  (k0, v0) = (k, v) \/ (In (k0, v0) m /\ Float64.eq k0 k = false).
Proof.
  induction m as [|[k' v'] m IH]; simpl; intros Hd Hin.
  - destruct Hin as [<-|[]]. now left.
  - inversion Hd as [|? ? Htl Hhd]; subst.
    destruct (Float64.eq k' k) eqn:E; simpl in Hin.
    + destruct Hin as [<-|Hin]; [now left|]. right. split; [now right|].
      rewrite List.Forall_forall in Hhd.
      pose proof (Hhd k0 (In_keys _ _ _ Hin)) as Hk0.
      rewrite eq_sym. apply (eq_false_trans k k' k0); assumption.
    + destruct Hin as [Hin|Hin].
      * inversion Hin; subst. right. split; [now left|assumption].
      * destruct (IH Htl Hin) as [?|[? ?]]; [now left|]. right. split; [now right|assumption].
Qed.

Lemma assign_In_new m k v : In (k, v) (FloatMap.assign m k v).
Proof.
  induction m as [|[k' v'] m IH]; simpl; [now left|].
  destruct (Float64.eq k' k); simpl; auto.
Qed.

Lemma assign_distinct m k v :
  distinct_keys (FloatMap.keys m) ->
  distinct_keys (FloatMap.keys (FloatMap.assign m k v)).
Proof.
  unfold distinct_keys.
  induction m as [|[k' v'] m IH]; simpl; intros Hd.
  - repeat constructor.
  - inversion Hd as [|? ? Htl Hhd]; subst.
    destruct (Float64.eq k' k) eqn:E; simpl.
    + constructor; [assumption|].
      rewrite List.Forall_forall in *. intros y Hy.
      apply (eq_false_trans k k' y); auto.
    + constructor; [auto|].
      rewrite List.Forall_forall in *. intros y Hy.
      destruct (assign_keys_In _ _ _ _ Hy) as [->|Hy']; auto.
Qed.

Lemma assign_no_NaN m k v :
  Float64.isNaN k = false ->
  no_NaN (FloatMap.keys m) -> no_NaN (FloatMap.keys (FloatMap.assign m k v)).
Proof.
  unfold no_NaN. rewrite !List.Forall_forall. intros Hk Hm y Hy.
  destruct (assign_keys_In _ _ _ _ Hy) as [->|Hy']; auto.
Qed.

(** A lookup under a key of the map that is not NaN finds its entry. *)
Lemma get_In m k v :
  distinct_keys (FloatMap.keys m) -> Float64.isNaN k = false ->
  In (k, v) m -> FloatMap.get m k = Some v.
Proof.
  induction m as [|[k' v'] m IH]; simpl; intros Hd Hk Hin; [contradiction|].
  inversion Hd as [|? ? Htl Hhd]; subst.
  destruct Hin as [Hin|Hin].
  - inversion Hin; subst. rewrite eq_refl_iff, Hk. reflexivity.
  - rewrite List.Forall_forall in Hhd. rewrite (Hhd k (In_keys _ _ _ Hin)). auto.
Qed.

Lemma keys_In m k : In k (FloatMap.keys m) -> exists v, In (k, v) m.
Proof.
  unfold FloatMap.keys. rewrite in_map_iff. intros [[k' v] [<- H]]. eauto.
Qed.
End Facts.
End FloatMapFacts.

(** ** Facts about [sort.Float64s] *)

Module SortFacts.
Import Float64Facts FloatMapFacts.

Lemma insert_sorted_In x l y : In y (insert_sorted x l) <-> y = x \/ In y l.
Proof.
  induction l as [|z l IH]; simpl; [intuition|].
  destruct (Float64.less z x); simpl; rewrite ?IH; intuition.
Qed.

Lemma sort_In l y : In y (sort_Float64s l) <-> In y l.
Proof.
  induction l as [|x l IH]; simpl; [reflexivity|].
  rewrite insert_sorted_In, IH. intuition.
Qed.

Lemma insert_sorted_length x l : length (insert_sorted x l) = S (length l).
Proof.
  induction l as [|z l IH]; simpl; [reflexivity|].
  destruct (Float64.less z x); simpl; rewrite ?IH; reflexivity.
Qed.

Lemma sort_length l : length (sort_Float64s l) = length l.
Proof.
  induction l as [|x l IH]; simpl; [reflexivity|].
  rewrite insert_sorted_length, IH. reflexivity.
Qed.

Lemma less_lt x y :
  Float64.isNaN x = false -> Float64.less x y = Float64.lt x y.
Proof. unfold Float64.less. intros ->. simpl. apply orb_false_r. Qed.

Lemma insert_sorted_ascending x l :
  Float64.isNaN x = false -> no_NaN l ->
  Forall (fun y => Float64.eq x y = false) l ->
  ascending l -> ascending (insert_sorted x l).
Proof.
  unfold ascending, no_NaN. intros Hx.
  induction l as [|z l IH]; simpl; intros Hn Hd Hs.
  - repeat constructor.
  - inversion Hn as [|? ? Hz Hn']; subst.
    inversion Hd as [|? ? Hxz Hd']; subst.
    inversion Hs as [|? ? Hs' Hzl]; subst.
    rewrite less_lt by assumption.
    destruct (Float64.lt z x) eqn:E.
    + constructor; [auto|].
      rewrite List.Forall_forall in *. intros y Hy.
      apply (proj1 (insert_sorted_In _ _ _)) in Hy. destruct Hy as [->|Hy]; auto.
    + assert (Hlt : Float64.lt x z = true).
      { destruct (trichotomy x z Hx Hz) as [?|[?|?]]; congruence. }
      constructor; [constructor; assumption|].
      constructor; [assumption|].
      rewrite List.Forall_forall in *. intros y Hy.
      apply (lt_trans x z y); auto.
Qed.

(** Distinct keys without NaN come out strictly ascending. *)
Lemma sort_ascending l :
  no_NaN l -> distinct_keys l -> ascending (sort_Float64s l).
Proof.
  unfold no_NaN, distinct_keys.
  induction l as [|x l IH]; simpl; intros Hn Hd.
  - constructor.
  - inversion Hn as [|? ? Hx Hn']; subst. inversion Hd as [|? ? Hd' Hxl]; subst.
    apply insert_sorted_ascending.
    + assumption.
    + unfold no_NaN. rewrite List.Forall_forall in *. intros y Hy.
      apply (proj1 (sort_In _ _)) in Hy. auto.
    + rewrite List.Forall_forall in *. intros y Hy. apply (proj1 (sort_In _ _)) in Hy. auto.
    + apply IH; assumption.
Qed.

(** Two strictly ascending lists with the same elements are equal. *)
Lemma ascending_unique l1 l2 :
  ascending l1 -> ascending l2 -> Permutation l1 l2 -> l1 = l2.
Proof.
  unfold ascending. intros H1. revert l2.
  induction H1 as [|x1 l1 Hs1 IH Hx1]; intros l2 H2 Hp.
  - apply Permutation_nil in Hp. congruence.
  - destruct H2 as [|x2 l2 Hs2 Hx2].
    + apply Permutation_sym, Permutation_nil in Hp. discriminate.
    + assert (E : x1 = x2).
      { assert (In1 : In x1 (x2 :: l2)) by (eapply Permutation_in; [exact Hp|now left]).
        assert (In2 : In x2 (x1 :: l1)).
        { eapply Permutation_in; [apply Permutation_sym; exact Hp|now left]. }
        destruct In1 as [->|In1]; [reflexivity|].
        destruct In2 as [->|In2]; [reflexivity|].
        rewrite List.Forall_forall in Hx1, Hx2.
        pose proof (Hx1 _ In2) as A. pose proof (Hx2 _ In1) as B.
        rewrite (lt_asym _ _ A) in B. discriminate. }
      subst x2. f_equal. apply IH; [assumption|].
      eapply Permutation_cons_inv. exact Hp.
Qed.

Lemma insert_sorted_Permutation x l : Permutation (insert_sorted x l) (x :: l).
Proof.
  induction l as [|y l IH]; simpl; [reflexivity|].
  destruct (Float64.less y x); [|reflexivity].
  rewrite IH. apply perm_swap.
Qed.

Lemma sort_Permutation l : Permutation (sort_Float64s l) l.
Proof.
  induction l as [|x l IH]; simpl; [reflexivity|].
  rewrite insert_sorted_Permutation, IH. reflexivity.
Qed.

Lemma distinct_keys_Permutation l1 l2 :
  Permutation l1 l2 -> distinct_keys l1 -> distinct_keys l2.
Proof.
  unfold distinct_keys. induction 1 as [|x l1 l2 Hp IH|x y l|l1 l2 l3 Hp1 IH1 Hp2 IH2]; intros Hd.
  - constructor.
  - inversion Hd as [|? ? Hs Hx]; subst. constructor; [auto|].
    rewrite List.Forall_forall in *. intros z Hz. apply Hx.
    eapply Permutation_in; [apply Permutation_sym; exact Hp|exact Hz].
  - inversion Hd as [|? ? Hs Hy]; subst. inversion Hs as [|? ? Hs' Hx]; subst.
    inversion Hy as [|? ? Hyx Hyl]; subst.
    constructor; [constructor; assumption|].
    constructor; [rewrite eq_sym; assumption|assumption].
  - auto.
Qed.

(** The order in which the keys of the map are visited does not matter to
    the sorted result. *)
Lemma sort_order_irrelevant l1 l2 :
  no_NaN l1 -> distinct_keys l1 -> Permutation l1 l2 ->
  sort_Float64s l1 = sort_Float64s l2.
Proof.
  intros Hn Hd Hp. apply ascending_unique.
  - apply sort_ascending; assumption.
  - apply sort_ascending.
    + unfold no_NaN in *. rewrite List.Forall_forall in *. intros y Hy. apply Hn.
      eapply Permutation_in; [apply Permutation_sym; exact Hp|exact Hy].
    + eapply distinct_keys_Permutation; eassumption.
  - rewrite !sort_Permutation. exact Hp.
Qed.

End SortFacts.

(** ** The search loop of [getSolutions] *)

Module SearchFacts.
Import Float64Facts FloatMapFacts SortFacts.

Lemma orderedSolutions_length (m : FloatMap.t Inputs) :
  length (orderedSolutions m) = length m.
Proof.
  unfold orderedSolutions, FloatMap.keys.
  rewrite length_map, sort_length, length_map. reflexivity.
Qed.

Lemma StronglySorted_map {A B : Type} (f : A -> B) (R : B -> B -> Prop) (l : list A) :
  StronglySorted (fun x y => R (f x) (f y)) l -> StronglySorted R (map f l).
Proof.
  induction 1 as [|x l Hs IH Hx]; simpl; constructor; [assumption|].
  rewrite List.Forall_forall in *. intros y Hy.
  apply in_map_iff in Hy. destruct Hy as (z & <- & Hz). auto.
Qed.

Lemma StronglySorted_lookup {A : Type} (R : A -> A -> Prop) (l : list A) :
  StronglySorted R l ->
  forall i j a b, (i < j)%nat -> l !! i = Some a -> l !! j = Some b -> R a b.
Proof.
  induction 1 as [|x l Hs IH Hx]; intros i j a b Hij Ha Hb; [destruct i; discriminate|].
  destruct j as [|j]; [lia|]. simpl in Hb.
  destruct i as [|i]; simpl in Ha.
  - injection Ha as <-. rewrite List.Forall_forall in Hx. apply Hx.
    apply list_elem_of_In. eapply list_elem_of_lookup_2. eassumption.
  - apply (IH i j); auto. lia.
Qed.

Lemma orderedSolutions_ascending (m : FloatMap.t Inputs) :
  distinct_keys (FloatMap.keys m) -> no_NaN (FloatMap.keys m) ->
  cost_ascending (orderedSolutions m).
Proof.
  intros Hd Hn. unfold cost_ascending, orderedSolutions.
  apply StronglySorted_map. simpl. exact (sort_ascending _ Hn Hd).
Qed.

(** The nodes returned are the entries of the map. *)
Lemma orderedSolutions_In (m : FloatMap.t Inputs) (n : costNode) :
  distinct_keys (FloatMap.keys m) -> no_NaN (FloatMap.keys m) ->
  In n (orderedSolutions m) -> In (cost n, cn_q n) m.
Proof.
  intros Hd Hn. unfold orderedSolutions. rewrite in_map_iff.
  intros (key & <- & Hk). apply (proj1 (sort_In _ _)) in Hk. simpl.
  destruct (keys_In _ _ Hk) as [v Hv].
  unfold no_NaN in Hn. rewrite List.Forall_forall in Hn.
  rewrite (get_In m key v Hd (Hn _ Hk) Hv). exact Hv.
Qed.

Section Search.
Context {Pose : Type}.
Variable fixOvIncrement : Pose -> Pose -> Pose.
Variable defaultSolutionsToSeed : Z.
Variable errIKSolve : error.
Variable genIKConstraintErr : gmap string Z -> Z -> error.
Variable mp : planner Pose.
Variable opts : plannerOptions Pose.
Variables goal seedPos : Pose.
Variable seed : Inputs.

Local Abbreviation goalPos := (fixOvIncrement goal seedPos).
Local Abbreviation limit := (searchLimit defaultSolutionsToSeed opts).
Local Abbreviation body := (onCandidate opts (frame mp) seedPos goalPos seed limit).
Local Abbreviation loop := (IKloop opts (frame mp) seedPos goalPos seed limit).
Local Abbreviation Reached := (reached fixOvIncrement defaultSolutionsToSeed mp opts goal seedPos seed).
Local Abbreviation Accepted := (accepted fixOvIncrement mp opts goal seedPos seed).
Local Abbreviation Rejection := (rejection fixOvIncrement mp opts goal seedPos seed).
Local Abbreviation FoundAt := (found_at fixOvIncrement defaultSolutionsToSeed mp opts goal seedPos seed).
Local Abbreviation GoodEnough := (good_enough opts).
Local Abbreviation EntriesOK := (entries_ok fixOvIncrement defaultSolutionsToSeed mp opts goal seedPos seed).
Local Abbreviation Inv := (search_inv fixOvIncrement defaultSolutionsToSeed mp opts goal seedPos seed).
Local Abbreviation RejectedBy := (rejected_by fixOvIncrement mp opts goal seedPos seed).
Local Abbreviation TallyOK := (tally_ok fixOvIncrement mp opts goal seedPos seed).
Local Abbreviation LastFound := (last_found fixOvIncrement defaultSolutionsToSeed mp opts goal seedPos seed).

Lemma accepted_fun step c c' : Accepted step c -> Accepted step c' -> c = c'.
Proof.
  intros (n1 & s2 & n2 & H1 & _) (n1' & s2' & n2' & H1' & _). congruence.
Qed.

Lemma accepted_not_rejected step c : Accepted step c -> Rejection step = None.
Proof.
  intros (n1 & s2 & n2 & H1 & H2). unfold rejection. rewrite H1, H2. reflexivity.
Qed.

(** The three ways through the loop body. *)
Lemma body_cases st step :
  (exists name, Rejection step = Some name /\ body st step = (countFailure st name, false))
  \/ (exists c, Accepted step c /\ GoodEnough c = true /\
        body st step = (setSolutions st (FloatMap.assign FloatMap.empty c step), true))
  \/ (exists c, Accepted step c /\ GoodEnough c = false /\
        body st step =
          (setSolutions st (FloatMap.assign (solutions st) c step),
           limit <=? FloatMap.len (FloatMap.assign (solutions st) c step))).
Proof.
  unfold onCandidate, rejection, accepted, good_enough.
  destruct (checkFromSeed _ _ _ _ _ step) as [[cPass cScore] failName] eqn:E1.
  destruct cPass.
  - destruct (checkAtGoal _ _ _ step) as [[endPass s2] failName2] eqn:E2.
    destruct endPass.
    + destruct (Float64.lt cScore (MinScore opts) && Float64.gt (MinScore opts) Float64.zero) eqn:G.
      * right. left. exists cScore. repeat split; eauto.
      * right. right. exists cScore. repeat split; eauto.
    + left. eauto.
  - left. eauto.
Qed.

Lemma loop_app st a b :
  loop st (a ++ b) =
    match loop st a with
    | StillPolling st' => loop st' b
    | r => r
    end.
Proof.
  revert st. induction a as [|p a IH]; intros st; simpl; [reflexivity|].
  destruct p; try reflexivity; [|apply IH].
  destruct (body st step) as [st' []]; [reflexivity|apply IH].
Qed.

Lemma loop_take_S st0 polls n p :
  polls !! n = Some p ->
  loop st0 (take (S n) polls) =
    match loop st0 (take n polls) with
    | StillPolling st => loop st [p]
    | r => r
    end.
Proof. intros H. rewrite (take_S_r _ _ _ H). apply loop_app. Qed.

(** Once the loop has left, no later iteration is executed. *)
Lemma loop_left st0 polls n :
  (forall st, loop st0 (take n polls) <> StillPolling st) ->
  forall j, (n <= j)%nat -> forall st, loop st0 (take j polls) <> StillPolling st.
Proof.
  intros Hn j Hj st.
  rewrite <- (take_drop n (take j polls)), take_take, Nat.min_l by lia.
  rewrite loop_app.
  destruct (loop st0 (take n polls)) eqn:E; try discriminate.
  exfalso. eapply Hn. reflexivity.
Qed.

(** The loop leaves by [break IK] at a definite iteration: on the
    completion signal, or on a candidate whose body breaks. *)
Lemma loop_break_inv st0 polls st :
  loop st0 polls = BreakIK st ->
  exists n p st1,
    polls !! n = Some p /\ loop st0 (take n polls) = StillPolling st1 /\
    ((p = SolverDone /\ st = st1) \/
     (exists step, p = Candidate step /\ body st1 step = (st, true))).
Proof.
  revert st0. induction polls as [|p polls IH]; intros st0; simpl; [discriminate|].
  destruct p as [e|step| |].
  - discriminate.
  - destruct (body st0 step) as [st' stop] eqn:E. destruct stop.
    + intros [= <-]. exists 0%nat, (Candidate step), st0. simpl. eauto 6.
    + intros H. destruct (IH _ H) as (n & p & st1 & Hp & Hl & Hc).
      exists (S n), p, st1. simpl. rewrite E. auto.
  - intros [= <-]. exists 0%nat, SolverDone, st0. simpl. auto.
  - intros H. destruct (IH _ H) as (n & p & st1 & Hp & Hl & Hc).
    exists (S n), p, st1. simpl. auto.
Qed.

(** Induction over the iterations the loop executes. *)
Lemma loop_invariant (P : nat -> IKstate -> Prop) polls :
  P 0%nat IKinit ->
  (forall n st step st',
      polls !! n = Some (Candidate step) ->
      loop IKinit (take n polls) = StillPolling st -> P n st ->
      body st step = (st', false) -> P (S n) st') ->
  (forall n st,
      polls !! n = Some Idle ->
      loop IKinit (take n polls) = StillPolling st -> P n st -> P (S n) st) ->
  forall n st, (n <= length polls)%nat ->
    loop IKinit (take n polls) = StillPolling st -> P n st.
Proof.
  intros H0 Hc Hi. induction n as [|n IH]; intros st Hn.
  - simpl. intros [= <-]. exact H0.
  - destruct (lookup_lt_is_Some_2 polls n) as [p Hp]; [lia|].
    rewrite (loop_take_S _ _ _ _ Hp).
    destruct (loop IKinit (take n polls)) as [st1| |] eqn:E; try discriminate.
    specialize (IH st1 ltac:(lia) Logic.eq_refl).
    destruct p as [e|step| |]; simpl.
    + discriminate.
    + destruct (body st1 step) as [st' stop] eqn:Eb. destruct stop; [discriminate|].
      intros [= <-]. eapply Hc; eauto.
    + discriminate.
    + intros [= <-]. eapply Hi; eauto.
Qed.

Variable polls : list Poll.

Lemma found_at_step n step step' c :
  polls !! n = Some (Candidate step) -> FoundAt polls n step' c ->
  step' = step /\ Accepted step c.
Proof.
  intros Hp (Hp' & _ & Ha). rewrite Hp in Hp'. injection Hp' as <-. auto.
Qed.

Lemma entries_ok_skip n m :
  (forall step c, ~ FoundAt polls n step c) -> EntriesOK polls n m -> EntriesOK polls (S n) m.
Proof.
  intros Hno He k v Hin. destruct (He k v Hin) as (i & Hi & Hf & Hlast).
  exists i. split; [lia|]. split; [assumption|].
  intros j step' c' Hj Hfj. destruct (decide (j = n)) as [->|Hne].
  - exfalso. eapply Hno. eassumption.
  - apply (Hlast j step' c'); [lia|assumption].
Qed.

Section Invariant.
Hypothesis found_no_NaN :
  forall i step c, FoundAt polls i step c -> Float64.isNaN c = false.

Lemma inv_init : Inv polls 0 IKinit.
Proof.
  repeat split; simpl; try constructor. intros k v [].
Qed.

(** The loop body keeps the invariant, whichever way it ends. *)
Lemma inv_body n st step st' stop :
  polls !! n = Some (Candidate step) -> Reached polls n -> Inv polls n st ->
  body st step = (st', stop) -> Inv polls (S n) st'.
Proof.
  intros Hp Hr (Hd & Hn & He) Hb.
  destruct (body_cases st step) as [(name & Hrej & Hb')|[(c & Ha & Hg & Hb')|(c & Ha & Hg & Hb')]];
    rewrite Hb' in Hb; injection Hb as <- <-; simpl.
  - repeat split; try assumption. simpl.
    apply entries_ok_skip; [|assumption].
    intros step' c Hf. destruct (found_at_step _ _ _ _ Hp Hf) as [_ Ha].
    rewrite (accepted_not_rejected _ _ Ha) in Hrej. discriminate.
  - assert (Hfn : FoundAt polls n step c) by (repeat split; assumption).
    repeat split; simpl.
    + repeat constructor.
    + repeat constructor. eauto.
    + intros k v [[= <- <-]|[]]. exists n. split; [lia|]. split.
      * repeat split; assumption.
      * intros j ? ? Hj. lia.
  - assert (Hfn : FoundAt polls n step c) by (repeat split; assumption).
    repeat split; simpl.
    + apply assign_distinct. assumption.
    + apply assign_no_NaN; eauto.
    + intros k v Hin. destruct (assign_In _ _ _ _ _ Hd Hin) as [[= -> ->]|[Hin' Hne]].
      * exists n. split; [lia|]. split; [repeat split; assumption|].
        intros j ? ? Hj. lia.
      * destruct (He k v Hin') as (i & Hi & Hf & Hlast).
        exists i. split; [lia|]. split; [assumption|].
        intros j step' c' Hj Hfj. destruct (decide (j = n)) as [->|Hjn].
        -- destruct (found_at_step _ _ _ _ Hp Hfj) as [_ Ha'].
           rewrite (accepted_fun _ _ _ Ha' Ha), eq_sym. assumption.
        -- apply (Hlast j step' c'); [lia|assumption].
Qed.

Lemma inv_other n st p :
  polls !! n = Some p -> (forall step, p <> Candidate step) ->
  Inv polls n st -> Inv polls (S n) st.
Proof.
  intros Hp Hne (Hd & Hn & He). repeat split; try assumption.
  apply entries_ok_skip; [|assumption].
  intros step c (Hp' & _). rewrite Hp in Hp'. injection Hp' as ->. eapply Hne. reflexivity.
Qed.

Lemma inv_reached n st :
  (n <= length polls)%nat ->
  loop IKinit (take n polls) = StillPolling st -> Inv polls n st.
Proof.
  apply (loop_invariant (fun n st => Inv polls n st)).
  - apply inv_init.
  - intros k st0 step st' Hp Hl Hi Hb.
    eapply inv_body; eauto; exists st0; exact Hl.
  - intros k st0 Hp Hl Hi. eapply inv_other; eauto; discriminate.
Qed.

(** When the loop leaves by [break IK], the invariant holds of all the
    iterations it executed, and it executes no further one. *)
Lemma inv_break st :
  loop IKinit polls = BreakIK st ->
  exists N, Inv polls N st /\ forall j, (N <= j)%nat -> ~ Reached polls j.
Proof.
  intros Hl. destruct (loop_break_inv _ _ _ Hl) as (n & p & st1 & Hp & Hl1 & Hc).
  assert (Hn : (n <= length polls)%nat).
  { apply lookup_lt_Some in Hp. lia. }
  pose proof (inv_reached n st1 Hn Hl1) as Hi.
  exists (S n). split.
  - destruct Hc as [[-> ->]|(step & -> & Hb)].
    + eapply inv_other; eauto; discriminate.
    + eapply inv_body; eauto; exists st1; exact Hl1.
  - intros j Hj [stj Hr]. revert Hr. apply loop_left with (n := S n); [|assumption].
    intros st2. rewrite (loop_take_S _ _ _ _ Hp), Hl1.
    destruct Hc as [[-> ->]|(step & -> & Hb)]; simpl; [discriminate|].
    rewrite Hb. discriminate.
Qed.

Lemma entries_last_found N m :
  EntriesOK polls N m -> (forall j, (N <= j)%nat -> ~ Reached polls j) ->
  forall k v, In (k, v) m -> LastFound polls v k.
Proof.
  intros He Hno k v Hin. destruct (He k v Hin) as (i & Hi & Hf & Hlast).
  exists i. split; [assumption|].
  intros j step' c' Hj Hfj. destruct (le_lt_dec N j) as [Hge|Hlt].
  - exfalso. destruct Hfj as (_ & Hr & _). exact (Hno j Hge Hr).
  - apply (Hlast j step' c'); [lia|assumption].
Qed.

End Invariant.

(** What a successful call returns. *)
Lemma getSolutions_Ok_inv sols :
  planOpts mp = Some opts -> Transform (frame mp) seed = Ok seedPos ->
  getSolutions fixOvIncrement defaultSolutionsToSeed errIKSolve genIKConstraintErr
    mp goal seed polls = Some (Ok sols) ->
  exists st, loop IKinit polls = BreakIK st /\ solutions st <> [] /\
    sols = orderedSolutions (solutions st).
Proof.
  intros Ho Ht. unfold getSolutions, searchLoop. rewrite Ho, Ht.
  destruct (loop IKinit polls) as [st|st|e]; try discriminate.
  unfold afterLoop, FloatMap.len. intros [= H]. exists st. split; [reflexivity|].
  destruct (solutions st) as [|kv m] eqn:E; simpl in H.
  - destruct (constraintFailCnt st =? 0); discriminate.
  - split; [discriminate|]. injection H as <-. reflexivity.
Qed.

Lemma sorted_last_wins sols :
  planOpts mp = Some opts -> Transform (frame mp) seed = Ok seedPos ->
  (forall i step c, FoundAt polls i step c -> Float64.isNaN c = false) ->
  getSolutions fixOvIncrement defaultSolutionsToSeed errIKSolve genIKConstraintErr
    mp goal seed polls = Some (Ok sols) ->
  sols <> [] /\ cost_ascending sols /\
  forall n, In n sols -> LastFound polls (cn_q n) (cost n).
Proof.
  intros Ho Ht HnoNaN Hg.
  destruct (getSolutions_Ok_inv sols Ho Ht Hg) as (st & Hl & Hne & ->).
  destruct (inv_break HnoNaN st Hl) as (N & (Hd & Hn & He) & Hleft).
  split; [|split].
  - intros E. apply (f_equal (@length _)) in E.
    rewrite orderedSolutions_length in E. destruct (solutions st); [congruence|discriminate].
  - apply orderedSolutions_ascending; assumption.
  - intros n Hin. apply (entries_last_found N (solutions st) He Hleft).
    apply orderedSolutions_In; assumption.
Qed.

(** A lone entry under a key that is a number. *)
Lemma orderedSolutions_singleton (c : float64) (step : Inputs) :
  Float64.isNaN c = false ->
  orderedSolutions [(c, step)] = [newCostNode step c].
Proof.
  intros Hc. unfold orderedSolutions. simpl. rewrite eq_refl_iff, Hc. reflexivity.
Qed.

Lemma polls_split i p :
  polls !! i = Some p -> polls = take i polls ++ p :: drop (S i) polls.
Proof. intros H. symmetry. apply take_drop_middle. exact H. Qed.

(** The early exit on a good enough candidate. *)
Lemma minScore_exit i step c :
  planOpts mp = Some opts -> Transform (frame mp) seed = Ok seedPos ->
  Float64.gt (MinScore opts) Float64.zero = true ->
  polls !! i = Some (Candidate step) -> Reached polls i -> Accepted step c ->
  Float64.lt c (MinScore opts) = true ->
  getSolutions fixOvIncrement defaultSolutionsToSeed errIKSolve genIKConstraintErr
    mp goal seed polls = Some (Ok [newCostNode step c]).
Proof.
  intros Ho Ht Hmin Hp [st Hr] Ha Hlt.
  unfold getSolutions, searchLoop. rewrite Ho, Ht.
  unfold reached, searchLoop in Hr.
  rewrite (polls_split i _ Hp), loop_app, Hr. simpl.
  destruct (body_cases st step) as [(name & Hrej & _)|[(c' & Ha' & Hg & Hb)|(c' & Ha' & Hg & _)]].
  - rewrite (accepted_not_rejected _ _ Ha) in Hrej. discriminate.
  - rewrite Hb. rewrite (accepted_fun _ _ _ Ha' Ha). unfold afterLoop. simpl.
    rewrite orderedSolutions_singleton; [reflexivity|].
    apply (lt_not_NaN _ _ Hlt).
  - rewrite (accepted_fun _ _ _ Ha' Ha) in Hg. unfold good_enough in Hg.
    rewrite Hlt, Hmin in Hg. discriminate.
Qed.

(** The loop polls only while it holds fewer entries than the limit. *)
Lemma limit_polling i st :
  0 < limit -> loop IKinit (take i polls) = StillPolling st ->
  FloatMap.len (solutions st) < limit.
Proof.
  intros Hpos.
  assert (G : forall n st, (n <= length polls)%nat ->
                loop IKinit (take n polls) = StillPolling st ->
                FloatMap.len (solutions st) < limit).
  { apply (loop_invariant (fun _ st => FloatMap.len (solutions st) < limit)).
    - simpl. unfold FloatMap.len. simpl. lia.
    - intros n st0 step st' _ _ IH Hb.
      destruct (body_cases st0 step) as [(name & _ & Hb')|[(c & _ & _ & Hb')|(c & _ & _ & Hb')]];
        rewrite Hb' in Hb.
      + injection Hb as <-. exact IH.
      + discriminate Hb.
      + injection Hb as <- Hstop. simpl. apply Z.leb_gt. exact Hstop.
    - auto. }
  destruct (le_lt_dec i (length polls)) as [Hle|Hgt].
  - apply G. assumption.
  - rewrite take_ge by lia. rewrite <- (take_ge polls (length polls)) at 1 by lia.
    apply G. lia.
Qed.

Lemma limit_result sols :
  planOpts mp = Some opts -> Transform (frame mp) seed = Ok seedPos ->
  0 < limit ->
  getSolutions fixOvIncrement defaultSolutionsToSeed errIKSolve genIKConstraintErr
    mp goal seed polls = Some (Ok sols) ->
  len sols <= limit.
Proof.
  intros Ho Ht Hpos Hg.
  destruct (getSolutions_Ok_inv sols Ho Ht Hg) as (st & Hl & _ & ->).
  unfold len. rewrite orderedSolutions_length.
  destruct (loop_break_inv _ _ _ Hl) as (n & p & st1 & Hp & Hl1 & Hc).
  pose proof (limit_polling n st1 Hpos Hl1) as Hlt. unfold FloatMap.len in Hlt.
  destruct Hc as [[-> ->]|(step & -> & Hb)]; [lia|].
  destruct (body_cases st1 step) as [(name & _ & Hb')|[(c & _ & _ & Hb')|(c & _ & _ & Hb')]];
    rewrite Hb' in Hb.
  - discriminate Hb.
  - injection Hb as <-. simpl. lia.
  - injection Hb as <- _. simpl.
    pose proof (assign_length_le (solutions st1) c step). lia.
Qed.

(** *** The failure histogram *)

Lemma candidates_take_S n p :
  polls !! n = Some p ->
  candidates (take (S n) polls) =
    candidates (take n polls) ++ match p with Candidate step => [step] | _ => [] end.
Proof.
  intros Hp. rewrite (take_S_r _ _ _ Hp). unfold candidates.
  rewrite omap_app. simpl. destruct p; reflexivity.
Qed.

Lemma rejected_by_snoc name steps step :
  RejectedBy name (steps ++ [step]) =
    RejectedBy name steps + (if decide (Rejection step = Some name) then 1 else 0).
Proof.
  unfold rejected_by, len. rewrite filter_app, length_app, filter_cons, filter_nil.
  destruct (decide (Rejection step = Some name)); simpl; lia.
Qed.

Lemma rejected_by_nonneg name steps : 0 <= RejectedBy name steps.
Proof. unfold rejected_by, len. lia. Qed.

Lemma tally_reached n st :
  (n <= length polls)%nat ->
  loop IKinit (take n polls) = StillPolling st -> TallyOK polls n st.
Proof.
  apply (loop_invariant (fun n st => TallyOK polls n st)).
  - intros _. simpl. split; [reflexivity|]. split; [intros step []|].
    intros name. reflexivity.
  - intros k st0 step st' Hp _ IH Hb.
    destruct (body_cases st0 step) as [(name0 & Hrej & Hb')|[(c & _ & _ & Hb')|(c & _ & _ & Hb')]];
      rewrite Hb' in Hb.
    + injection Hb as <-. intros He. simpl in He.
      destruct (IH He) as (Hcnt & Hall & Hhist).
      rewrite (candidates_take_S _ _ Hp). repeat split.
      * simpl. rewrite Hcnt. unfold len. rewrite length_app. simpl. lia.
      * intros step' Hin. apply in_app_or in Hin. destruct Hin as [Hin|[<-|[]]]; [auto|].
        rewrite Hrej. discriminate.
      * intros name. simpl. rewrite rejected_by_snoc.
        pose proof (rejected_by_nonneg name (candidates (take k polls))) as Hnn.
        destruct (decide (name0 = name)) as [->|Hne].
        -- rewrite lookup_insert_eq, Hhist.
           destruct (decide (Rejection step = Some name)) as [_|Hn]; [|congruence].
           destruct (Z.eqb_spec (RejectedBy name (candidates (take k polls))) 0) as [E|E];
             [rewrite E; reflexivity|].
           destruct (Z.eqb_spec (RejectedBy name (candidates (take k polls)) + 1) 0);
             [lia|reflexivity].
        -- rewrite lookup_insert_ne by assumption. rewrite Hhist.
           destruct (decide (Rejection step = Some name)) as [Hn|_]; [congruence|].
           rewrite Z.add_0_r. reflexivity.
    + discriminate Hb.
    + injection Hb as <- _. intros He. simpl in He.
      pose proof (assign_length_pos (solutions st0) c step) as Hlen.
      rewrite He in Hlen. simpl in Hlen. lia.
  - intros k st0 Hp _ IH He. destruct (IH He) as (Hcnt & Hall & Hhist).
    rewrite (candidates_take_S _ _ Hp), app_nil_r. auto.
Qed.

(** Leaving the loop with an empty map happens on the completion signal. *)
Lemma no_solution_error st :
  planOpts mp = Some opts -> Transform (frame mp) seed = Ok seedPos ->
  loop IKinit polls = BreakIK st -> solutions st = [] ->
  exists n, polls !! n = Some SolverDone /\ Reached polls n /\
    (forall step, In step (candidates (take n polls)) -> Rejection step <> None) /\
    ((candidates (take n polls) = [] /\
      getSolutions fixOvIncrement defaultSolutionsToSeed errIKSolve genIKConstraintErr
        mp goal seed polls = Some (Err errIKSolve)) \/
     (candidates (take n polls) <> [] /\
      exists hist,
        getSolutions fixOvIncrement defaultSolutionsToSeed errIKSolve genIKConstraintErr
          mp goal seed polls
          = Some (Err (genIKConstraintErr hist (len (candidates (take n polls))))) /\
        forall name,
          hist !! name =
            if RejectedBy name (candidates (take n polls)) =? 0 then None
            else Some (RejectedBy name (candidates (take n polls))))).
Proof.
  intros Ho Ht Hl He.
  destruct (loop_break_inv _ _ _ Hl) as (n & p & st1 & Hp & Hl1 & Hc).
  destruct Hc as [[-> <-]|(step & -> & Hb)].
  - exists n. split; [assumption|]. split; [exists st; assumption|].
    assert (Hn : (n <= length polls)%nat) by (apply lookup_lt_Some in Hp; lia).
    destruct (tally_reached n st Hn Hl1 He) as (Hcnt & Hall & Hhist).
    split; [assumption|].
    unfold getSolutions, searchLoop. rewrite Ho, Ht, Hl.
    unfold afterLoop, FloatMap.len. rewrite He. simpl. rewrite Hcnt.
    destruct (candidates (take n polls)) as [|s0 cands] eqn:Ec.
    + left. split; reflexivity.
    + right. split; [discriminate|]. exists (failures st). split; [reflexivity|assumption].
  - exfalso.
    destruct (body_cases st1 step) as [(name0 & _ & Hb')|[(c & _ & _ & Hb')|(c & _ & _ & Hb')]];
      rewrite Hb' in Hb.
    + discriminate Hb.
    + injection Hb as <-. simpl in He. discriminate He.
    + injection Hb as <- _. simpl in He.
      pose proof (assign_length_pos (solutions st1) c step) as Hlen.
      rewrite He in Hlen. simpl in Hlen. lia.
Qed.

(** The sequential part of cancellation: an iteration that finds the
    caller's context done returns its error, and nothing that was collected. *)
Lemma getSolutions_cancelled i e :
  planOpts mp = Some opts -> Transform (frame mp) seed = Ok seedPos ->
  polls !! i = Some (CtxDone e) -> Reached polls i ->
  getSolutions fixOvIncrement defaultSolutionsToSeed errIKSolve genIKConstraintErr
    mp goal seed polls = Some (Err e).
Proof.
  intros Ho Ht Hp [st Hr]. unfold getSolutions, searchLoop. rewrite Ho, Ht.
  unfold searchLoop in Hr. rewrite (polls_split i _ Hp), loop_app, Hr. reflexivity.
Qed.

End Search.

Lemma cost_ascending_distinct (sols : list costNode) :
  cost_ascending sols ->
  forall i j a b, i <> j -> sols !! i = Some a -> sols !! j = Some b ->
    Float64.eq (cost a) (cost b) = false.
Proof.
  intros Hs i j a b Hij Ha Hb.
  destruct (Nat.lt_total i j) as [Hlt|[->|Hlt]]; [|congruence|].
  - apply lt_not_eq. exact (StronglySorted_lookup _ _ Hs i j a b Hlt Ha Hb).
  - rewrite eq_sym. apply lt_not_eq.
    exact (StronglySorted_lookup _ _ Hs j i b a Hlt Hb Ha).
Qed.

(** C1, as amended: provided no candidate that the loop accepts has a NaN
    cost, a
    successful call to getSolutions returns a non-empty sequence of cost nodes
    that is strictly ascending in cost, so that no two entries have
    numerically equal costs, and every entry is the last candidate the loop
    accepted at a cost numerically equal to the entry's. *)
Theorem getSolutions_sorted_last_wins {Pose : Type}
    (fixOvIncrement : Pose -> Pose -> Pose) (defaultSolutionsToSeed : Z)
    (errIKSolve : error) (genIKConstraintErr : gmap string Z -> Z -> error)
    (mp : planner Pose) (opts : plannerOptions Pose) (goal seedPos : Pose)
    (seed : Inputs) (polls : list Poll) (sols : list costNode) :
  planOpts mp = Some opts ->
  Transform (frame mp) seed = Ok seedPos ->
  (forall i step c,
      found_at fixOvIncrement defaultSolutionsToSeed mp opts goal seedPos seed polls i step c ->
      Float64.isNaN c = false) ->
  getSolutions fixOvIncrement defaultSolutionsToSeed errIKSolve genIKConstraintErr
    mp goal seed polls = Some (Ok sols) ->
  sols <> [] /\
  cost_ascending sols /\
  (forall i j a b, i <> j -> sols !! i = Some a -> sols !! j = Some b ->
     Float64.eq (cost a) (cost b) = false) /\
  (forall n, In n sols ->
     last_found fixOvIncrement defaultSolutionsToSeed mp opts goal seedPos seed
       polls (cn_q n) (cost n)).
Proof.
  intros Ho Ht Hn Hg.
  destruct (sorted_last_wins fixOvIncrement defaultSolutionsToSeed errIKSolve
              genIKConstraintErr mp opts goal seedPos seed polls sols Ho Ht Hn Hg)
    as (H1 & H2 & H3).
  repeat split; try assumption. apply cost_ascending_distinct. assumption.
Qed.

Lemma getSolutions_sorted_last_wins_witness :
  getSolutions Scenario.fixOvIncrement Scenario.defaultSolutionsToSeed Scenario.errIKSolve
    Scenario.genIKConstraintErr Scenario.mp_number Scenario.goal0 Scenario.seed0 Scenario.polls_dup
    = Some (Ok Scenario.sols_dup) /\
  Scenario.sols_dup <> [] /\
  cost_ascending Scenario.sols_dup /\
  (forall i j a b, i <> j -> Scenario.sols_dup !! i = Some a -> Scenario.sols_dup !! j = Some b ->
     Float64.eq (cost a) (cost b) = false) /\
  (forall n, In n Scenario.sols_dup ->
     last_found Scenario.fixOvIncrement Scenario.defaultSolutionsToSeed Scenario.mp_number
       (Scenario.options Scenario.check_number 0 Float64.zero 0)
       Scenario.goal0 Scenario.seed0 Scenario.seed0 Scenario.polls_dup (cn_q n) (cost n)).
Proof.
  split; [vm_compute; reflexivity|].
  apply (getSolutions_sorted_last_wins Scenario.fixOvIncrement
           Scenario.defaultSolutionsToSeed Scenario.errIKSolve Scenario.genIKConstraintErr
           Scenario.mp_number (Scenario.options Scenario.check_number 0 Float64.zero 0)
           Scenario.goal0 Scenario.seed0 Scenario.seed0 Scenario.polls_dup Scenario.sols_dup).
  - reflexivity.
  - reflexivity.
  - intros i step c (_ & _ & n1 & s2 & n2 & H1 & _).
    unfold checkFromSeed in H1. simpl in H1. unfold Scenario.check_number in H1. simpl in H1.
    injection H1 as Hpass Hc _. subst c.
    destruct (Float64.isNaN (Scenario.value_of step)); [discriminate|reflexivity].
  - vm_compute. reflexivity.
Defined.

(** C1 fails as stated: with two accepted candidates whose score is NaN the
    call succeeds with two entries of cost NaN, which are not in strictly
    ascending order (and hold no configuration). *)
Lemma getSolutions_NaN_costs :
  getSolutions Scenario.fixOvIncrement Scenario.defaultSolutionsToSeed Scenario.errIKSolve
    Scenario.genIKConstraintErr
    Scenario.mp_any Scenario.goal0 Scenario.seed0 Scenario.polls_NaN
    = Some (Ok Scenario.sols_NaN) /\
  ~ cost_ascending Scenario.sols_NaN.
Proof.
  split; [vm_compute; reflexivity|].
  intros H. inversion H as [|? ? _ Hall]; subst.
  inversion Hall as [|? ? Hlt _]; subst. simpl in Hlt. discriminate.
Qed.

(** [+0] and [-0] are one key of the result set: the later candidate
    replaces the earlier one, key included. *)
Example getSolutions_signed_zero :
  getSolutions Scenario.fixOvIncrement Scenario.defaultSolutionsToSeed Scenario.errIKSolve
    Scenario.genIKConstraintErr Scenario.mp_any Scenario.goal0 Scenario.seed0
    [Candidate [Scenario.joint Float64.zero; Scenario.joint Float64.f0_25]; Idle;
     Candidate [Scenario.joint Float64.neg_zero]; SolverDone]
  = Some (Ok [newCostNode [Scenario.joint Float64.neg_zero] Float64.neg_zero]).
Proof. vm_compute. reflexivity. Qed.

(** The first end-to-end scenario of the specification: one candidate, then
    the solver is exhausted, and every constraint passes. *)
Example getSolutions_single_candidate :
  getSolutions Scenario.fixOvIncrement Scenario.defaultSolutionsToSeed Scenario.errIKSolve
    Scenario.genIKConstraintErr Scenario.mp_any Scenario.goal0 Scenario.seed0
    Scenario.polls_one
  = Some (Ok [newCostNode [Scenario.joint Float64.f1] Float64.f1]).
Proof. vm_compute. reflexivity. Qed.

(** C2, as amended: if MinScore > 0 and the loop receives a candidate that
    passes both constraint checks with a score below MinScore, the search
    ends there: whatever was collected before is discarded, the polls after
    it are not read, and the result is exactly that candidate. *)
Theorem getSolutions_minScore_exit {Pose : Type}
    (fixOvIncrement : Pose -> Pose -> Pose) (defaultSolutionsToSeed : Z)
    (errIKSolve : error) (genIKConstraintErr : gmap string Z -> Z -> error)
    (mp : planner Pose) (opts : plannerOptions Pose) (goal seedPos : Pose)
    (seed : Inputs) (polls : list Poll) (i : nat) (step : Inputs) (c : float64) :
  planOpts mp = Some opts ->
  Transform (frame mp) seed = Ok seedPos ->
  Float64.gt (MinScore opts) Float64.zero = true ->
  polls !! i = Some (Candidate step) ->
  reached fixOvIncrement defaultSolutionsToSeed mp opts goal seedPos seed polls i ->
  accepted fixOvIncrement mp opts goal seedPos seed step c ->
  Float64.lt c (MinScore opts) = true ->
  getSolutions fixOvIncrement defaultSolutionsToSeed errIKSolve genIKConstraintErr
    mp goal seed polls = Some (Ok [newCostNode step c]).
Proof. intros. eapply minScore_exit; eassumption. Qed.

Lemma getSolutions_minScore_exit_witness :
  getSolutions Scenario.fixOvIncrement Scenario.defaultSolutionsToSeed Scenario.errIKSolve
    Scenario.genIKConstraintErr (Scenario.planner_of Scenario.opts_min1 [])
    Scenario.goal0 Scenario.seed0 Scenario.polls_good
  = Some (Ok [newCostNode [Scenario.joint Float64.f0_5; Scenario.joint Float64.f0_25]
                Float64.f0_5]).
Proof.
  apply (getSolutions_minScore_exit Scenario.fixOvIncrement Scenario.defaultSolutionsToSeed
           Scenario.errIKSolve Scenario.genIKConstraintErr
           (Scenario.planner_of Scenario.opts_min1 []) Scenario.opts_min1
           Scenario.goal0 Scenario.seed0 Scenario.seed0 Scenario.polls_good 1%nat).
  - reflexivity.
  - reflexivity.
  - reflexivity.
  - reflexivity.
  - eexists. vm_compute. reflexivity.
  - exists "", Float64.f0_5, "". split; reflexivity.
  - reflexivity.
Defined.

(** C2 fails as stated: under MinScore = 2.0 a candidate scores 1.0 in the
    check against the seed and fails the check of its own end state; the
    search goes on and ends in the constraint failure error. *)
Lemma getSolutions_low_score_rejected :
  Float64.gt (MinScore Scenario.opts_start_min2) Float64.zero = true /\
  Scenario.polls_one !! 0%nat = Some (Candidate [Scenario.joint Float64.f1]) /\
  checkFromSeed Scenario.opts_start_min2 Scenario.arm Scenario.seed0 Scenario.goal0
    Scenario.seed0 [Scenario.joint Float64.f1] = (true, Float64.f1, "start") /\
  Float64.lt Float64.f1 (MinScore Scenario.opts_start_min2) = true /\
  getSolutions Scenario.fixOvIncrement Scenario.defaultSolutionsToSeed Scenario.errIKSolve
    Scenario.genIKConstraintErr (Scenario.planner_of Scenario.opts_start_min2 [])
    Scenario.goal0 Scenario.seed0 Scenario.polls_one
  = Some (Err (Scenario.genIKConstraintErr {[ "start" := 1 ]} 1)).
Proof. repeat split; vm_compute; reflexivity. Qed.

(** The bound on the number of solutions, for either source of the limit. *)
Lemma getSolutions_limit {Pose : Type}
    (fixOvIncrement : Pose -> Pose -> Pose) (defaultSolutionsToSeed : Z)
    (errIKSolve : error) (genIKConstraintErr : gmap string Z -> Z -> error)
    (mp : planner Pose) (opts : plannerOptions Pose) (goal seedPos : Pose)
    (seed : Inputs) (polls : list Poll) :
  planOpts mp = Some opts ->
  Transform (frame mp) seed = Ok seedPos ->
  0 < searchLimit defaultSolutionsToSeed opts ->
  (forall i st,
      searchLoop fixOvIncrement defaultSolutionsToSeed mp opts goal seedPos seed
        (take i polls) = StillPolling st ->
      FloatMap.len (solutions st) < searchLimit defaultSolutionsToSeed opts) /\
  (forall sols,
      getSolutions fixOvIncrement defaultSolutionsToSeed errIKSolve genIKConstraintErr
        mp goal seed polls = Some (Ok sols) ->
      len sols <= searchLimit defaultSolutionsToSeed opts).
Proof.
  intros Ho Ht Hpos. split.
  - intros i st. apply limit_polling. assumption.
  - intros sols. eapply limit_result; eassumption.
Qed.

(** C3, as amended: if MaxSolutions = N and N > 0, the loop polls only
    while it holds fewer than N entries, and a successful call returns at
    most N cost nodes.  (MaxSolutions = 0 selects the package default, see
    [getSolutions_limit].) *)
Theorem getSolutions_max_solutions {Pose : Type}
    (fixOvIncrement : Pose -> Pose -> Pose) (defaultSolutionsToSeed : Z)
    (errIKSolve : error) (genIKConstraintErr : gmap string Z -> Z -> error)
    (mp : planner Pose) (opts : plannerOptions Pose) (goal seedPos : Pose)
    (seed : Inputs) (polls : list Poll) (N : Z) :
  planOpts mp = Some opts ->
  Transform (frame mp) seed = Ok seedPos ->
  MaxSolutions opts = N ->
  0 < N ->
  (forall i st,
      searchLoop fixOvIncrement defaultSolutionsToSeed mp opts goal seedPos seed
        (take i polls) = StillPolling st ->
      FloatMap.len (solutions st) < N) /\
  (forall sols,
      getSolutions fixOvIncrement defaultSolutionsToSeed errIKSolve genIKConstraintErr
        mp goal seed polls = Some (Ok sols) ->
      len sols <= N).
Proof.
  intros Ho Ht HN Hpos.
  assert (E : searchLimit defaultSolutionsToSeed opts = N).
  { unfold searchLimit. rewrite HN. destruct (Z.eqb_spec N 0); [lia|reflexivity]. }
  rewrite <- E. apply getSolutions_limit; [assumption|assumption|lia].
Qed.

Lemma getSolutions_max_solutions_witness :
  getSolutions Scenario.fixOvIncrement Scenario.defaultSolutionsToSeed Scenario.errIKSolve
    Scenario.genIKConstraintErr (Scenario.planner_of Scenario.opts_max2 [])
    Scenario.goal0 Scenario.seed0 Scenario.polls_three = Some (Ok Scenario.sols_two) /\
  len Scenario.sols_two <= 2.
Proof.
  split; [vm_compute; reflexivity|].
  apply (getSolutions_max_solutions Scenario.fixOvIncrement Scenario.defaultSolutionsToSeed
           Scenario.errIKSolve Scenario.genIKConstraintErr
           (Scenario.planner_of Scenario.opts_max2 []) Scenario.opts_max2
           Scenario.goal0 Scenario.seed0 Scenario.seed0 Scenario.polls_three 2).
  - reflexivity.
  - reflexivity.
  - reflexivity.
  - lia.
  - vm_compute. reflexivity.
Defined.

(** C3 fails as stated: with MaxSolutions = 0 a successful call returns a
    sequence longer than 0. *)
Lemma getSolutions_unset_max_solutions :
  MaxSolutions (Scenario.options Scenario.check_any 0 Float64.zero 0) = 0 /\
  getSolutions Scenario.fixOvIncrement Scenario.defaultSolutionsToSeed Scenario.errIKSolve
    Scenario.genIKConstraintErr Scenario.mp_any Scenario.goal0 Scenario.seed0
    Scenario.polls_one
  = Some (Ok [newCostNode [Scenario.joint Float64.f1] Float64.f1]) /\
  ~ len [newCostNode [Scenario.joint Float64.f1] Float64.f1] <= 0.
Proof.
  split; [reflexivity|]. split; [vm_compute; reflexivity|]. unfold len. simpl. lia.
Qed.

(** C6: when the loop is left with no solution collected, it was left on
    the solver's completion signal, every candidate received before it was
    rejected by a constraint, and the call fails with errIKSolve if there was
    no candidate, and otherwise with genIKConstraintErr applied to the
    histogram that maps each constraint name to the number of candidates it
    rejected (names that rejected none are absent) and to the number of
    candidates. *)
Theorem getSolutions_no_solution_error {Pose : Type}
    (fixOvIncrement : Pose -> Pose -> Pose) (defaultSolutionsToSeed : Z)
    (errIKSolve : error) (genIKConstraintErr : gmap string Z -> Z -> error)
    (mp : planner Pose) (opts : plannerOptions Pose) (goal seedPos : Pose)
    (seed : Inputs) (polls : list Poll) (st : IKstate) :
  planOpts mp = Some opts ->
  Transform (frame mp) seed = Ok seedPos ->
  searchLoop fixOvIncrement defaultSolutionsToSeed mp opts goal seedPos seed polls
    = BreakIK st ->
  solutions st = [] ->
  exists n,
    polls !! n = Some SolverDone /\
    reached fixOvIncrement defaultSolutionsToSeed mp opts goal seedPos seed polls n /\
    (forall step, In step (candidates (take n polls)) ->
       rejection fixOvIncrement mp opts goal seedPos seed step <> None) /\
    ((candidates (take n polls) = [] /\
      getSolutions fixOvIncrement defaultSolutionsToSeed errIKSolve genIKConstraintErr
        mp goal seed polls = Some (Err errIKSolve)) \/
     (candidates (take n polls) <> [] /\
      exists hist,
        getSolutions fixOvIncrement defaultSolutionsToSeed errIKSolve genIKConstraintErr
          mp goal seed polls
          = Some (Err (genIKConstraintErr hist (len (candidates (take n polls))))) /\
        forall name,
          hist !! name =
            if rejected_by fixOvIncrement mp opts goal seedPos seed name
                 (candidates (take n polls)) =? 0
            then None
            else Some (rejected_by fixOvIncrement mp opts goal seedPos seed name
                         (candidates (take n polls))))).
Proof. apply no_solution_error. Qed.

Lemma getSolutions_no_solution_error_witness :
  exists n,
    Scenario.polls_rejected !! n = Some SolverDone /\
    reached Scenario.fixOvIncrement Scenario.defaultSolutionsToSeed
      (Scenario.planner_of Scenario.opts_start []) Scenario.opts_start
      Scenario.goal0 Scenario.seed0 Scenario.seed0 Scenario.polls_rejected n /\
    (forall step, In step (candidates (take n Scenario.polls_rejected)) ->
       rejection Scenario.fixOvIncrement (Scenario.planner_of Scenario.opts_start [])
         Scenario.opts_start Scenario.goal0 Scenario.seed0 Scenario.seed0 step <> None) /\
    ((candidates (take n Scenario.polls_rejected) = [] /\
      getSolutions Scenario.fixOvIncrement Scenario.defaultSolutionsToSeed
        Scenario.errIKSolve Scenario.genIKConstraintErr
        (Scenario.planner_of Scenario.opts_start []) Scenario.goal0 Scenario.seed0
        Scenario.polls_rejected = Some (Err Scenario.errIKSolve)) \/
     (candidates (take n Scenario.polls_rejected) <> [] /\
      exists hist,
        getSolutions Scenario.fixOvIncrement Scenario.defaultSolutionsToSeed
          Scenario.errIKSolve Scenario.genIKConstraintErr
          (Scenario.planner_of Scenario.opts_start []) Scenario.goal0 Scenario.seed0
          Scenario.polls_rejected
          = Some (Err (Scenario.genIKConstraintErr hist
                         (len (candidates (take n Scenario.polls_rejected))))) /\
        forall name,
          hist !! name =
            if rejected_by Scenario.fixOvIncrement (Scenario.planner_of Scenario.opts_start [])
                 Scenario.opts_start Scenario.goal0 Scenario.seed0 Scenario.seed0 name
                 (candidates (take n Scenario.polls_rejected)) =? 0
            then None
            else Some (rejected_by Scenario.fixOvIncrement
                         (Scenario.planner_of Scenario.opts_start [])
                         Scenario.opts_start Scenario.goal0 Scenario.seed0 Scenario.seed0 name
                         (candidates (take n Scenario.polls_rejected))))).
Proof.
  apply (getSolutions_no_solution_error Scenario.fixOvIncrement
           Scenario.defaultSolutionsToSeed Scenario.errIKSolve Scenario.genIKConstraintErr
           (Scenario.planner_of Scenario.opts_start []) Scenario.opts_start
           Scenario.goal0 Scenario.seed0 Scenario.seed0 Scenario.polls_rejected
           Scenario.st_rejected).
  - reflexivity.
  - reflexivity.
  - vm_compute. reflexivity.
  - reflexivity.
Defined.

End SearchFacts.

(** ** Path smoothing *)

Module SmoothFacts.
Import SliceFacts.

Lemma Intn_inv rs n k rs' : Intn rs n = Ok (k, rs') -> 0 <= k < n.
Proof.
  unfold Intn. destruct (Z.leb_spec n 0); [discriminate|].
  intros [= <- _]. apply Z.mod_pos_bound. lia.
Qed.

Lemma Intn_total rs n : 0 < n -> exists k rs', Intn rs n = Ok (k, rs') /\ 0 <= k < n.
Proof.
  intros Hn. unfold Intn. destruct (Z.leb_spec n 0); [lia|].
  eexists _, _. split; [reflexivity|]. apply Z.mod_pos_bound. lia.
Qed.

Lemma drawEdges_inv rs path i j rs' :
  drawEdges rs path = Ok (i, j, rs') -> 0 <= i /\ i < j /\ j <= len path - 2.
Proof.
  unfold drawEdges.
  destruct (Intn rs (len path - 2)) as [[i0 rs0]| |] eqn:E1; simpl; try discriminate.
  destruct (Intn rs0 (len path - 2 - i0)) as [[r rs1]| |] eqn:E2; simpl; try discriminate.
  intros [= <- <- _]. apply Intn_inv in E1, E2. lia.
Qed.

Lemma drawEdges_total rs path :
  3 <= len path -> exists i j rs', drawEdges rs path = Ok (i, j, rs').
Proof.
  intros Hlen. unfold drawEdges.
  destruct (Intn_total rs (len path - 2)) as (i & rs0 & -> & Hi); [lia|]. simpl.
  destruct (Intn_total rs0 (len path - 2 - i)) as (r & rs1 & -> & Hr); [lia|]. simpl.
  eauto.
Qed.

(** The splice of the code, for edge indices as [drawEdges] draws them. *)
Lemma splice_Ok path i j w1 w2 :
  0 <= i -> i < j -> j <= len path - 2 ->
  splice path i j w1 w2 =
    Ok (take (Z.to_nat (i + 1)) path
          ++ [basicNode w1; basicNode w2]
          ++ drop (Z.to_nat (j + 1)) path).
Proof.
  intros Hi Hij Hj. unfold splice.
  rewrite slice_to_Ok by lia. simpl. rewrite slice_from_Ok by lia. simpl.
  rewrite <- app_assoc. reflexivity.
Qed.

Lemma splice_head path i j w1 w2 :
  0 <= i -> 1 <= len path ->
  head (take (Z.to_nat (i + 1)) path ++ [basicNode w1; basicNode w2]
          ++ drop (Z.to_nat (j + 1)) path) = head path.
Proof.
  unfold len. intros Hi Hlen. destruct path as [|n0 path]; simpl in *; [lia|].
  replace (Z.to_nat (i + 1)) with (S (Z.to_nat i)) by lia. reflexivity.
Qed.

Lemma last_drop {A : Type} (l : list A) (k : nat) :
  (k < length l)%nat -> last (drop k l) = last l.
Proof.
  intros Hk. rewrite !last_lookup, lookup_drop, length_drop. f_equal. lia.
Qed.

Lemma splice_last path i j w1 w2 :
  0 <= j -> j <= len path - 2 ->
  last (take (Z.to_nat (i + 1)) path ++ [basicNode w1; basicNode w2]
          ++ drop (Z.to_nat (j + 1)) path) = last path.
Proof.
  unfold len. intros Hj Hlen.
  assert (Hk : (Z.to_nat (j + 1) < length path)%nat) by lia.
  rewrite app_assoc, last_app, (last_drop _ _ Hk).
  destruct (last path) eqn:E; [reflexivity|].
  apply last_None in E. subst path. simpl in Hk. lia.
Qed.

Lemma splice_len path i j w1 w2 :
  3 <= len (take (Z.to_nat (i + 1)) path ++ [basicNode w1; basicNode w2]
              ++ drop (Z.to_nat (j + 1)) path) \/ len path < 1 \/ i < 0.
Proof.
  unfold len. rewrite !length_app, length_take. simpl.
  destruct (Z_lt_dec i 0); [auto|]. destruct (Z_lt_dec (Z.of_nat (length path)) 1); [auto|].
  left. lia.
Qed.

Section Smooth.
Context {Pose : Type}.
Variable InterpolateInputs : Inputs -> Inputs -> float64 -> Inputs.
Variable mp : planner Pose.

Lemma drawWaypoint_total rs path edge :
  0 <= edge -> edge <= len path - 2 ->
  exists w rs', drawWaypoint InterpolateInputs rs path edge = Ok (w, rs').
Proof.
  intros H0 H1. unfold drawWaypoint.
  destruct (index_total path edge) as [a ->]; [lia|]. cbn [mbind outcome_bind].
  destruct (index_total path (edge + 1)) as [b ->]; [lia|]. cbn [mbind outcome_bind].
  destruct (Intn_total rs 3) as (k & rs' & -> & Hk); [lia|]. cbn [mbind outcome_bind].
  destruct (index_total waypoints k) as [w ->]; [unfold len; simpl; lia|]. cbn [mbind outcome_bind].
  eauto.
Qed.

Lemma checkPath_total opts w1 w2 :
  planOpts mp = Some opts -> exists ok, checkPath mp w1 w2 = Ok ok.
Proof.
  intros Ho. unfold checkPath. rewrite Ho.
  destruct (CheckConstraintPath opts _ _) as [ok name]. eauto.
Qed.

(** An iteration on a path of at least three nodes does not panic, and
    keeps the path's length above three and its two ends. *)
Lemma smoothIteration_ends opts rs path :
  planOpts mp = Some opts -> 3 <= len path ->
  exists path' rs',
    smoothIteration InterpolateInputs mp rs path = Ok (path', rs') /\
    3 <= len path' /\ head path' = head path /\ last path' = last path.
Proof.
  intros Ho Hlen. unfold smoothIteration.
  destruct (drawEdges_total rs path Hlen) as (i & j & rs1 & He). rewrite He. simpl.
  destruct (drawEdges_inv _ _ _ _ _ He) as (Hi & Hij & Hj).
  destruct (drawWaypoint_total rs1 path i) as (w1 & rs2 & ->); [lia|lia|]. simpl.
  destruct (drawWaypoint_total rs2 path j) as (w2 & rs3 & ->); [lia|lia|]. simpl.
  destruct (checkPath_total opts w1 w2 Ho) as [ok ->]. simpl.
  destruct ok.
  - rewrite splice_Ok by assumption. simpl. eexists _, _. split; [reflexivity|].
    split; [|split].
    + destruct (splice_len path i j w1 w2) as [H|[H|H]]; [exact H|lia|lia].
    + apply splice_head; lia.
    + apply splice_last; lia.
  - eexists _, _. split; [reflexivity|]. auto.
Qed.

Lemma smoothLoop_ends opts ctxDone n i rs path :
  planOpts mp = Some opts -> 3 <= len path ->
  exists path' rs',
    smoothLoop InterpolateInputs mp ctxDone n i rs path = Ok (path', rs') /\
    head path' = head path /\ last path' = last path.
Proof.
  intros Ho. revert i rs path. induction n as [|n IH]; intros i rs path Hlen; simpl.
  - eauto.
  - destruct (ctxDone i); [eauto|].
    destruct (smoothIteration_ends opts rs path Ho Hlen) as (p1 & rs1 & -> & Hl1 & Hh & Hla).
    simpl. destruct (IH (S i) rs1 p1 Hl1) as (p2 & rs2 & -> & Hh2 & Hla2).
    eexists _, _. split; [reflexivity|]. split; congruence.
Qed.

End Smooth.

(** C10: smoothPath returns (it does not panic) and the path it returns
    has the first node and the last node of the path it was given. *)
Theorem smoothPath_preserves_endpoints {Pose : Type}
    (InterpolateInputs : Inputs -> Inputs -> float64 -> Inputs)
    (mp : planner Pose) (ctxDone : nat -> bool) (path : list node) :
  exists path' rs',
    smoothPath InterpolateInputs mp ctxDone path = Ok (path', rs') /\
    head path' = head path /\ last path' = last path.
Proof.
  unfold smoothPath. destruct (planOpts mp) as [opts|] eqn:Ho; [|eauto].
  destruct (Z.leb_spec (len path) 2); [eauto|].
  apply (smoothLoop_ends InterpolateInputs mp opts); [assumption|lia].
Qed.

(** C4, as amended: when an iteration of smoothPath draws the edge indices
    i and j and the waypoints w1 and w2, and checkPath accepts the segment
    from w1 to w2, the new path is the old path up to and including node i,
    then the two waypoints, then the old path from node j+1 onward. *)
Theorem smoothIteration_splice {Pose : Type}
    (InterpolateInputs : Inputs -> Inputs -> float64 -> Inputs)
    (mp : planner Pose) (rs rs1 rs2 rs3 : Rand) (path : list node)
    (firstEdge secondEdge : Z) (wayPoint1 wayPoint2 : Inputs) :
  drawEdges rs path = Ok (firstEdge, secondEdge, rs1) ->
  drawWaypoint InterpolateInputs rs1 path firstEdge = Ok (wayPoint1, rs2) ->
  drawWaypoint InterpolateInputs rs2 path secondEdge = Ok (wayPoint2, rs3) ->
  checkPath mp wayPoint1 wayPoint2 = Ok true ->
  smoothIteration InterpolateInputs mp rs path =
    Ok (take (Z.to_nat (firstEdge + 1)) path
          ++ [basicNode wayPoint1; basicNode wayPoint2]
          ++ drop (Z.to_nat (secondEdge + 1)) path,
        rs3).
Proof.
  intros He H1 H2 Hc. unfold smoothIteration. rewrite He. simpl.
  rewrite H1. simpl. rewrite H2. simpl. rewrite Hc. simpl.
  destruct (drawEdges_inv _ _ _ _ _ He) as (Hi & Hij & Hj).
  rewrite splice_Ok by assumption. reflexivity.
Qed.

Lemma smoothIteration_splice_witness :
  smoothIteration Scenario.InterpolateInputs Scenario.mp_smooth
    (randseed Scenario.mp_smooth) Scenario.path4
  = Ok (take (Z.to_nat (0 + 1)) Scenario.path4
          ++ [basicNode [Scenario.joint Float64.f0_5]; basicNode [Scenario.joint Scenario.f1_5]]
          ++ drop (Z.to_nat (1 + 1)) Scenario.path4,
        {| raw := raw (randseed Scenario.mp_smooth); pos := 4 |}).
Proof.
  apply (smoothIteration_splice Scenario.InterpolateInputs Scenario.mp_smooth
           (randseed Scenario.mp_smooth)
           {| raw := raw (randseed Scenario.mp_smooth); pos := 2 |}
           {| raw := raw (randseed Scenario.mp_smooth); pos := 3 |}
           {| raw := raw (randseed Scenario.mp_smooth); pos := 4 |}
           Scenario.path4 0 1).
  - reflexivity.
  - reflexivity.
  - reflexivity.
  - reflexivity.
Defined.

(** C4 fails as stated: on a path of four nodes with the edges 0 and 1
    drawn, the accepted shortcut keeps node 2 (node j+1), which the claimed
    splice drops. *)
Lemma smoothPath_keeps_node_after_second_edge :
  drawEdges (randseed Scenario.mp_smooth) Scenario.path4
    = Ok (0, 1, {| raw := raw (randseed Scenario.mp_smooth); pos := 2 |}) /\
  checkPath Scenario.mp_smooth [Scenario.joint Float64.f0_5] [Scenario.joint Scenario.f1_5]
    = Ok true /\
  smoothPath Scenario.InterpolateInputs Scenario.mp_smooth Scenario.never Scenario.path4
    = Ok (Scenario.path4_smoothed,
          {| raw := raw (randseed Scenario.mp_smooth); pos := 4 |}) /\
  Scenario.path4_smoothed
    <> splice_as_claimed Scenario.path4 0 1
         [Scenario.joint Float64.f0_5] [Scenario.joint Scenario.f1_5].
Proof.
  split; [reflexivity|]. split; [reflexivity|]. split; [reflexivity|].
  intros H. vm_compute in H. discriminate H.
Qed.

End SmoothFacts.

(** ** Single-state validation *)

Module CheckFacts.

(** C9: checkInputs returns false when the forward transform of the
    configuration fails, and otherwise the pass/fail verdict of the
    constraint capability on the degenerate constraint input whose start and
    end are this configuration and its pose; the score and the name are
    dropped. *)
Theorem checkInputs_spec {Pose : Type} (mp : planner Pose) (opts : plannerOptions Pose)
    (inputs : Inputs) :
  planOpts mp = Some opts ->
  checkInputs mp inputs =
    match Transform (frame mp) inputs with
    | Err _ => Ok false
    | Ok position =>
        Ok (verdict (CheckConstraints opts (self_pair (frame mp) position inputs)))
    | Panic => Panic
    end.
Proof.
  intros Ho. unfold checkInputs, self_pair, verdict. rewrite Ho.
  destruct (Transform (frame mp) inputs) as [position| |]; try reflexivity.
  destruct (CheckConstraints opts _) as [[ok score] name]. reflexivity.
Qed.

Lemma checkInputs_spec_witness :
  checkInputs (Scenario.planner_of Scenario.opts_start []) [Scenario.joint Float64.f2]
  = Ok false /\
  checkInputs (Scenario.planner_of Scenario.opts_start []) [Scenario.joint Float64.f0_5]
  = Ok true.
Proof.
  split.
  - rewrite (checkInputs_spec (Scenario.planner_of Scenario.opts_start [])
               Scenario.opts_start [Scenario.joint Float64.f2]); reflexivity.
  - rewrite (checkInputs_spec (Scenario.planner_of Scenario.opts_start [])
               Scenario.opts_start [Scenario.joint Float64.f0_5]); reflexivity.
Defined.

End CheckFacts.

(** ** The waypoint orchestrator *)

Module OrchestratorFacts.
Import SliceFacts.
#[local] Existing Instance Scenario.collaborators.

Section Loop.
Context {Pose : Type} `{C : Collaborators Pose}.
Variable fs : FrameSystem.
Variable solveFrameList : list (Frame Pose).
Variable worldState : option WorldState.
Variable opts : list (gmap string iface).

Local Abbreviation goal_step := (planGoal fs solveFrameList worldState opts).
Local Abbreviation goal_loop := (planGoals fs solveFrameList worldState opts).
Local Abbreviation call_of := (call_of opts).

Lemma planGoal_log i goal st log r log' :
  goal_step i goal st log = (r, log') ->
  exists new, log' = log ++ new /\ Forall (call_of i) new.
Proof.
  unfold planGoal, bind, lift, emit, ret. destruct st as [steps seedMap].
  destruct (newSolverFrame fs solveFrameList (Parent goal) seedMap) as [sf| |];
    try (intros [= <- <-]; exists []; rewrite app_nil_r; split; [reflexivity|constructor]).
  destruct (len (sf_DoF sf) =? 0);
    try (intros [= <- <-]; exists []; rewrite app_nil_r; split; [reflexivity|constructor]).
  destruct (sf_mapToSlice sf seedMap) as [seed| |];
    try (intros [= <- <-]; exists []; rewrite app_nil_r; split; [reflexivity|constructor]).
  destruct (sf_Transform sf seed) as [startPose| |];
    try (intros [= <- <-]; exists []; rewrite app_nil_r; split; [reflexivity|constructor]).
  destruct (match worldState with Some ws => _ | None => _ end) as [wsPb| |];
    try (intros [= <- <-]; exists []; rewrite app_nil_r; split; [reflexivity|constructor]).
  destruct (index opts i) as [cfg| |] eqn:Ei;
    try (intros [= <- <-]; exists []; rewrite app_nil_r; split; [reflexivity|constructor]).
  assert (H1 : call_of i (EvNewPlanManager sf i)).
  { split; [reflexivity|]. intros; exact I. }
  assert (H2 : call_of i (EvPlanSingleWaypoint i seedMap (PIFPose goal) cfg)).
  { split; [reflexivity|]. intros cfg' Hc. rewrite Ei in Hc. injection Hc as <-. reflexivity. }
  destruct (newPlanManager sf fs i) as [sfPlanner| |];
    try (intros [= <- <-]; exists [EvNewPlanManager sf i];
         split; [reflexivity|constructor; [exact H1|constructor]]).
  destruct (PlanSingleWaypoint sfPlanner seedMap (PIFPose goal) worldState cfg) as [slices| |];
    intros [= <- <-];
    exists [EvNewPlanManager sf i; EvPlanSingleWaypoint i seedMap (PIFPose goal) cfg];
    (split; [rewrite <- app_assoc; reflexivity|]);
    (constructor; [exact H1|constructor; [exact H2|constructor]]).
Qed.

Lemma planGoals_log goals : forall i st log r log',
  goal_loop i goals st log = (r, log') ->
  exists new, log' = log ++ new /\
    Forall (fun ev => i <= event_index ev < i + len goals /\
                      call_of (event_index ev) ev) new.
Proof.
  induction goals as [|goal goals IH]; intros i st log r log'; simpl.
  - unfold ret. intros [= <- <-]. exists []. rewrite app_nil_r. split; constructor.
  - unfold bind. destruct (goal_step i goal st log) as [r1 log1] eqn:E1.
    destruct (planGoal_log _ _ _ _ _ _ E1) as (new1 & -> & H1).
    assert (G1 : Forall (fun ev => i <= event_index ev < i + len (goal :: goals) /\
                                   call_of (event_index ev) ev) new1).
    { eapply Forall_impl; [exact H1|]. intros ev Hev. pose proof Hev as [Hi _].
      rewrite Hi. split; [unfold len; simpl; lia|assumption]. }
    destruct r1 as [st1| |]; try (intros [= <- <-]; eauto).
    intros H. destruct (IH _ _ _ _ _ H) as (new2 & -> & H2).
    exists (new1 ++ new2). split; [rewrite app_assoc; reflexivity|].
    apply Forall_app. split; [assumption|].
    eapply Forall_impl; [exact H2|]. intros ev [Hi Hc]. split; [|assumption].
    unfold len in *. simpl. lia.
Qed.

Lemma planGoals_app pre post : forall i st log,
  goal_loop i (pre ++ post) st log =
    match goal_loop i pre st log with
    | (Ok st', log') => goal_loop (i + len pre) post st' log'
    | (Err e, log') => (Err e, log')
    | (Panic, log') => (Panic, log')
    end.
Proof.
  induction pre as [|goal pre IH]; intros i st log; simpl.
  - unfold ret. rewrite Z.add_0_r. reflexivity.
  - unfold bind. destruct (goal_step i goal st log) as [[st1| |] log1]; try reflexivity.
    rewrite IH. replace (i + 1 + len pre) with (i + len (goal :: pre)); [reflexivity|].
    unfold len. simpl. lia.
Qed.

(** A goal whose solver frame has no degree of freedom fails before the
    planner of the goal is constructed. *)
Lemma planGoal_zero_DoF i goal steps seedMap log sf :
  newSolverFrame fs solveFrameList (Parent goal) seedMap = Ok sf ->
  len (sf_DoF sf) = 0 ->
  goal_step i goal (steps, seedMap) log = (Err errNoDoF, log).
Proof.
  intros Hsf Hdof. unfold planGoal, bind, lift. rewrite Hsf, Hdof. reflexivity.
Qed.

End Loop.

Section Calls.
Context {Pose : Type} `{C : Collaborators Pose}.

Lemma selectOpts_single (goals : list (@PoseInFrame Pose)) (cfg : gmap string iface) :
  selectOpts goals [cfg] = Ok (replicate (length goals) cfg).
Proof.
  unfold selectOpts. change (len [cfg]) with 1.
  destruct (Z.eqb_spec 1 (len goals)) as [E|E]; simpl.
  - unfold len in E. destruct goals as [|g [|g' goals]]; simpl in *; try lia. reflexivity.
  - f_equal. clear E. induction goals as [|g goals IH]; simpl; [reflexivity|].
    rewrite IH. reflexivity.
Qed.

Lemma index_replicate {A : Type} (n : nat) (x : A) (i : Z) (y : A) :
  index (replicate n x) i = Ok y -> y = x.
Proof.
  unfold index. destruct (0 <=? i); [|discriminate].
  destruct (replicate n x !! Z.to_nat i) as [z|] eqn:E; [|discriminate].
  intros [= <-]. apply lookup_replicate in E. tauto.
Qed.

(** With a single option map supplied, every invocation of a planner is
    made with it. *)
Lemma single_config_calls goals f seedMap fs ws cfg r log :
  motionPlanInternal goals f seedMap fs ws [cfg] [] = (r, log) ->
  Forall (event_uses cfg) log.
Proof.
  unfold motionPlanInternal, bind, lift, ret.
  destruct (len goals =? 0); [intros [= <- <-]; constructor|].
  destruct (fs_Frame fs (Name f)) as [solveFrame|]; [|intros [= <- <-]; constructor].
  destruct (fs_TracebackFrame fs solveFrame) as [sfl| |];
    try (intros [= <- <-]; constructor).
  rewrite selectOpts_single.
  destruct (planGoals fs sfl ws (replicate (length goals) cfg) 0 goals ([], seedMap) [])
    as [r1 log1] eqn:E.
  destruct (planGoals_log _ _ _ _ _ _ _ _ _ _ E) as (new & -> & Hnew).
  intros H. assert (log = [] ++ new) as -> by (destruct r1; injection H; auto).
  simpl. eapply Forall_impl; [exact Hnew|].
  intros ev [Hrange [_ Hcall]].
  destruct (index_total (replicate (length goals) cfg) (event_index ev)) as [c Ei].
  { unfold len in *. rewrite length_replicate. lia. }
  pose proof (index_replicate _ _ _ _ Ei) as ->. apply Hcall. exact Ei.
Qed.

(** The loop fails at a goal without degrees of freedom, with the record
    of planner calls as the earlier goals left it. *)
Lemma zero_DoF_core pre goal post f seedMap fs ws motionConfigs
    solveFrame solveFrameList opts steps seedMap' log sf :
  fs_Frame fs (Name f) = Some solveFrame ->
  fs_TracebackFrame fs solveFrame = Ok solveFrameList ->
  selectOpts (pre ++ goal :: post) motionConfigs = Ok opts ->
  planGoals fs solveFrameList ws opts 0 pre ([], seedMap) [] = (Ok (steps, seedMap'), log) ->
  newSolverFrame fs solveFrameList (Parent goal) seedMap' = Ok sf ->
  len (sf_DoF sf) = 0 ->
  motionPlanInternal (pre ++ goal :: post) f seedMap fs ws motionConfigs []
    = (Err errNoDoF, log) /\
  Forall (fun ev => event_index ev < len pre) log.
Proof.
  intros Hf Ht Ho Hpre Hsf Hdof. split.
  - unfold motionPlanInternal, bind, lift.
    assert (Hlen : (len (pre ++ goal :: post) =? 0) = false).
    { apply Z.eqb_neq. unfold len. rewrite length_app. simpl. lia. }
    rewrite Hlen, Hf, Ht, Ho, planGoals_app, Hpre. cbn -[planGoal]. unfold bind.
    rewrite (planGoal_zero_DoF _ _ _ _ _ _ _ _ _ sf Hsf Hdof). reflexivity.
  - destruct (planGoals_log _ _ _ _ _ _ _ _ _ _ Hpre) as (new & -> & Hnew).
    simpl. eapply Forall_impl; [exact Hnew|]. intros ev [Hrange _]. lia.
Qed.

End Calls.


(** The end-to-end scenario: PlanFrameMotion on a frame whose solver frame
    has no degree of freedom fails without any planner call. *)
Lemma PlanFrameMotion_zero_DoF {Pose : Type} `{C : Collaborators Pose}
    (dst : Pose) (f : Frame Pose) (seed : Inputs) (planningOpts : gmap string iface)
    (fs : FrameSystem) (solveFrame : Frame Pose) (solveFrameList : list (Frame Pose))
    (sf : solverFrame) :
  fs_AddFrame (NewEmptySimpleFrameSystem "") f (fs_World (NewEmptySimpleFrameSystem ""))
    = Ok fs ->
  fs_Frame fs (Name f) = Some solveFrame ->
  fs_TracebackFrame fs solveFrame = Ok solveFrameList ->
  newSolverFrame fs solveFrameList World {[ Name f := seed ]} = Ok sf ->
  len (sf_DoF sf) = 0 ->
  PlanFrameMotion dst f seed planningOpts [] = (Err errNoDoF, []).
Proof.
  intros Ha Hf Ht Hsf Hdof. unfold PlanFrameMotion, bind, lift. rewrite Ha.
  destruct (zero_DoF_core [] (NewPoseInFrame World dst) [] f {[ Name f := seed ]} fs None
              [planningOpts] solveFrame solveFrameList [planningOpts] []
              {[ Name f := seed ]} [] sf Hf Ht Logic.eq_refl Logic.eq_refl Hsf Hdof)
    as [H _].
  simpl in H. rewrite H. reflexivity.
Qed.


(** C8, as amended: a single motion config supplied is the option map of
    every goal, whatever the number of goals, and every planner invocation
    is made with it; and if the goal list is not empty, the frame and its
    traceback are found in the frame system, and the number of motion configs
    is neither zero, nor one, nor the number of goals, the call fails with
    errDifferentLengths before any goal is processed. *)
Theorem motion_configs_selection {Pose : Type} `{C : Collaborators Pose}
    (goals : list PoseInFrame) (f : Frame Pose) (seedMap : gmap string Inputs)
    (fs : FrameSystem) (ws : option WorldState)
    (motionConfigs : list (gmap string iface)) :
  (forall cfg r log,
      motionConfigs = [cfg] ->
      motionPlanInternal goals f seedMap fs ws motionConfigs [] = (r, log) ->
      selectOpts goals motionConfigs = Ok (replicate (length goals) cfg) /\
      Forall (event_uses cfg) log) /\
  (forall solveFrame solveFrameList,
      goals <> [] ->
      fs_Frame fs (Name f) = Some solveFrame ->
      fs_TracebackFrame fs solveFrame = Ok solveFrameList ->
      len motionConfigs <> 0 -> len motionConfigs <> 1 ->
      len motionConfigs <> len goals ->
      motionPlanInternal goals f seedMap fs ws motionConfigs []
        = (Err errDifferentLengths, [])).
Proof.
  split.
  - intros cfg r log -> H. split; [apply selectOpts_single|].
    eapply single_config_calls. exact H.
  - intros solveFrame sfl Hg Hf Ht H0 H1 Hn.
    unfold motionPlanInternal, bind, lift.
    assert (Hlen : (len goals =? 0) = false).
    { apply Z.eqb_neq. unfold len. destruct goals; [congruence|simpl; lia]. }
    rewrite Hlen, Hf, Ht. unfold selectOpts.
    destruct (Z.eqb_spec (len motionConfigs) (len goals)); [contradiction|]. simpl.
    assert (Hpos : 2 <= len motionConfigs) by (unfold len in *; lia).
    destruct (len motionConfigs) as [|[p|p|]|p]; try lia; reflexivity.
Qed.

Lemma motion_configs_selection_witness :
  (selectOpts (C := Scenario.collaborators) [Scenario.goal_arm; Scenario.goal_arm]
     [Scenario.cfg1] = Ok (replicate 2 Scenario.cfg1) /\
   Forall (event_uses Scenario.cfg1) (Scenario.calls_first ++ Scenario.calls_second)) /\
  motionPlanInternal (C := Scenario.collaborators)
    [Scenario.goal_arm; Scenario.goal_arm; Scenario.goal_arm] Scenario.arm
    Scenario.seedMap0 Scenario.arm_system None [Scenario.cfg1; Scenario.cfg2] []
  = (Err errDifferentLengths, []).
Proof.
  split.
  - apply (proj1 (motion_configs_selection (C := Scenario.collaborators)
                    [Scenario.goal_arm; Scenario.goal_arm]
                    Scenario.arm Scenario.seedMap0 Scenario.arm_system None [Scenario.cfg1])
             Scenario.cfg1 (Ok [Scenario.seedMap1; Scenario.seedMap1])).
    + reflexivity.
    + vm_compute. reflexivity.
  - apply (proj2 (motion_configs_selection (C := Scenario.collaborators)
                    [Scenario.goal_arm; Scenario.goal_arm; Scenario.goal_arm]
                    Scenario.arm Scenario.seedMap0 Scenario.arm_system None
                    [Scenario.cfg1; Scenario.cfg2])
             Scenario.arm [Scenario.arm]).
    + discriminate.
    + reflexivity.
    + reflexivity.
    + unfold len. simpl. lia.
    + unfold len. simpl. lia.
    + unfold len. simpl. lia.
Defined.

(** C8 fails as stated: with two motion configs and no goal, and with two
    motion configs, three goals and a frame that the frame system does not
    hold, the number of configs is neither zero, nor one, nor the number of
    goals, and the call fails with another error. *)
Lemma motion_configs_other_errors :
  (len [Scenario.cfg1; Scenario.cfg2] <> 0 /\ len [Scenario.cfg1; Scenario.cfg2] <> 1 /\
   len [Scenario.cfg1; Scenario.cfg2] <> len (@nil (@PoseInFrame Scenario.Pose)) /\
   motionPlanInternal (C := Scenario.collaborators) [] Scenario.arm Scenario.seedMap0 Scenario.arm_system None
     [Scenario.cfg1; Scenario.cfg2] []
   = (Err errNoDestinations, []) /\
   errNoDestinations <> errDifferentLengths) /\
  (len [Scenario.cfg1; Scenario.cfg2]
     <> len [Scenario.goal_arm; Scenario.goal_arm; Scenario.goal_arm] /\
   motionPlanInternal (C := Scenario.collaborators) [Scenario.goal_arm; Scenario.goal_arm; Scenario.goal_arm]
     Scenario.arm Scenario.seedMap0 [] None [Scenario.cfg1; Scenario.cfg2] []
   = (Err (NewFrameMissingError (Collaborators := Scenario.collaborators) "arm"), []) /\
   NewFrameMissingError (Collaborators := Scenario.collaborators) "arm" <> errDifferentLengths).
Proof.
  unfold len. simpl. repeat split; try lia; try reflexivity; discriminate.
Qed.

End OrchestratorFacts.

(** * Further properties of the code *)

(** ** The search: termination, cancellation, provenance of the result *)

Module SearchExtras.
Import Float64Facts FloatMapFacts SortFacts SearchFacts.

Section Search.
Context {Pose : Type}.
Variable fixOvIncrement : Pose -> Pose -> Pose.
Variable defaultSolutionsToSeed : Z.
Variable errIKSolve : error.
Variable genIKConstraintErr : gmap string Z -> Z -> error.
Variable mp : planner Pose.
Variable opts : plannerOptions Pose.
Variables goal seedPos : Pose.
Variable seed : Inputs.
Variable polls : list Poll.

Local Abbreviation goalPos := (fixOvIncrement goal seedPos).
Local Abbreviation limit := (searchLimit defaultSolutionsToSeed opts).
Local Abbreviation body := (onCandidate opts (frame mp) seedPos goalPos seed limit).
Local Abbreviation loop := (IKloop opts (frame mp) seedPos goalPos seed limit).
Local Abbreviation Reached := (reached fixOvIncrement defaultSolutionsToSeed mp opts goal seedPos seed).
Local Abbreviation Accepted := (accepted fixOvIncrement mp opts goal seedPos seed).
Local Abbreviation FoundAt := (found_at fixOvIncrement defaultSolutionsToSeed mp opts goal seedPos seed).


(** An invariant of the iterations holds of the state with which the loop
    breaks, and the loop executes no iteration after the break. *)
Lemma break_invariant (P : nat -> IKstate -> Prop) st :
  P 0%nat IKinit ->
  (forall n st step st' stop,
      polls !! n = Some (Candidate step) -> Reached polls n -> P n st ->
      body st step = (st', stop) -> P (S n) st') ->
  (forall n st p,
      polls !! n = Some p -> (forall step, p <> Candidate step) -> P n st -> P (S n) st) ->
  loop IKinit polls = BreakIK st ->
  exists N, P N st /\ forall j, (N <= j)%nat -> ~ Reached polls j.
Proof.
  intros H0 Hc Ho Hl.
  destruct (loop_break_inv _ _ _ _ _ _ _ _ _ _ Hl) as (n & p & st1 & Hp & Hl1 & Hx).
  assert (Hn : (n <= length polls)%nat) by (apply lookup_lt_Some in Hp; lia).
  assert (Hi : P n st1).
  { revert Hn Hl1. generalize n st1.
    apply (loop_invariant fixOvIncrement defaultSolutionsToSeed mp opts goal seedPos seed P).
    - exact H0.
    - intros k st0 step st' Hk Hlk HP Hb. eapply Hc; eauto; exists st0; exact Hlk.
    - intros k st0 Hk Hlk HP. eapply Ho; eauto; discriminate. }
  exists (S n). split.
  - destruct Hx as [[-> ->]|(step & -> & Hb)].
    + eapply Ho; eauto; discriminate.
    + eapply Hc; eauto; exists st1; exact Hl1.
  - intros j Hj [stj Hr]. revert Hr.
    apply (loop_left fixOvIncrement defaultSolutionsToSeed mp opts goal seedPos seed)
      with (n := S n); [|assumption].
    intros st2.
    rewrite (loop_take_S fixOvIncrement defaultSolutionsToSeed mp opts goal seedPos seed
               _ _ _ _ Hp), Hl1.
    destruct Hx as [[-> ->]|(step & -> & Hb)]; simpl; [discriminate|].
    rewrite Hb. discriminate.
Qed.

(** Every entry of the map with which the loop breaks was received and
    accepted at the cost that is its key, and no two keys are [==]. *)
Lemma break_entries st :
  loop IKinit polls = BreakIK st ->
  distinct_keys (FloatMap.keys (solutions st)) /\
  forall k v, In (k, v) (solutions st) -> exists i, FoundAt polls i v k.
Proof.
  intros Hl.
  destruct (break_invariant
              (fun _ st => distinct_keys (FloatMap.keys (solutions st)) /\
                           forall k v, In (k, v) (solutions st) ->
                                       exists i, FoundAt polls i v k) st) as (N & H & _);
    try assumption.
  - split; [constructor|intros k v []].
  - intros n st0 step st' stop Hp Hr [Hd He] Hb.
    destruct (body_cases fixOvIncrement defaultSolutionsToSeed mp opts goal seedPos seed
                st0 step) as [(name & _ & Hb')|[(c & Ha & _ & Hb')|(c & Ha & _ & Hb')]];
      rewrite Hb' in Hb; injection Hb as <- _; simpl.
    + auto.
    + split; [repeat constructor|].
      intros k v [[= <- <-]|[]]. exists n. repeat split; assumption.
    + split; [apply assign_distinct; assumption|].
      intros k v Hin. destruct (assign_In _ _ _ _ _ Hd Hin) as [[= -> ->]|[Hin' _]].
      * exists n. repeat split; assumption.
      * auto.
  - auto.
Qed.

Lemma get_NaN (m : FloatMap.t Inputs) (k : float64) :
  Float64.isNaN k = true -> FloatMap.get m k = None.
Proof.
  intros Hk. induction m as [|[k' v'] m IH]; simpl; [reflexivity|].
  destruct (Float64.eq k' k) eqn:E; [|exact IH].
  apply eq_not_NaN in E. destruct E as [_ E]. congruence.
Qed.

Lemma assign_keys_cover (m : FloatMap.t Inputs) (k0 : float64) (v : Inputs) (k : float64) :
  In k (FloatMap.keys m) ->
  In k (FloatMap.keys (FloatMap.assign m k0 v)) \/ Float64.eq k k0 = true.
Proof.
  induction m as [|[k' v'] m IH]; simpl; [intros []|].
  destruct (Float64.eq k' k0) eqn:E; simpl.
  - intros [<-|H]; auto.
  - intros [<-|H]; [auto|]. destruct (IH H); auto.
Qed.

(** Without the early exit, every candidate accepted at a cost that is a
    number keeps a key [==] to its cost in the map. *)
Lemma break_covers st :
  Float64.gt (MinScore opts) Float64.zero = false ->
  loop IKinit polls = BreakIK st ->
  forall i step c, FoundAt polls i step c -> Float64.isNaN c = false ->
    exists k, In k (FloatMap.keys (solutions st)) /\ Float64.eq k c = true.
Proof.
  intros Hmin Hl.
  destruct (break_invariant
              (fun n st => forall i step c, (i < n)%nat -> FoundAt polls i step c ->
                             Float64.isNaN c = false ->
                             exists k, In k (FloatMap.keys (solutions st)) /\
                                       Float64.eq k c = true) st) as (N & H & Hleft);
    try assumption.
  - intros i step c Hi. lia.
  - intros n st0 step st' stop Hp Hr IH Hb i step' c Hi Hf Hc.
    destruct (body_cases fixOvIncrement defaultSolutionsToSeed mp opts goal seedPos seed
                st0 step) as [(name & Hrej & Hb')|[(c0 & Ha & Hg & Hb')|(c0 & Ha & Hg & Hb')]];
      rewrite Hb' in Hb; injection Hb as <- _; simpl.
    + destruct (decide (i = n)) as [->|Hne].
      * destruct (found_at_step fixOvIncrement defaultSolutionsToSeed mp opts goal seedPos
                    seed polls _ _ _ _ Hp Hf) as [_ Ha].
        rewrite (accepted_not_rejected fixOvIncrement mp opts goal seedPos seed _ _ Ha) in Hrej.
        discriminate.
      * apply (IH i step' c); [lia|assumption|assumption].
    + unfold good_enough in Hg. rewrite Hmin, andb_false_r in Hg. discriminate.
    + destruct (decide (i = n)) as [->|Hne].
      * destruct (found_at_step fixOvIncrement defaultSolutionsToSeed mp opts goal seedPos
                    seed polls _ _ _ _ Hp Hf) as [_ Ha'].
        rewrite (accepted_fun fixOvIncrement mp opts goal seedPos seed _ _ _ Ha' Ha).
        exists c0. split; [apply (In_keys _ c0 step), assign_In_new|].
        rewrite eq_refl_iff.
        rewrite <- (accepted_fun fixOvIncrement mp opts goal seedPos seed _ _ _ Ha' Ha).
        rewrite Hc. reflexivity.
      * destruct (IH i step' c) as (k & Hk & Hkc); [lia|assumption|assumption|].
        destruct (assign_keys_cover (solutions st0) c0 step k Hk) as [Hin|Heq].
        -- eauto.
        -- exists c0. split; [apply (In_keys _ c0 step), assign_In_new|].
           rewrite eq_sym in Heq. exact (eq_trans _ _ _ Heq Hkc).
  - intros n st0 p Hp Hne IH i step c Hi Hf Hc.
    destruct (decide (i = n)) as [->|Hni].
    + destruct Hf as (Hp' & _). rewrite Hp in Hp'. injection Hp' as ->.
      exfalso. eapply Hne. reflexivity.
    + apply (IH i step c); [lia|assumption|assumption].
  - intros i step c Hf Hc. destruct (le_lt_dec N i) as [Hge|Hlt].
    + exfalso. destruct Hf as (_ & Hr & _). exact (Hleft i Hge Hr).
    + eauto.
Qed.

End Search.





(** X3: an iteration that finds the caller's context done makes the call
    return the context's error, whatever was collected before. *)
Theorem getSolutions_cancellation {Pose : Type}
    (fixOvIncrement : Pose -> Pose -> Pose) (defaultSolutionsToSeed : Z)
    (errIKSolve : error) (genIKConstraintErr : gmap string Z -> Z -> error)
    (mp : planner Pose) (opts : plannerOptions Pose) (goal seedPos : Pose)
    (seed : Inputs) (polls : list Poll) (i : nat) (e : error) :
  planOpts mp = Some opts ->
  Transform (frame mp) seed = Ok seedPos ->
  polls !! i = Some (CtxDone e) ->
  reached fixOvIncrement defaultSolutionsToSeed mp opts goal seedPos seed polls i ->
  getSolutions fixOvIncrement defaultSolutionsToSeed errIKSolve genIKConstraintErr
    mp goal seed polls = Some (Err e).
Proof. intros. eapply getSolutions_cancelled; eassumption. Qed.

Lemma getSolutions_cancellation_witness :
  getSolutions Scenario.fixOvIncrement Scenario.defaultSolutionsToSeed Scenario.errIKSolve
    Scenario.genIKConstraintErr Scenario.mp_any Scenario.goal0 Scenario.seed0
    [Candidate [Scenario.joint Float64.f1]; Idle; CtxDone (errors_New "context canceled");
     SolverDone]
  = Some (Err (errors_New "context canceled")).
Proof.
  apply (getSolutions_cancellation Scenario.fixOvIncrement Scenario.defaultSolutionsToSeed
           Scenario.errIKSolve Scenario.genIKConstraintErr Scenario.mp_any
           (Scenario.options Scenario.check_any 0 Float64.zero 0)
           Scenario.goal0 Scenario.seed0 Scenario.seed0 _ 2%nat).
  - reflexivity.
  - reflexivity.
  - reflexivity.
  - eexists. vm_compute. reflexivity.
Defined.

(** X4: every cost node of a successful result carries the score of a
    candidate that the loop received and accepted, and that candidate's
    configuration, unless the score is NaN: a NaN key is not found again and
    the node's configuration is nil. *)
Theorem getSolutions_result_provenance {Pose : Type}
    (fixOvIncrement : Pose -> Pose -> Pose) (defaultSolutionsToSeed : Z)
    (errIKSolve : error) (genIKConstraintErr : gmap string Z -> Z -> error)
    (mp : planner Pose) (opts : plannerOptions Pose) (goal seedPos : Pose)
    (seed : Inputs) (polls : list Poll) (sols : list costNode) :
  planOpts mp = Some opts ->
  Transform (frame mp) seed = Ok seedPos ->
  getSolutions fixOvIncrement defaultSolutionsToSeed errIKSolve genIKConstraintErr
    mp goal seed polls = Some (Ok sols) ->
  forall n, In n sols ->
    exists i step,
      found_at fixOvIncrement defaultSolutionsToSeed mp opts goal seedPos seed polls
        i step (cost n) /\
      cn_q n = if Float64.isNaN (cost n) then [] else step.
Proof.
  intros Ho Ht Hg n Hin.
  destruct (getSolutions_Ok_inv fixOvIncrement defaultSolutionsToSeed errIKSolve
              genIKConstraintErr mp opts goal seedPos seed polls sols Ho Ht Hg)
    as (st & Hl & _ & ->).
  destruct (break_entries fixOvIncrement defaultSolutionsToSeed mp opts goal seedPos seed
              polls st Hl) as [Hd He].
  unfold orderedSolutions in Hin. apply in_map_iff in Hin.
  destruct Hin as (key & <- & Hk). apply (proj1 (sort_In _ _)) in Hk. simpl.
  destruct (keys_In _ _ Hk) as [v Hv]. destruct (He key v Hv) as [i Hf].
  exists i, v. split; [assumption|].
  destruct (Float64.isNaN key) eqn:E.
  - rewrite get_NaN by assumption. reflexivity.
  - rewrite (get_In _ key v Hd E Hv). reflexivity.
Qed.

Lemma getSolutions_result_provenance_witness :
  Forall (fun n =>
    exists i step,
      found_at Scenario.fixOvIncrement Scenario.defaultSolutionsToSeed Scenario.mp_any
        (Scenario.options Scenario.check_any 0 Float64.zero 0)
        Scenario.goal0 Scenario.seed0 Scenario.seed0 Scenario.polls_NaN i step (cost n) /\
      cn_q n = if Float64.isNaN (cost n) then [] else step) Scenario.sols_NaN.
Proof.
  apply List.Forall_forall.
  apply (getSolutions_result_provenance Scenario.fixOvIncrement
           Scenario.defaultSolutionsToSeed Scenario.errIKSolve Scenario.genIKConstraintErr
           Scenario.mp_any (Scenario.options Scenario.check_any 0 Float64.zero 0)
           Scenario.goal0 Scenario.seed0 Scenario.seed0 Scenario.polls_NaN Scenario.sols_NaN).
  - reflexivity.
  - reflexivity.
  - vm_compute. reflexivity.
Defined.

(** X5: when no minimum score is configured (MinScore is not above 0), no
    accepted candidate is lost but by the collapse of equal costs: every
    candidate that the loop received and accepted at a cost that is a number
    has a cost node of numerically equal cost in a successful result. *)
Theorem getSolutions_result_complete {Pose : Type}
    (fixOvIncrement : Pose -> Pose -> Pose) (defaultSolutionsToSeed : Z)
    (errIKSolve : error) (genIKConstraintErr : gmap string Z -> Z -> error)
    (mp : planner Pose) (opts : plannerOptions Pose) (goal seedPos : Pose)
    (seed : Inputs) (polls : list Poll) (sols : list costNode) :
  planOpts mp = Some opts ->
  Transform (frame mp) seed = Ok seedPos ->
  Float64.gt (MinScore opts) Float64.zero = false ->
  getSolutions fixOvIncrement defaultSolutionsToSeed errIKSolve genIKConstraintErr
    mp goal seed polls = Some (Ok sols) ->
  forall i step c,
    found_at fixOvIncrement defaultSolutionsToSeed mp opts goal seedPos seed polls i step c ->
    Float64.isNaN c = false ->
    exists n, In n sols /\ Float64.eq (cost n) c = true.
Proof.
  intros Ho Ht Hmin Hg i step c Hf Hc.
  destruct (getSolutions_Ok_inv fixOvIncrement defaultSolutionsToSeed errIKSolve
              genIKConstraintErr mp opts goal seedPos seed polls sols Ho Ht Hg)
    as (st & Hl & _ & ->).
  destruct (break_covers fixOvIncrement defaultSolutionsToSeed mp opts goal seedPos seed
              polls st Hmin Hl i step c Hf Hc) as (k & Hk & Hkc).
  exists (newCostNode (default [] (FloatMap.get (solutions st) k)) k). split; [|exact Hkc].
  unfold orderedSolutions. apply in_map_iff. exists k. split; [reflexivity|].
  apply sort_In. exact Hk.
Qed.

Lemma getSolutions_result_complete_witness :
  exists n, In n Scenario.sols_dup /\ Float64.eq (cost n) Float64.f2 = true.
Proof.
  apply (getSolutions_result_complete Scenario.fixOvIncrement
           Scenario.defaultSolutionsToSeed Scenario.errIKSolve Scenario.genIKConstraintErr
           Scenario.mp_number (Scenario.options Scenario.check_number 0 Float64.zero 0)
           Scenario.goal0 Scenario.seed0 Scenario.seed0 Scenario.polls_dup Scenario.sols_dup
           ltac:(reflexivity) ltac:(reflexivity) ltac:(reflexivity)
           ltac:(vm_compute; reflexivity)
           0%nat [Scenario.joint Float64.f2; Scenario.joint Float64.f0_25] Float64.f2).
  - split; [reflexivity|]. split.
    + eexists. vm_compute. reflexivity.
    + exists "number", Float64.f2, "number". split; reflexivity.
  - reflexivity.
Defined.

End SearchExtras.

(** ** Path smoothing: what an iteration can do to the path *)

Module SmoothExtras.
Import SliceFacts SmoothFacts.

Section Smooth.
Context {Pose : Type}.
Variable InterpolateInputs : Inputs -> Inputs -> float64 -> Inputs.
Variable mp : planner Pose.

(** An iteration leaves the path as it is or splices a shortcut between two
    edges [i < j]. *)
Lemma smoothIteration_shape rs path p1 rs1 :
  smoothIteration InterpolateInputs mp rs path = Ok (p1, rs1) ->
  p1 = path \/
  exists i j w1 w2,
    0 <= i /\ i < j /\ j <= len path - 2 /\
    checkPath mp w1 w2 = Ok true /\
    p1 = take (Z.to_nat (i + 1)) path ++ [basicNode w1; basicNode w2]
           ++ drop (Z.to_nat (j + 1)) path.
Proof.
  unfold smoothIteration.
  destruct (drawEdges rs path) as [[[i j] rs0]| |] eqn:He; try discriminate. simpl.
  destruct (drawEdges_inv _ _ _ _ _ He) as (Hi & Hij & Hj).
  destruct (drawWaypoint InterpolateInputs rs0 path i) as [[w1 rs2]| |]; try discriminate.
  simpl.
  destruct (drawWaypoint InterpolateInputs rs2 path j) as [[w2 rs3]| |]; try discriminate.
  simpl.
  destruct (checkPath mp w1 w2) as [[|]| |] eqn:Hc; try discriminate; simpl.
  - rewrite splice_Ok by assumption. simpl. intros [= <- _].
    right. exists i, j, w1, w2. auto 10.
  - intros [= <- _]. left. reflexivity.
Qed.

Lemma splice_length path i j w1 w2 :
  0 <= i -> i < j -> j <= len path - 2 ->
  len (take (Z.to_nat (i + 1)) path ++ [basicNode w1; basicNode w2]
         ++ drop (Z.to_nat (j + 1)) path) = len path + 2 + i - j.
Proof.
  unfold len. intros Hi Hij Hj.
  rewrite !length_app, length_take_le, length_drop by lia. simpl. lia.
Qed.

Lemma splice_kept_or_new path i j w1 w2 :
  Forall (kept_or_new path)
    (take (Z.to_nat (i + 1)) path ++ [basicNode w1; basicNode w2]
       ++ drop (Z.to_nat (j + 1)) path).
Proof.
  rewrite List.Forall_forall. intros n Hn.
  apply in_app_or in Hn. destruct Hn as [Hn|Hn].
  - left. apply list_elem_of_In. eapply (subseteq_take _ path). apply list_elem_of_In. exact Hn.
  - apply in_app_or in Hn. destruct Hn as [[<-|[<-|[]]]|Hn].
    + right. eauto.
    + right. eauto.
    + left. apply list_elem_of_In. eapply (subseteq_drop _ path). apply list_elem_of_In.
      exact Hn.
Qed.

Lemma kept_or_new_trans path p1 n :
  Forall (kept_or_new path) p1 -> kept_or_new p1 n -> kept_or_new path n.
Proof.
  intros Hall [Hin|Hnew]; [|right; assumption].
  rewrite List.Forall_forall in Hall. auto.
Qed.

(** What the loop does to a path of at least three nodes. *)
Lemma smoothLoop_effect ctxDone n : forall i rs path path' rs',
  3 <= len path ->
  smoothLoop InterpolateInputs mp ctxDone n i rs path = Ok (path', rs') ->
  len path' <= len path + Z.of_nat n /\
  (path' = path \/ 4 <= len path') /\
  Forall (kept_or_new path) path'.
Proof.
  induction n as [|n IH]; intros i rs path path' rs' Hlen; simpl.
  - intros [= <- _]. split; [lia|]. split; [auto|].
    rewrite List.Forall_forall. intros x Hx. left. exact Hx.
  - destruct (ctxDone i).
    + intros [= <- _]. split; [lia|]. split; [auto|].
      rewrite List.Forall_forall. intros x Hx. left. exact Hx.
    + destruct (smoothIteration InterpolateInputs mp rs path) as [[p1 rs1]| |] eqn:E;
        try discriminate. simpl.
      intros H. destruct (smoothIteration_shape _ _ _ _ E) as [->|(a & b & w1 & w2 & Ha & Hab & Hb & _ & ->)].
      * destruct (IH _ _ _ _ _ Hlen H) as (H1 & H2 & H3). split; [lia|]. auto.
      * pose proof (splice_length path a b w1 w2 Ha Hab Hb) as Hl.
        assert (Hl3 : 3 <= len (take (Z.to_nat (a + 1)) path ++ [basicNode w1; basicNode w2]
                                  ++ drop (Z.to_nat (b + 1)) path)) by lia.
        destruct (IH _ _ _ _ _ Hl3 H) as (H1 & H2 & H3).
        split; [lia|]. split.
        -- right. destruct H2 as [->|H2]; lia.
        -- rewrite List.Forall_forall in *. intros x Hx.
           eapply kept_or_new_trans; [|exact (H3 x Hx)].
           apply splice_kept_or_new.
Qed.

(** While the path check rejects, the loop returns the path it was given. *)
Lemma smoothLoop_rejecting opts ctxDone n : forall i rs path,
  planOpts mp = Some opts ->
  (forall ci r, fst (CheckConstraintPath opts ci r) = false) ->
  3 <= len path ->
  exists rs', smoothLoop InterpolateInputs mp ctxDone n i rs path = Ok (path, rs').
Proof.
  intros i rs path Ho Hrej Hlen. revert i rs.
  induction n as [|n IH]; intros i rs; simpl; [eauto|].
  destruct (ctxDone i); [eauto|].
  destruct (smoothIteration_ends InterpolateInputs mp opts rs path Ho Hlen)
    as (p1 & rs1 & E & _).
  rewrite E. simpl.
  destruct (smoothIteration_shape _ _ _ _ E) as [->|(a & b & w1 & w2 & _ & _ & _ & Hc & _)].
  - apply IH.
  - exfalso. unfold checkPath in Hc. rewrite Ho in Hc.
    specialize (Hrej {| StartPos := None; EndPos := None; StartInput := w1;
                        EndInput := w2; CIFrame := frame mp |} (Resolution opts)).
    destruct (CheckConstraintPath opts _ _) as [ok name]. simpl in Hrej. congruence.
Qed.

(** A context found done in iteration [k] ends the loop as a budget of [k]
    iterations does. *)
Lemma smoothLoop_cancelled ctxDone k : forall n i rs path,
  (k <= n)%nat -> ctxDone (i + k)%nat = true ->
  (forall j, (j < k)%nat -> ctxDone (i + j)%nat = false) ->
  smoothLoop InterpolateInputs mp ctxDone n i rs path =
  smoothLoop InterpolateInputs mp never_done k i rs path.
Proof.
  induction k as [|k IH]; intros n i rs path Hkn Hk Hbefore.
  - rewrite Nat.add_0_r in Hk. destruct n; simpl; [reflexivity|]. rewrite Hk. reflexivity.
  - destruct n as [|n]; [lia|]. simpl.
    pose proof (Hbefore 0%nat ltac:(lia)) as H0. rewrite Nat.add_0_r in H0. rewrite H0.
    unfold never_done at 1.
    destruct (smoothIteration InterpolateInputs mp rs path) as [[p1 rs1]| |]; try reflexivity.
    simpl. apply IH; [lia| |].
    + replace (S i + k)%nat with (i + S k)%nat by lia. exact Hk.
    + intros j Hj. replace (S i + j)%nat with (i + S j)%nat by lia. apply Hbefore. lia.
Qed.

Lemma checkPath_set_SmoothIter k w1 w2 :
  checkPath (set_SmoothIter mp k) w1 w2 = checkPath mp w1 w2.
Proof. unfold checkPath, set_SmoothIter. simpl. destruct (planOpts mp); reflexivity. Qed.

Lemma smoothLoop_set_SmoothIter k ctxDone n : forall i rs path,
  smoothLoop InterpolateInputs (set_SmoothIter mp k) ctxDone n i rs path =
  smoothLoop InterpolateInputs mp ctxDone n i rs path.
Proof.
  induction n as [|n IH]; intros i rs path; simpl; [reflexivity|].
  destruct (ctxDone i); [reflexivity|].
  assert (E : smoothIteration InterpolateInputs (set_SmoothIter mp k) rs path =
              smoothIteration InterpolateInputs mp rs path).
  { unfold smoothIteration.
    destruct (drawEdges rs path) as [[[a b] rs0]| |]; try reflexivity. simpl.
    destruct (drawWaypoint InterpolateInputs rs0 path a) as [[w1 rs1]| |]; try reflexivity.
    simpl.
    destruct (drawWaypoint InterpolateInputs rs1 path b) as [[w2 rs2]| |]; try reflexivity.
    simpl. rewrite checkPath_set_SmoothIter. reflexivity. }
  rewrite E. destruct (smoothIteration InterpolateInputs mp rs path) as [[p1 rs1]| |];
    try reflexivity.
  simpl. apply IH.
Qed.

End Smooth.

(** X6: smoothing can lengthen a path by at most one node per iteration of
    its budget, and a path it changes has at least four nodes. *)
Theorem smoothPath_length {Pose : Type}
    (InterpolateInputs : Inputs -> Inputs -> float64 -> Inputs)
    (mp : planner Pose) (opts : plannerOptions Pose) (ctxDone : nat -> bool)
    (path path' : list node) (rs' : Rand) :
  planOpts mp = Some opts ->
  smoothPath InterpolateInputs mp ctxDone path = Ok (path', rs') ->
  len path' <= len path + Z.max 0 (SmoothIter opts) /\
  (path' = path \/ 4 <= len path').
Proof.
  intros Ho. unfold smoothPath. rewrite Ho.
  destruct (Z.leb_spec (len path) 2).
  - intros [= <- _]. split; [lia|auto].
  - intros Hs.
    destruct (smoothLoop_effect InterpolateInputs mp ctxDone _ _ _ path _ _ ltac:(lia) Hs)
      as (H1 & H2 & _).
    split; [lia|assumption].
Qed.

Lemma smoothPath_length_witness :
  len Scenario.path4_smoothed <= len Scenario.path4 + Z.max 0 1 /\
  (Scenario.path4_smoothed = Scenario.path4 \/ 4 <= len Scenario.path4_smoothed).
Proof.
  apply (smoothPath_length Scenario.InterpolateInputs Scenario.mp_smooth
           (Scenario.options Scenario.check_any 0 Float64.zero 1) Scenario.never
           Scenario.path4 Scenario.path4_smoothed
           {| raw := raw (randseed Scenario.mp_smooth); pos := 4 |}).
  - reflexivity.
  - reflexivity.
Defined.

(** X7: if the path check rejects every segment, smoothPath returns the path
    it was given. *)
Theorem smoothPath_rejecting {Pose : Type}
    (InterpolateInputs : Inputs -> Inputs -> float64 -> Inputs)
    (mp : planner Pose) (opts : plannerOptions Pose) (ctxDone : nat -> bool)
    (path : list node) :
  planOpts mp = Some opts ->
  (forall ci r, fst (CheckConstraintPath opts ci r) = false) ->
  exists rs', smoothPath InterpolateInputs mp ctxDone path = Ok (path, rs').
Proof.
  intros Ho Hrej. unfold smoothPath. rewrite Ho.
  destruct (Z.leb_spec (len path) 2); [eauto|].
  apply (smoothLoop_rejecting InterpolateInputs mp opts); [assumption|assumption|lia].
Qed.

Lemma smoothPath_rejecting_witness :
  exists rs',
    smoothPath Scenario.InterpolateInputs ScenarioX.mp_blocked Scenario.never Scenario.path4
    = Ok (Scenario.path4, rs').
Proof.
  eapply smoothPath_rejecting.
  - reflexivity.
  - intros ci r. reflexivity.
Defined.

(** X8: a context found done when iteration [k] polls it, and not before,
    makes smoothPath return what a budget of [k] iterations returns. *)
Theorem smoothPath_cancelled {Pose : Type}
    (InterpolateInputs : Inputs -> Inputs -> float64 -> Inputs)
    (mp : planner Pose) (opts : plannerOptions Pose) (ctxDone : nat -> bool)
    (path : list node) (k : nat) :
  planOpts mp = Some opts ->
  (k <= Z.to_nat (SmoothIter opts))%nat ->
  ctxDone k = true ->
  (forall j, (j < k)%nat -> ctxDone j = false) ->
  smoothPath InterpolateInputs mp ctxDone path =
  smoothPath InterpolateInputs (set_SmoothIter mp (Z.of_nat k)) never_done path.
Proof.
  intros Ho Hk Hd Hb. unfold smoothPath. unfold set_SmoothIter at 1. simpl. rewrite Ho.
  simpl. destruct (len path <=? 2); [reflexivity|].
  rewrite Nat2Z.id, smoothLoop_set_SmoothIter.
  apply smoothLoop_cancelled; assumption.
Qed.

Lemma smoothPath_cancelled_witness :
  smoothPath Scenario.InterpolateInputs ScenarioX.mp_smooth3 ScenarioX.done_at_1 Scenario.path4
  = smoothPath Scenario.InterpolateInputs (set_SmoothIter ScenarioX.mp_smooth3 (Z.of_nat 1))
      never_done Scenario.path4.
Proof.
  apply (smoothPath_cancelled Scenario.InterpolateInputs ScenarioX.mp_smooth3
           ScenarioX.opts_smooth3 ScenarioX.done_at_1 Scenario.path4 1%nat).
  - reflexivity.
  - simpl. lia.
  - reflexivity.
  - intros j Hj. destruct j; [reflexivity|lia].
Defined.



End SmoothExtras.

(** ** The orchestrator: option maps, order of the planner calls, seeds *)

Module OrchestratorExtras.
Import SliceFacts OrchestratorFacts.

Section Loop.
Context {Pose : Type} `{C : Collaborators Pose}.

(** One option map per goal, and no panic in choosing them. *)
Lemma selectOpts_length (goals : list (@PoseInFrame Pose))
    (motionConfigs : list (gmap string iface)) :
  selectOpts goals motionConfigs <> Panic /\
  forall opts, selectOpts goals motionConfigs = Ok opts -> length opts = length goals.
Proof.
  unfold selectOpts.
  destruct (Z.eqb_spec (len motionConfigs) (len goals)) as [E|E]; simpl.
  - split; [discriminate|]. intros opts [= <-]. unfold len in E. lia.
  - destruct motionConfigs as [|c [|c' mc]].
    + simpl. split; [discriminate|]. intros opts [= <-]. apply length_map.
    + simpl. split; [discriminate|]. intros opts [= <-]. apply length_map.
    + assert (H2 : 2 <= len (c :: c' :: mc)) by (unfold len; simpl; lia).
      destruct (len (c :: c' :: mc)) as [|[p|p|]|p]; try lia; split; discriminate.
Qed.

Variable fs : FrameSystem.
Variable solveFrameList : list (Frame Pose).
Variable worldState : option WorldState.
Variable opts : list (gmap string iface).

Local Abbreviation goal_step := (planGoal fs solveFrameList worldState opts).
Local Abbreviation goal_loop := (planGoals fs solveFrameList worldState opts).

Lemma planGoal_no_panic i goal st log :
  collaborators_never_panic -> 0 <= i < len opts ->
  fst (goal_step i goal st log) <> Panic.
Proof.
  intros (Ht & Hsf & Hms & Htr & Hws & Hpm & Hps) Hi.
  unfold planGoal, bind, lift, emit, ret. destruct st as [steps seedMap].
  pose proof (Hsf fs solveFrameList (Parent goal) seedMap) as H1.
  destruct (newSolverFrame fs solveFrameList (Parent goal) seedMap) as [sf| |];
    [|simpl; discriminate|contradiction].
  destruct (len (sf_DoF sf) =? 0); [simpl; discriminate|].
  pose proof (Hms sf seedMap) as H2.
  destruct (sf_mapToSlice sf seedMap) as [seed| |]; [|simpl; discriminate|contradiction].
  pose proof (Htr sf seed) as H3.
  destruct (sf_Transform sf seed) as [startPose| |]; [|simpl; discriminate|contradiction].
  assert (H4 : match worldState with
               | Some ws => pb ← WorldStateToProtobuf ws; Ok (Some pb)
               | None => Ok None
               end <> Panic).
  { destruct worldState as [ws|]; [|discriminate].
    pose proof (Hws ws). destruct (WorldStateToProtobuf ws); simpl; congruence. }
  destruct (match worldState with Some ws => _ | None => _ end) as [wsPb| |];
    [|simpl; discriminate|contradiction].
  destruct (index_total opts i Hi) as [cfg ->].
  pose proof (Hpm sf fs i) as H5.
  destruct (newPlanManager sf fs i) as [pm| |]; [|simpl; discriminate|contradiction].
  pose proof (Hps pm seedMap (PIFPose goal) worldState cfg) as H6.
  destruct (PlanSingleWaypoint pm seedMap (PIFPose goal) worldState cfg) as [slices| |];
    [simpl; discriminate|simpl; discriminate|contradiction].
Qed.

Lemma planGoals_no_panic goals : forall i st log,
  collaborators_never_panic -> 0 <= i -> len opts = i + len goals ->
  fst (goal_loop i goals st log) <> Panic.
Proof.
  induction goals as [|goal goals IH]; intros i st log Hc Hi Hlen; simpl.
  - unfold ret. simpl. discriminate.
  - unfold bind.
    assert (Hr : 0 <= i < len opts) by (unfold len in *; simpl in *; lia).
    pose proof (planGoal_no_panic i goal st log Hc Hr) as Hg.
    destruct (goal_step i goal st log) as [[st1| |] log1]; simpl in *;
      [|discriminate|contradiction].
    apply IH; [assumption|lia|unfold len in *; simpl in *; lia].
Qed.

(** The planner calls of a goal that is planned. *)
Lemma planGoal_Ok_log i goal st log st' log' :
  goal_step i goal st log = (Ok st', log') ->
  exists sf seedMap cfg,
    log' = log ++ [EvNewPlanManager sf i; EvPlanSingleWaypoint i seedMap (PIFPose goal) cfg].
Proof.
  unfold planGoal, bind, lift, emit, ret. destruct st as [steps seedMap].
  destruct (newSolverFrame fs solveFrameList (Parent goal) seedMap) as [sf| |];
    try discriminate.
  destruct (len (sf_DoF sf) =? 0); try discriminate.
  destruct (sf_mapToSlice sf seedMap) as [seed| |]; try discriminate.
  destruct (sf_Transform sf seed) as [startPose| |]; try discriminate.
  destruct (match worldState with Some ws => _ | None => _ end) as [wsPb| |];
    try discriminate.
  destruct (index opts i) as [cfg| |]; try discriminate.
  destruct (newPlanManager sf fs i) as [pm| |]; try discriminate.
  destruct (PlanSingleWaypoint pm seedMap (PIFPose goal) worldState cfg) as [slices| |];
    try discriminate.
  intros [= _ <-]. exists sf, seedMap, cfg.
  rewrite <- app_assoc. reflexivity.
Qed.

Lemma planGoals_Ok_log goals : forall i st log st' log',
  goal_loop i goals st log = (Ok st', log') ->
  exists new, log' = log ++ new /\ goal_calls i goals new.
Proof.
  induction goals as [|goal goals IH]; intros i st log st' log'; simpl.
  - unfold ret. intros [= _ <-]. exists []. rewrite app_nil_r. split; reflexivity.
  - unfold bind. destruct (goal_step i goal st log) as [[st1| |] log1] eqn:E1;
      try discriminate.
    destruct (planGoal_Ok_log _ _ _ _ _ _ E1) as (sf & sm & cfg & ->).
    intros H. destruct (IH _ _ _ _ _ H) as (new & -> & Hnew).
    eexists. split; [rewrite <- app_assoc; reflexivity|].
    simpl. exists sf, sm, cfg, new. split; [reflexivity|assumption].
Qed.

(** The loop variable [seedMap] is the last step of the plan so far, and
    the caller's seed map while the plan has no step; the plan only grows. *)
Lemma planGoal_seed seed0 i goal steps0 sm0 log0 steps sm log :
  goal_step i goal (steps0, sm0) log0 = (Ok (steps, sm), log) ->
  sm0 = default seed0 (last steps0) ->
  sm = default seed0 (last steps) /\ exists more, steps = steps0 ++ more.
Proof.
  unfold planGoal, bind, lift, emit, ret.
  destruct (newSolverFrame fs solveFrameList (Parent goal) sm0) as [sf| |];
    try discriminate.
  destruct (len (sf_DoF sf) =? 0); try discriminate.
  destruct (sf_mapToSlice sf sm0) as [seed| |]; try discriminate.
  destruct (sf_Transform sf seed) as [startPose| |]; try discriminate.
  destruct (match worldState with Some ws => _ | None => _ end) as [wsPb| |];
    try discriminate.
  destruct (index opts i) as [cfg| |]; try discriminate.
  destruct (newPlanManager sf fs i) as [pm| |]; try discriminate.
  destruct (PlanSingleWaypoint pm sm0 (PIFPose goal) worldState cfg) as [slices| |];
    try discriminate.
  intros [= <- <- _] Hsm. split; [|eauto].
  rewrite last_app. destruct (last (map (sf_sliceToMap sf) slices)); simpl; [reflexivity|].
  exact Hsm.
Qed.

Lemma planGoals_seed seed0 goals : forall i steps0 sm0 log0 steps sm log,
  goal_loop i goals (steps0, sm0) log0 = (Ok (steps, sm), log) ->
  sm0 = default seed0 (last steps0) ->
  sm = default seed0 (last steps) /\ exists more, steps = steps0 ++ more.
Proof.
  induction goals as [|goal goals IH]; intros i steps0 sm0 log0 steps sm log;
    cbn -[planGoal].
  - unfold ret. intros [= <- <- _] Hsm. split; [assumption|]. exists []. rewrite app_nil_r.
    reflexivity.
  - unfold bind at 1.
    destruct (goal_step i goal (steps0, sm0) log0) as [[[steps1 sm1]| |] log1] eqn:E1;
      try discriminate.
    intros H Hsm. destruct (planGoal_seed seed0 _ _ _ _ _ _ _ _ E1 Hsm) as (Hsm1 & m1 & ->).
    destruct (IH _ _ _ _ _ _ _ H Hsm1) as (Hsm2 & m2 & ->).
    split; [assumption|]. exists (m1 ++ m2). rewrite app_assoc. reflexivity.
Qed.

End Loop.

Section Calls.
Context {Pose : Type} `{C : Collaborators Pose}.

Lemma map_const_replicate {A B : Type} (c : B) (l : list A) :
  map (fun _ => c) l = replicate (length l) c.
Proof. induction l as [|x l IH]; simpl; [reflexivity|]. rewrite IH. reflexivity. Qed.

Lemma index_replicate_Ok {A : Type} (n : nat) (x : A) (i : Z) :
  0 <= i < Z.of_nat n -> index (replicate n x) i = Ok x.
Proof.
  intros Hi. destruct (index_total (replicate n x) i) as [y Hy].
  - unfold len. rewrite length_replicate. exact Hi.
  - rewrite Hy. f_equal. eapply index_replicate. exact Hy.
Qed.

(** With at most one option map supplied, every goal has the same option
    map, whatever the number of goals. *)
Lemma selectOpts_uniform (motionConfigs : list (gmap string iface)) :
  len motionConfigs <= 1 ->
  exists cfg, forall goals : list (@PoseInFrame Pose),
    selectOpts goals motionConfigs = Ok (replicate (length goals) cfg).
Proof.
  intros Hl. destruct motionConfigs as [|c [|c' mc]].
  - exists ∅. intros goals. unfold selectOpts. change (len []) with 0.
    destruct (Z.eqb_spec 0 (len goals)) as [E|E]; simpl.
    + destruct goals; [reflexivity|unfold len in E; simpl in E; lia].
    + f_equal. apply map_const_replicate.
  - exists c. intros goals. apply selectOpts_single.
  - unfold len in Hl. simpl in Hl. lia.
Qed.

(** A run of the orchestrator that gets to the loop over the goals. *)
Lemma motionPlanInternal_loop goals f seedMap fs ws motionConfigs r log :
  motionPlanInternal goals f seedMap fs ws motionConfigs [] = (r, log) ->
  (log = [] /\ forall steps, r <> Ok steps) \/
  exists sfl opts st,
    goals <> [] /\ selectOpts goals motionConfigs = Ok opts /\
    planGoals fs sfl ws opts 0 goals ([], seedMap) [] = (st, log) /\
    r = match st with Ok st' => Ok (fst st') | Err e => Err e | Panic => Panic end.
Proof.
  unfold motionPlanInternal, bind, lift, ret.
  destruct (Z.eqb_spec (len goals) 0) as [E|E];
    [intros [= <- <-]; left; split; [reflexivity|discriminate]|].
  destruct (fs_Frame fs (Name f)) as [solveFrame|];
    [|intros [= <- <-]; left; split; [reflexivity|discriminate]].
  destruct (fs_TracebackFrame fs solveFrame) as [sfl| |];
    try (intros [= <- <-]; left; split; [reflexivity|discriminate]).
  destruct (selectOpts goals motionConfigs) as [opts| |];
    try (intros [= <- <-]; left; split; [reflexivity|discriminate]).
  destruct (planGoals fs sfl ws opts 0 goals ([], seedMap) []) as [st log1] eqn:El.
  intros H. right. exists sfl, opts, st.
  assert (Hg : goals <> []) by (intros ->; apply E; reflexivity).
  destruct st as [st'| |]; injection H as <- <-; auto.
Qed.



End Calls.

(** The planner calls of a run on one goal with one option map. *)
Lemma motionPlanInternal_single {Pose : Type} `{C : Collaborators Pose}
    (dst : PoseInFrame) (f : Frame Pose) (seedMap : gmap string Inputs)
    (fs : FrameSystem) (ws : option WorldState) (planningOpts : gmap string iface) r log :
  motionPlanInternal [dst] f seedMap fs ws [planningOpts] [] = (r, log) ->
  single_call seedMap (PIFPose dst) planningOpts log.
Proof.
  unfold motionPlanInternal, bind, lift, ret. change (len [dst] =? 0) with false.
  cbv iota.
  destruct (fs_Frame fs (Name f)) as [solveFrame|]; [|intros [= <- <-]; left; reflexivity].
  destruct (fs_TracebackFrame fs solveFrame) as [sfl| |];
    try (intros [= <- <-]; left; reflexivity).
  rewrite selectOpts_single. simpl replicate. cbn -[planGoal]. unfold bind, ret.
  destruct (planGoal fs sfl ws [planningOpts] 0 dst ([], seedMap) []) as [r1 log1] eqn:E.
  intros H. assert (log = log1) as -> by (destruct r1; injection H; auto). clear H.
  revert E. unfold planGoal, bind, lift, emit, ret.
  destruct (newSolverFrame fs sfl (Parent dst) seedMap) as [sf| |];
    try (intros [= <- <-]; left; reflexivity).
  destruct (len (sf_DoF sf) =? 0); try (intros [= <- <-]; left; reflexivity).
  destruct (sf_mapToSlice sf seedMap) as [seed| |];
    try (intros [= <- <-]; left; reflexivity).
  destruct (sf_Transform sf seed) as [startPose| |];
    try (intros [= <- <-]; left; reflexivity).
  destruct (match ws with Some w => _ | None => _ end) as [wsPb| |];
    try (intros [= <- <-]; left; reflexivity).
  change (index [planningOpts] 0) with (Ok planningOpts). cbv iota.
  destruct (newPlanManager sf fs 0) as [pm| |];
    try (intros [= <- <-]; right; left; exists sf; reflexivity).
  destruct (PlanSingleWaypoint pm seedMap (PIFPose dst) ws planningOpts) as [slices| |];
    intros [= <- <-]; right; right; exists sf; reflexivity.
Qed.

(** X10: [opts[i]] is always in range.  If no collaborator panics, the
    orchestrator does not panic, whatever the goals and the motion configs:
    when the loop over the goals is entered there is one option map per
    goal. *)
Theorem motionPlanInternal_never_panics {Pose : Type} `{C : Collaborators Pose}
    (goals : list PoseInFrame) (f : Frame Pose) (seedMap : gmap string Inputs)
    (fs : FrameSystem) (ws : option WorldState)
    (motionConfigs : list (gmap string iface)) :
  collaborators_never_panic ->
  fst (motionPlanInternal goals f seedMap fs ws motionConfigs []) <> Panic.
Proof.
  intros Hc. pose proof Hc as (Ht & _).
  unfold motionPlanInternal, bind, lift, ret.
  destruct (len goals =? 0); [simpl; discriminate|].
  destruct (fs_Frame fs (Name f)) as [solveFrame|]; [|simpl; discriminate].
  pose proof (Ht fs solveFrame) as H1.
  destruct (fs_TracebackFrame fs solveFrame) as [sfl| |];
    [|simpl; discriminate|contradiction].
  destruct (selectOpts_length goals motionConfigs) as [Hs Hl].
  destruct (selectOpts goals motionConfigs) as [opts| |];
    [|simpl; discriminate|contradiction].
  specialize (Hl opts eq_refl).
  pose proof (planGoals_no_panic fs sfl ws opts goals 0 ([], seedMap) [] Hc) as Hp.
  destruct (planGoals fs sfl ws opts 0 goals ([], seedMap) []) as [[st| |] log];
    simpl in *; [discriminate|discriminate|].
  exfalso. apply Hp; [lia|unfold len; lia|reflexivity].
Qed.

Lemma motionPlanInternal_never_panics_witness :
  collaborators_never_panic (C := ScenarioX.collaborators_safe) /\
  fst (motionPlanInternal (C := ScenarioX.collaborators_safe)
         [Scenario.goal_arm; Scenario.goal_arm] Scenario.arm Scenario.seedMap0
         Scenario.arm_system None [Scenario.cfg1; Scenario.cfg2] [])
    <> Panic.
Proof.
  assert (H : collaborators_never_panic (C := ScenarioX.collaborators_safe)).
  { repeat split; intros; simpl; try discriminate.
    match goal with |- context [match ?l with _ => _ end] => destruct l end;
      discriminate. }
  split; [exact H|].
  apply (motionPlanInternal_never_panics (C := ScenarioX.collaborators_safe)
           [Scenario.goal_arm; Scenario.goal_arm] Scenario.arm Scenario.seedMap0
           Scenario.arm_system None [Scenario.cfg1; Scenario.cfg2] H).
Defined.

(** X11: with no motion config supplied every planner invocation is made
    with the empty option map, and with one motion config per goal the
    invocation of goal [i] is made with [motionConfigs[i]]; both hold of a
    run that fails as well. *)
Theorem motion_configs_default_and_own {Pose : Type} `{C : Collaborators Pose}
    (goals : list PoseInFrame) (f : Frame Pose) (seedMap : gmap string Inputs)
    (fs : FrameSystem) (ws : option WorldState)
    (motionConfigs : list (gmap string iface)) r log :
  motionPlanInternal goals f seedMap fs ws motionConfigs [] = (r, log) ->
  (motionConfigs = [] -> Forall (event_uses ∅) log) /\
  (len motionConfigs = len goals -> Forall (event_uses_own motionConfigs) log).
Proof.
  intros H.
  destruct (motionPlanInternal_loop _ _ _ _ _ _ _ _ H)
    as [[-> _]|(sfl & opts & st & Hg & Hs & Hl & _)]; [split; constructor|].
  destruct (planGoals_log _ _ _ _ _ _ _ _ _ _ Hl) as (new & -> & Hnew). simpl.
  destruct (selectOpts_length goals motionConfigs) as [_ Hlen].
  specialize (Hlen opts Hs).
  split.
  - intros ->. destruct (selectOpts_uniform (Pose := Pose) []) as [c Hc];
      [unfold len; simpl; lia|].
    pose proof (Hc []) as H0. unfold selectOpts in H0. simpl in H0.
    assert (c = ∅) as ->.
    { pose proof (Hc goals) as H1. unfold selectOpts in H1.
      change (len []) with 0 in H1.
      destruct (Z.eqb_spec 0 (len goals)) as [E|E].
      - destruct goals; [congruence|unfold len in E; simpl in E; lia].
      - simpl in H1. destruct goals as [|g goals]; [congruence|].
        simpl in H1. congruence. }
    rewrite (Hc goals) in Hs. injection Hs as <-.
    eapply Forall_impl; [exact Hnew|]. intros ev [Hr [_ Hcall]].
    apply Hcall. apply index_replicate_Ok. unfold len in Hr. lia.
  - intros E. unfold selectOpts in Hs. rewrite (proj2 (Z.eqb_eq _ _) E) in Hs.
    simpl in Hs. injection Hs as <-.
    eapply Forall_impl; [exact Hnew|]. intros ev [Hr [Hi Hcall]].
    destruct ev as [sf i|i sm g c]; simpl in *; [exact I|].
    destruct (index_total motionConfigs i) as [c' Hc']; [lia|].
    rewrite Hc'. f_equal. symmetry. apply (Hcall c'). exact Hc'.
Qed.

Lemma motion_configs_default_and_own_witness :
  Forall (event_uses (C := Scenario.collaborators) ∅) ScenarioX.calls_default /\
  Forall (event_uses_own (C := Scenario.collaborators) [Scenario.cfg1; Scenario.cfg2])
    (Scenario.calls_first ++ ScenarioX.calls_second_own).
Proof.
  split.
  - apply (proj1 (motion_configs_default_and_own (C := Scenario.collaborators)
                    [Scenario.goal_arm; Scenario.goal_arm] Scenario.arm
                    Scenario.seedMap0 Scenario.arm_system None []
                    (Ok [Scenario.seedMap1; Scenario.seedMap1]) ScenarioX.calls_default
                    ltac:(vm_compute; reflexivity))).
    reflexivity.
  - apply (proj2 (motion_configs_default_and_own (C := Scenario.collaborators)
                    [Scenario.goal_arm; Scenario.goal_arm] Scenario.arm
                    Scenario.seedMap0 Scenario.arm_system None
                    [Scenario.cfg1; Scenario.cfg2]
                    (Ok [Scenario.seedMap1; Scenario.seedMap1])
                    (Scenario.calls_first ++ ScenarioX.calls_second_own)
                    ltac:(vm_compute; reflexivity))).
    reflexivity.
Defined.

(** X12: a plan that is returned was made goal by goal: the record of the
    planner calls holds, for each goal in the order of the goals and with
    the indices 0, 1, 2, ..., the construction of the planner of the goal
    and then its invocation on the pose of the goal, and nothing else. *)
Theorem motionPlanInternal_calls_in_order {Pose : Type} `{C : Collaborators Pose}
    (goals : list PoseInFrame) (f : Frame Pose) (seedMap : gmap string Inputs)
    (fs : FrameSystem) (ws : option WorldState)
    (motionConfigs : list (gmap string iface)) steps log :
  motionPlanInternal goals f seedMap fs ws motionConfigs [] = (Ok steps, log) ->
  goal_calls 0 goals log.
Proof.
  intros H.
  destruct (motionPlanInternal_loop _ _ _ _ _ _ _ _ H)
    as [[_ Hn]|(sfl & opts & st & Hg & Hs & Hl & Hr)]; [exfalso; eapply Hn; reflexivity|].
  destruct st as [st'| |]; try discriminate.
  destruct (planGoals_Ok_log _ _ _ _ _ _ _ _ _ _ Hl) as (new & -> & Hnew). exact Hnew.
Qed.

Lemma motionPlanInternal_calls_in_order_witness :
  goal_calls (C := Scenario.collaborators) 0 [Scenario.goal_arm; Scenario.goal_arm]
    (Scenario.calls_first ++ ScenarioX.calls_second_own).
Proof.
  apply (motionPlanInternal_calls_in_order (C := Scenario.collaborators)
           [Scenario.goal_arm; Scenario.goal_arm] Scenario.arm
           Scenario.seedMap0 Scenario.arm_system None [Scenario.cfg1; Scenario.cfg2]
           [Scenario.seedMap1; Scenario.seedMap1]).
  vm_compute. reflexivity.
Defined.

(** X13: the seed map of the next goal.  After the goals [pre] have been
    planned, the loop variable [seedMap] is the last step of the plan so
    far, and the caller's seed map if the plan has no step yet; the loop on
    [pre ++ post] goes on with the goals [post] from there. *)
Theorem goal_loop_seed {Pose : Type} `{C : Collaborators Pose}
    (fs : FrameSystem) (solveFrameList : list (Frame Pose))
    (ws : option WorldState) (opts : list (gmap string iface))
    (pre post : list PoseInFrame) (seedMap : gmap string Inputs) steps sm log :
  planGoals fs solveFrameList ws opts 0 pre ([], seedMap) [] = (Ok (steps, sm), log) ->
  sm = default seedMap (last steps) /\
  planGoals fs solveFrameList ws opts 0 (pre ++ post) ([], seedMap) []
    = planGoals fs solveFrameList ws opts (len pre) post
        (steps, default seedMap (last steps)) log.
Proof.
  intros H.
  destruct (planGoals_seed fs solveFrameList ws opts seedMap pre 0 [] seedMap []
              steps sm log H eq_refl) as [Hsm _].
  split; [exact Hsm|]. rewrite planGoals_app, H, Hsm. reflexivity.
Qed.

Lemma goal_loop_seed_witness :
  Scenario.seedMap1 = default Scenario.seedMap0 (last [Scenario.seedMap1]) /\
  planGoals (C := Scenario.collaborators) Scenario.arm_system [Scenario.arm] None
    [Scenario.cfg1; Scenario.cfg2] 0 ([Scenario.goal_arm] ++ [Scenario.goal_arm])
    ([], Scenario.seedMap0) []
  = planGoals (C := Scenario.collaborators) Scenario.arm_system [Scenario.arm] None
      [Scenario.cfg1; Scenario.cfg2] (len [Scenario.goal_arm]) [Scenario.goal_arm]
      ([Scenario.seedMap1], default Scenario.seedMap0 (last [Scenario.seedMap1]))
      Scenario.calls_first.
Proof.
  apply (goal_loop_seed (C := Scenario.collaborators) Scenario.arm_system [Scenario.arm]
           None [Scenario.cfg1; Scenario.cfg2] [Scenario.goal_arm] [Scenario.goal_arm]
           Scenario.seedMap0 [Scenario.seedMap1] Scenario.seedMap1 Scenario.calls_first).
  vm_compute. reflexivity.
Defined.



(** X18: the entry points for a single destination make at most one
    planner call.  [PlanMotion] constructs the planner of index 0 and invokes
    it at most once, on the seed map, the pose of the destination and the
    planning options it was given; [PlanRobotMotion] does so on the inputs
    read from the robot, and makes no planner call if they cannot be read;
    [PlanFrameMotion] does so on the seed map that holds the seed under the
    name of the frame and nothing else. *)
Theorem single_destination_calls {Pose : Type} `{C : Collaborators Pose}
    (Robot : Type)
    (RobotFsCurrentInputs : Robot -> FrameSystem -> outcome (gmap string Inputs))
    (f : Frame Pose) (planningOpts : gmap string iface) :
  (forall dst seedMap fs ws r log,
      PlanMotion dst f seedMap fs ws planningOpts [] = (r, log) ->
      single_call seedMap (PIFPose dst) planningOpts log) /\
  (forall dst robot fs ws r log,
      PlanRobotMotion Robot RobotFsCurrentInputs dst f robot fs ws planningOpts []
        = (r, log) ->
      match RobotFsCurrentInputs robot fs with
      | Ok seedMap => single_call seedMap (PIFPose dst) planningOpts log
      | _ => log = []
      end) /\
  (forall dst seed r log,
      PlanFrameMotion dst f seed planningOpts [] = (r, log) ->
      single_call {[ Name f := seed ]} dst planningOpts log).
Proof.
  split; [|split].
  - intros dst seedMap fs ws r log H. eapply motionPlanInternal_single. exact H.
  - intros dst robot fs ws r log. unfold PlanRobotMotion, bind, lift.
    destruct (RobotFsCurrentInputs robot fs) as [seedMap| |];
      try (intros [= _ <-]; reflexivity).
    apply motionPlanInternal_single.
  - intros dst seed r log. unfold PlanFrameMotion, bind, lift.
    destruct (fs_AddFrame _ f _) as [fs| |]; try (intros [= _ <-]; left; reflexivity).
    destruct (motionPlanInternal [NewPoseInFrame World dst] f {[ Name f := seed ]} fs None
                [planningOpts] []) as [r1 log1] eqn:E.
    apply motionPlanInternal_single in E. simpl in E.
    intros H. assert (log = log1) as ->; [|exact E].
    destruct r1; unfold lift in H; injection H; auto.
Qed.

Lemma single_destination_calls_witness :
  single_call (C := Scenario.collaborators) Scenario.seedMap0
    [Scenario.joint Float64.f1] Scenario.cfg1 Scenario.calls_first /\
  snd (PlanRobotMotion (C := Scenario.collaborators) _ ScenarioX.current_inputs
         Scenario.goal_arm Scenario.arm None Scenario.arm_system None Scenario.cfg1 [])
    = [].
Proof.
  pose proof (single_destination_calls (C := Scenario.collaborators) _
                ScenarioX.current_inputs Scenario.arm Scenario.cfg1) as (H1 & H2 & _).
  split.
  - apply (H1 Scenario.goal_arm Scenario.seedMap0 Scenario.arm_system None
             (Ok [Scenario.seedMap1]) Scenario.calls_first).
    vm_compute. reflexivity.
  - apply (H2 Scenario.goal_arm None Scenario.arm_system None
             (Err (errors_New "robot has no inputs")) _).
    vm_compute. reflexivity.
Defined.

End OrchestratorExtras.

(** ** The example network service *)

Module NetworkExtras.

Section OS.
Import NetworkService.
Variable Addrs : net_Interface -> outcome (list net_Addr).

Local Abbreviation to_proto := (interfaceToProto Addrs).

Lemma appendAddresses_map addrs : forall out,
  appendAddresses out addrs
    = out ++ map (fun addr => {| Network := addr_Network addr;
                                 Address := addr_String addr |}) addrs.
Proof.
  induction addrs as [|addr addrs IH]; intros out; simpl.
  - rewrite app_nil_r. reflexivity.
  - rewrite IH, <- app_assoc. reflexivity.
Qed.

Lemma interfaceToProto_Ok iface p :
  to_proto iface = Ok p ->
  Name p = net_Name iface /\
  exists addrs, Addrs iface = Ok addrs /\
    map Address (Addresses p) = map addr_String addrs.
Proof.
  unfold interfaceToProto. destruct (Addrs iface) as [addrs| |]; try discriminate.
  simpl. intros [= <-]. simpl. split; [reflexivity|]. exists addrs.
  split; [reflexivity|]. rewrite appendAddresses_map. simpl.
  rewrite map_map. reflexivity.
Qed.

Lemma interfaceToProto_Err iface e :
  to_proto iface = Err e <-> Addrs iface = Err e.
Proof.
  unfold interfaceToProto. destruct (Addrs iface) as [addrs| |]; simpl;
    split; congruence.
Qed.

Lemma interfaceToProto_Ok_iff iface :
  (exists p, to_proto iface = Ok p) <-> (exists addrs, Addrs iface = Ok addrs).
Proof.
  unfold interfaceToProto. destruct (Addrs iface) as [addrs| |]; simpl;
    split; intros [x Hx]; try discriminate; eauto.
Qed.

Lemma listLoop_Ok all : forall out res,
  listLoop Addrs out all = Ok res <->
  exists ps, Forall2 (fun iface p => to_proto iface = Ok p) all ps /\ res = out ++ ps.
Proof.
  induction all as [|iface all IH]; intros out res; simpl.
  - split.
    + intros [= <-]. exists []. split; [constructor|]. rewrite app_nil_r. reflexivity.
    + intros (ps & Hps & ->). inversion Hps. rewrite app_nil_r. reflexivity.
  - destruct (to_proto iface) as [p| |] eqn:Ep; simpl.
    + rewrite IH. split.
      * intros (ps & Hps & ->). exists (p :: ps). split; [constructor; assumption|].
        rewrite <- app_assoc. reflexivity.
      * intros (ps & Hps & ->). inversion Hps as [|? p' ? ps' Hp Hps']; subst.
        assert (p' = p) as -> by congruence.
        exists ps'. split; [assumption|]. rewrite <- app_assoc. reflexivity.
    + split; [discriminate|]. intros (ps & Hps & _). inversion Hps; congruence.
    + split; [discriminate|]. intros (ps & Hps & _). inversion Hps; congruence.
Qed.

Lemma listLoop_Err all e : forall out,
  listLoop Addrs out all = Err e <->
  exists pre iface post,
    all = pre ++ iface :: post /\
    Forall (fun i => exists p, to_proto i = Ok p) pre /\
    to_proto iface = Err e.
Proof.
  induction all as [|iface all IH]; intros out; simpl.
  - split; [discriminate|]. intros (pre & i & post & H & _). destruct pre; discriminate.
  - destruct (to_proto iface) as [p| |] eqn:Ep; simpl.
    + rewrite IH. split.
      * intros (pre & i & post & -> & Hpre & Hi). exists (iface :: pre), i, post.
        split; [reflexivity|]. split; [constructor; eauto|assumption].
      * intros (pre & i & post & H & Hpre & Hi). destruct pre as [|i0 pre].
        -- simpl in H. injection H as <- <-. congruence.
        -- simpl in H. injection H as <- ->. inversion Hpre; subst.
           exists pre, i, post. auto.
    + split.
      * intros [= <-]. exists [], iface, all. split; [reflexivity|]. split; [constructor|].
        assumption.
      * intros (pre & i & post & H & Hpre & Hi). destruct pre as [|i0 pre].
        -- simpl in H. injection H as <- <-. congruence.
        -- simpl in H. injection H as <- ->. inversion Hpre as [|? ? [p Hp] ?]; subst.
           congruence.
    + split; [discriminate|].
      intros (pre & i & post & H & Hpre & Hi). destruct pre as [|i0 pre].
      * simpl in H. injection H as <- <-. congruence.
      * simpl in H. injection H as <- ->. inversion Hpre as [|? ? [p Hp] ?]; subst.
        congruence.
Qed.

End OS.

(** X15: a client connected to a server sees the named service itself.
    If [AsDuration] undoes [durationpb.New], each of the five methods of the
    client of a name returns what the same method of the resource of that
    name returns on the same arguments (the connect options arrive field
    by field as they were passed), and the error of [getMyService] if the
    name has no resource or one that is not a [Network]. *)
Theorem client_server_round_trip {pb_Interface pb_WifiNetwork pb_WifiConnectResponse
    Duration PbDuration : Type}
    (durationpb_New : Duration -> PbDuration) (AsDuration : option PbDuration -> Duration)
    (resources : string ->
       option (NetworkAPI.resource pb_Interface pb_WifiNetwork pb_WifiConnectResponse
                 Duration))
    (name : string) :
  (forall d, AsDuration (Some (durationpb_New d)) = d) ->
  (forall i,
      NetworkAPI.GetInterface
        (NetworkAPI.clientFromSvcClient durationpb_New
           (NetworkAPI.connected_to AsDuration (NetworkAPI.NewServer resources)) name) i
      = (g ← NetworkAPI.getMyService (NetworkAPI.NewServer resources) name;
         NetworkAPI.GetInterface g i)) /\
  NetworkAPI.ListInterfaces
    (NetworkAPI.clientFromSvcClient durationpb_New
       (NetworkAPI.connected_to AsDuration (NetworkAPI.NewServer resources)) name)
  = (g ← NetworkAPI.getMyService (NetworkAPI.NewServer resources) name;
     NetworkAPI.ListInterfaces g) /\
  (forall i d,
      NetworkAPI.WifiScan
        (NetworkAPI.clientFromSvcClient durationpb_New
           (NetworkAPI.connected_to AsDuration (NetworkAPI.NewServer resources)) name) i d
      = (g ← NetworkAPI.getMyService (NetworkAPI.NewServer resources) name;
         NetworkAPI.WifiScan g i d)) /\
  (forall opts,
      NetworkAPI.WifiConnect
        (NetworkAPI.clientFromSvcClient durationpb_New
           (NetworkAPI.connected_to AsDuration (NetworkAPI.NewServer resources)) name) opts
      = (g ← NetworkAPI.getMyService (NetworkAPI.NewServer resources) name;
         NetworkAPI.WifiConnect g opts)) /\
  (forall token,
      NetworkAPI.WifiConnectConfirm
        (NetworkAPI.clientFromSvcClient durationpb_New
           (NetworkAPI.connected_to AsDuration (NetworkAPI.NewServer resources)) name) token
      = (g ← NetworkAPI.getMyService (NetworkAPI.NewServer resources) name;
         NetworkAPI.WifiConnectConfirm g token)).
Proof.
  intros Hd.
  repeat match goal with |- _ /\ _ => split end; intros; simpl;
    unfold NetworkAPI.client_GetInterface, NetworkAPI.client_ListInterfaces,
      NetworkAPI.client_WifiScan, NetworkAPI.client_WifiConnect,
      NetworkAPI.client_WifiConnectConfirm; simpl;
    unfold NetworkAPI.server_GetInterface, NetworkAPI.server_ListInterfaces,
      NetworkAPI.server_WifiScan, NetworkAPI.server_WifiConnect,
      NetworkAPI.server_WifiConnectConfirm; simpl;
    rewrite ?Hd;
    destruct (NetworkAPI.getMyService (NetworkAPI.NewServer resources) name) as [g| |];
    simpl; try reflexivity.
  - destruct (NetworkAPI.GetInterface g i); reflexivity.
  - destruct (NetworkAPI.ListInterfaces g); reflexivity.
  - destruct (NetworkAPI.WifiScan g i d); reflexivity.
  - destruct opts as [i d ss ps]. simpl.
    destruct (NetworkAPI.WifiConnect g _); reflexivity.
  - destruct (NetworkAPI.WifiConnectConfirm g token) as [[]| |]; reflexivity.
Qed.

Lemma client_server_round_trip_witness :
  (forall d, ScenarioNet.AsDuration (Some (ScenarioNet.durationpb_New d)) = d) /\
  NetworkAPI.WifiScan
    (NetworkAPI.clientFromSvcClient ScenarioNet.durationpb_New
       (NetworkAPI.connected_to ScenarioNet.AsDuration
          (NetworkAPI.NewServer ScenarioNet.resources)) "net0") "wlan0" (-1500000000)
  = Err (errors_New "bad duration").
Proof.
  assert (Hd : forall d, ScenarioNet.AsDuration (Some (ScenarioNet.durationpb_New d)) = d).
  { intros d. unfold ScenarioNet.AsDuration, ScenarioNet.durationpb_New. lia. }
  split; [exact Hd|].
  rewrite (proj1 (proj2 (proj2
             (client_server_round_trip ScenarioNet.durationpb_New ScenarioNet.AsDuration
                ScenarioNet.resources "net0" Hd)))).
  reflexivity.
Defined.

(** X16: [ListInterfaces] answers with one message per interface of the
    operating system, in its order, or with the first error.  When
    [net.Interfaces] returns [all], the call returns [out] exactly if [out]
    holds, position by position, the messages that [interfaceToProto] makes
    of the interfaces; it fails with [e] exactly if reading the addresses of
    some interface fails with [e] and no earlier interface fails; and a
    list returned has the names of [all] and, for each interface, the
    address strings in the order of its addresses. *)
Theorem ListInterfaces_spec
    (Addrs : NetworkService.net_Interface -> outcome (list NetworkService.net_Addr))
    (net_Interfaces : outcome (list NetworkService.net_Interface))
    (all : list NetworkService.net_Interface) :
  net_Interfaces = Ok all ->
  (forall out,
      NetworkService.ListInterfaces net_Interfaces Addrs = Ok out <->
      Forall2 (fun iface p => NetworkService.interfaceToProto Addrs iface = Ok p) all out) /\
  (forall e,
      NetworkService.ListInterfaces net_Interfaces Addrs = Err e <->
      exists pre iface post,
        all = pre ++ iface :: post /\
        Forall (fun i => exists addrs, Addrs i = Ok addrs) pre /\
        Addrs iface = Err e) /\
  (forall out,
      NetworkService.ListInterfaces net_Interfaces Addrs = Ok out ->
      map NetworkService.Name out = map NetworkService.net_Name all /\
      Forall2 (fun iface p => exists addrs,
                   Addrs iface = Ok addrs /\
                   map NetworkService.Address (NetworkService.Addresses p)
                     = map NetworkService.addr_String addrs) all out).
Proof.
  intros ->. unfold NetworkService.ListInterfaces. simpl.
  assert (Hok : forall out,
             NetworkService.listLoop Addrs [] all = Ok out <->
             Forall2 (fun iface p => NetworkService.interfaceToProto Addrs iface = Ok p)
               all out).
  { intros out. rewrite listLoop_Ok. simpl. split.
    - intros (ps & Hps & ->). exact Hps.
    - intros H. eauto. }
  split; [exact Hok|]. split.
  - intros e. rewrite listLoop_Err. split.
    + intros (pre & i & post & -> & Hpre & Hi). exists pre, i, post.
      split; [reflexivity|]. split; [|apply interfaceToProto_Err; exact Hi].
      eapply Forall_impl; [exact Hpre|]. intros x. apply interfaceToProto_Ok_iff.
    + intros (pre & i & post & -> & Hpre & Hi). exists pre, i, post.
      split; [reflexivity|]. split; [|apply interfaceToProto_Err; exact Hi].
      eapply Forall_impl; [exact Hpre|]. intros x. apply interfaceToProto_Ok_iff.
  - intros out H. apply Hok in H. clear Hok.
    induction H as [|iface p all out Hp H IH]; simpl.
    + split; constructor.
    + destruct IH as [IH1 IH2]. destruct (interfaceToProto_Ok Addrs _ _ Hp) as [Hn Ha].
      split; [rewrite Hn, IH1; reflexivity|]. constructor; assumption.
Qed.

Lemma ListInterfaces_spec_witness :
  NetworkService.ListInterfaces (Ok [ScenarioNet.eth0; ScenarioNet.wlan0])
    ScenarioNet.addrs_of = Ok [ScenarioNet.eth0_proto; ScenarioNet.wlan0_proto] /\
  NetworkService.ListInterfaces (Ok [ScenarioNet.eth0; ScenarioNet.wlan0])
    ScenarioNet.addrs_eth0_only
  = Err (errors_New "route ip+net: no such network interface").
Proof.
  split.
  - apply (proj1 (ListInterfaces_spec ScenarioNet.addrs_of
                    (Ok [ScenarioNet.eth0; ScenarioNet.wlan0])
                    [ScenarioNet.eth0; ScenarioNet.wlan0] eq_refl)).
    repeat constructor.
  - apply (proj1 (proj2 (ListInterfaces_spec ScenarioNet.addrs_eth0_only
                    (Ok [ScenarioNet.eth0; ScenarioNet.wlan0])
                    [ScenarioNet.eth0; ScenarioNet.wlan0] eq_refl))).
    exists [ScenarioNet.eth0], ScenarioNet.wlan0, [].
    split; [reflexivity|]. split; [|reflexivity].
    constructor; [|constructor]. eexists. reflexivity.
Defined.

(** X17: [GetInterface] and [ListInterfaces] agree.  For an interface
    that [net.InterfaceByName] finds under a name that is not empty and that
    [net.Interfaces] lists, if the list is returned then [GetInterface]
    returns a message of the list. *)
Theorem GetInterface_agrees_with_list
    (net_InterfaceByName : string -> outcome NetworkService.net_Interface)
    (net_Interfaces : outcome (list NetworkService.net_Interface))
    (Addrs : NetworkService.net_Interface -> outcome (list NetworkService.net_Addr))
    (name : string) (iface : NetworkService.net_Interface)
    (all : list NetworkService.net_Interface) (out : list NetworkService.Interface) :
  name <> "" ->
  net_InterfaceByName name = Ok iface ->
  net_Interfaces = Ok all ->
  In iface all ->
  NetworkService.ListInterfaces net_Interfaces Addrs = Ok out ->
  exists p, NetworkService.GetInterface net_InterfaceByName Addrs name = Ok p /\ In p out.
Proof.
  intros Hn Hby -> Hin. unfold NetworkService.ListInterfaces. simpl. intros Hl.
  apply listLoop_Ok in Hl. destruct Hl as (ps & Hps & ->). simpl.
  unfold NetworkService.GetInterface.
  destruct (String.eqb_spec name "") as [E|_]; [contradiction|].
  rewrite Hby. simpl.
  induction Hps as [|i p all ps Hp Hps IH]; [contradiction|].
  destruct Hin as [->|Hin].
  - exists p. rewrite Hp. split; [reflexivity|left; reflexivity].
  - destruct (IH Hin) as (p' & Hp' & Hin'). exists p'. split; [exact Hp'|right; exact Hin'].
Qed.

Lemma GetInterface_agrees_with_list_witness :
  exists p,
    NetworkService.GetInterface ScenarioNet.by_name ScenarioNet.addrs_of "wlan0" = Ok p /\
    In p [ScenarioNet.eth0_proto; ScenarioNet.wlan0_proto].
Proof.
  apply (GetInterface_agrees_with_list ScenarioNet.by_name
           (Ok [ScenarioNet.eth0; ScenarioNet.wlan0]) ScenarioNet.addrs_of "wlan0"
           ScenarioNet.wlan0 [ScenarioNet.eth0; ScenarioNet.wlan0]).
  - discriminate.
  - reflexivity.
  - reflexivity.
  - right. left. reflexivity.
  - reflexivity.
Defined.

End NetworkExtras.
